(** * The Cogl matrix stack: a shallow embedding of [cogl-matrix-stack.c]

    The matrix stack is a reference-counted tree of transform entries.
    Every entry records one operation and a pointer to its parent; a
    [CoglMatrixStack] only remembers its top entry.  The entries live in
    a store indexed by addresses, so that sharing between stacks, pointer
    comparison ([entry0 == entry1]) and the in-place update of the cache
    of a save entry are all visible in the model.

    The matrix arithmetic itself belongs to the graphene library.  It is
    taken as an interface (the class [Graphene]); an exact rational
    instance is given further down and used to run the code on concrete
    stacks.

    A function that follows parent pointers takes a bound [fuel] on the
    number of steps.  [None] is the result of a run that dereferences
    [NULL] or an address that is not live, that overflows a reference
    count, or that needs more steps than [fuel]; the properties below
    give the result of the run once [fuel] exceeds the length of the
    chains at hand.  The code is the build without
    [COGL_ENABLE_DEBUG]. *)

From Stdlib Require Import ZArith QArith Qcanon Lia.
From stdpp Require Import gmap list fin_maps.

Close Scope Qc_scope.
Close Scope Q_scope.
Close Scope Z_scope.

(** ** The graphene interface *)

(** C's [float], with the few operations the matrix stack applies to it
    directly: the literal [0], [+], [-] and [==]. *)

Class CFloat := {
  float : Type;
  float_zero : float;
  float_add : float -> float -> float;
  float_sub : float -> float -> float;
  float_eq : float -> float -> bool
}.

(** A [graphene_point3d_t] is a plain struct of three floats; the C code
    reads its fields. *)

Record graphene_point3d_t `{CFloat} := graphene_point3d_init {
  point_x : float;
  point_y : float;
  point_z : float
}.

Arguments graphene_point3d_init {_} _ _ _.

(** The entry points that [cogl-matrix-stack.c] calls, and the
    determinant, in which graphene states when an inversion fails.
    Vectors, Euler angles and matrices are opaque to the C code.  A
    function that writes its result through a pointer returns it here:
    [graphene_matrix_multiply a b] is what the C call
    [graphene_matrix_multiply (a, b, res)] stores in [res], and
    [graphene_matrix_translate m pos] is the new content of [m].
    [graphene_matrix_inverse] is [None] when the C function returns
    [false]. *)

Class Graphene `{CFloat} := {
  graphene_vec3_t : Type;
  graphene_vec3_init : float -> float -> float -> graphene_vec3_t;
  graphene_vec3_equal : graphene_vec3_t -> graphene_vec3_t -> bool;
  graphene_euler_t : Type;
  graphene_euler_equal : graphene_euler_t -> graphene_euler_t -> bool;
  graphene_point3d_equal : graphene_point3d_t -> graphene_point3d_t -> bool;
  graphene_matrix_t : Type;
  graphene_matrix_init_identity : graphene_matrix_t;
  graphene_matrix_multiply :
    graphene_matrix_t -> graphene_matrix_t -> graphene_matrix_t;
  graphene_matrix_translate :
    graphene_matrix_t -> graphene_point3d_t -> graphene_matrix_t;
  graphene_matrix_rotate :
    graphene_matrix_t -> float -> graphene_vec3_t -> graphene_matrix_t;
  graphene_matrix_rotate_euler :
    graphene_matrix_t -> graphene_euler_t -> graphene_matrix_t;
  graphene_matrix_scale :
    graphene_matrix_t -> float -> float -> float -> graphene_matrix_t;
  graphene_matrix_equal : graphene_matrix_t -> graphene_matrix_t -> bool;
  graphene_matrix_determinant : graphene_matrix_t -> float;
  graphene_matrix_inverse : graphene_matrix_t -> option graphene_matrix_t
}.

(** ** Entries and the store *)

Abbreviation ptr := nat (only parsing).

(** Modelled from the spec: the enumeration [CoglMatrixOp], declared in
    [cogl-matrix-stack-private.h]; its eight values are the ones the
    [switch] statements of the C file go through. *)
Inductive CoglMatrixOp :=
| COGL_MATRIX_OP_LOAD_IDENTITY
| COGL_MATRIX_OP_TRANSLATE
| COGL_MATRIX_OP_ROTATE
| COGL_MATRIX_OP_ROTATE_EULER
| COGL_MATRIX_OP_SCALE
| COGL_MATRIX_OP_MULTIPLY
| COGL_MATRIX_OP_LOAD
| COGL_MATRIX_OP_SAVE.

Section MatrixStack.
Context `{G : Graphene}.

(** Modelled from the spec: the structs [CoglMatrixEntryTranslate],
    [CoglMatrixEntryRotate], ... of the union [CoglMatrixEntryFull],
    declared in [cogl-matrix-stack-private.h], with the fields that the
    C file reads and writes after the common header.  The cache of a
    save entry is storage that [cogl_matrix_stack_push] leaves
    unwritten: [None] stands for that unwritten storage. *)

Inductive CoglMatrixEntryFull :=
| EntryLoadIdentity
| EntryTranslate (translate : graphene_point3d_t)
| EntryRotate (angle : float) (axis : graphene_vec3_t)
| EntryRotateEuler (euler : graphene_euler_t)
| EntryScale (x y z : float)
| EntryMultiply (matrix : graphene_matrix_t)
| EntryLoad (matrix : graphene_matrix_t)
| EntrySave (cache : option graphene_matrix_t) (cache_valid : bool).

(** Modelled from the spec: the common header [CoglMatrixEntry]
    ([parent], [op], [ref_count]); the operation is read off the
    variant of [full] by [op] below, so that an entry always carries
    the fields of its operation. *)
Record CoglMatrixEntry := {
  parent : option ptr;
  ref_count : Z;
  full : CoglMatrixEntryFull
}.

Definition op (entry : CoglMatrixEntry) : CoglMatrixOp :=
  match full entry with
  | EntryLoadIdentity => COGL_MATRIX_OP_LOAD_IDENTITY
  | EntryTranslate _ => COGL_MATRIX_OP_TRANSLATE
  | EntryRotate _ _ => COGL_MATRIX_OP_ROTATE
  | EntryRotateEuler _ => COGL_MATRIX_OP_ROTATE_EULER
  | EntryScale _ _ _ => COGL_MATRIX_OP_SCALE
  | EntryMultiply _ => COGL_MATRIX_OP_MULTIPLY
  | EntryLoad _ => COGL_MATRIX_OP_LOAD
  | EntrySave _ _ => COGL_MATRIX_OP_SAVE
  end.

Definition is_save (entry : CoglMatrixEntry) : bool :=
  match full entry with EntrySave _ _ => true | _ => false end.

Definition is_translate (entry : CoglMatrixEntry) : bool :=
  match full entry with EntryTranslate _ => true | _ => false end.

(** The store maps the address of every live entry to its content.  An
    address outside the store is either [NULL]-like garbage or a chunk
    that was given back to the magazine; reading through it is undefined
    in C and makes the functions below return [None]. *)

#[local] Abbreviation memory := (gmap nat CoglMatrixEntry).

(** Modelled from the spec: the struct [CoglMatrixStack], reduced to
    the one field the operations use; the context is given to
    [cogl_matrix_stack_new] as the address of its identity entry. *)
Record CoglMatrixStack := { last_entry : option ptr }.

Definition INT_MAX : Z := 2147483647.
Definition INT_MIN : Z := -2147483648.

(** Modelled from the spec: [_cogl_magazine_chunk_alloc] (declared in
    [cogl-magazine-private.h]) hands out the storage of one entry from a
    pool; all that is fixed is that the chunk is not the storage of a
    live entry.  A chunk that was freed may be handed out again. *)
Definition _cogl_magazine_chunk_alloc (mem : memory) : ptr :=
  fresh (dom mem).

(** Modelled from the spec: [_cogl_magazine_chunk_free] returns the
    storage of an entry to the pool; the entry is no longer live. *)
Definition _cogl_magazine_chunk_free (mem : memory) (entry : ptr) : memory :=
  delete entry mem.

(** [_cogl_matrix_entry_new] leaves [parent] unset; the placeholder
    [None] is overwritten by [_cogl_matrix_stack_push_entry].  The
    fields specific to the operation, which the C callers fill in right
    after the push, are given here. *)
Definition _cogl_matrix_entry_new (mem : memory) (operation : CoglMatrixEntryFull)
    : memory * ptr :=
  let entry := _cogl_magazine_chunk_alloc mem in
  (<[entry := {| parent := None; ref_count := 1; full := operation |}]> mem,
   entry).

Definition _cogl_matrix_stack_push_entry (mem : memory) (stack : CoglMatrixStack)
    (entry : ptr) : option (memory * CoglMatrixStack) :=
  match mem !! entry with
  | None => None
  | Some e =>
      Some (<[entry := {| parent := last_entry stack;
                          ref_count := ref_count e;
                          full := full e |}]> mem,
            {| last_entry := Some entry |})
  end.

Definition _cogl_matrix_stack_push_operation (mem : memory)
    (stack : CoglMatrixStack) (operation : CoglMatrixEntryFull)
    : option (memory * CoglMatrixStack) :=
  let '(mem1, entry) := _cogl_matrix_entry_new mem operation in
  _cogl_matrix_stack_push_entry mem1 stack entry.

(** [ref_count] is an [int]; incrementing [INT_MAX] is undefined. *)
Definition cogl_matrix_entry_ref (mem : memory) (entry : option ptr)
    : option memory :=
  match entry with
  | None => Some mem
  | Some p =>
      match mem !! p with
      | None => None
      | Some e =>
          if (ref_count e <? INT_MAX)%Z
          then Some (<[p := {| parent := parent e;
                               ref_count := ref_count e + 1;
                               full := full e |}]> mem)
          else None
      end
  end.

(** The loop of [cogl_matrix_entry_unref]: one unit of [fuel] per entry
    that is freed. *)
Fixpoint cogl_matrix_entry_unref (fuel : nat) (mem : memory)
    (entry : option ptr) : option memory :=
  match entry with
  | None => Some mem
  | Some p =>
      match mem !! p with
      | None => None
      | Some e =>
          if (INT_MIN <? ref_count e)%Z then
            if (ref_count e - 1 <=? 0)%Z then
              match fuel with
              | O => None
              | S fuel' =>
                  cogl_matrix_entry_unref fuel'
                    (_cogl_magazine_chunk_free mem p) (parent e)
              end
            else
              Some (<[p := {| parent := parent e;
                              ref_count := ref_count e - 1;
                              full := full e |}]> mem)
          else None
      end
  end.

(** ** Stack operations *)

(** The loop of [_cogl_matrix_stack_push_replacement_entry]:
    [for (new_top = old_top;
          new_top->op != COGL_MATRIX_OP_SAVE && new_top->parent;
          new_top = new_top->parent)]. *)
Fixpoint replacement_new_top (fuel : nat) (mem : memory) (new_top : ptr)
    : option ptr :=
  match mem !! new_top with
  | None => None
  | Some e =>
      if is_save e then Some new_top
      else
        match parent e with
        | None => Some new_top
        | Some up =>
            match fuel with
            | O => None
            | S fuel' => replacement_new_top fuel' mem up
            end
        end
  end.

Definition _cogl_matrix_stack_push_replacement_entry (fuel : nat)
    (mem : memory) (stack : CoglMatrixStack) (operation : CoglMatrixEntryFull)
    : option (memory * CoglMatrixStack) :=
  match last_entry stack with
  | None => None
  | Some old_top =>
      match replacement_new_top fuel mem old_top with
      | None => None
      | Some new_top =>
          match cogl_matrix_entry_ref mem (Some new_top) with
          | None => None
          | Some mem1 =>
              match cogl_matrix_entry_unref fuel mem1 (Some old_top) with
              | None => None
              | Some mem2 =>
                  _cogl_matrix_stack_push_operation mem2
                    {| last_entry := Some new_top |} operation
              end
          end
      end
  end.

Definition _cogl_matrix_entry_identity_init (mem : memory) (entry : ptr)
    : memory :=
  <[entry := {| parent := None; ref_count := 1;
                full := EntryLoadIdentity |}]> mem.

Definition cogl_matrix_stack_load_identity (fuel : nat) (mem : memory)
    (stack : CoglMatrixStack) : option (memory * CoglMatrixStack) :=
  _cogl_matrix_stack_push_replacement_entry fuel mem stack EntryLoadIdentity.

Definition cogl_matrix_stack_translate (mem : memory) (stack : CoglMatrixStack)
    (x y z : float) : option (memory * CoglMatrixStack) :=
  _cogl_matrix_stack_push_operation mem stack
    (EntryTranslate (graphene_point3d_init x y z)).

Definition cogl_matrix_stack_rotate (mem : memory) (stack : CoglMatrixStack)
    (angle x y z : float) : option (memory * CoglMatrixStack) :=
  _cogl_matrix_stack_push_operation mem stack
    (EntryRotate angle (graphene_vec3_init x y z)).

Definition cogl_matrix_stack_rotate_euler (mem : memory)
    (stack : CoglMatrixStack) (euler : graphene_euler_t)
    : option (memory * CoglMatrixStack) :=
  _cogl_matrix_stack_push_operation mem stack (EntryRotateEuler euler).

Definition cogl_matrix_stack_scale (mem : memory) (stack : CoglMatrixStack)
    (x y z : float) : option (memory * CoglMatrixStack) :=
  _cogl_matrix_stack_push_operation mem stack (EntryScale x y z).

Definition cogl_matrix_stack_multiply (mem : memory) (stack : CoglMatrixStack)
    (matrix : graphene_matrix_t) : option (memory * CoglMatrixStack) :=
  _cogl_matrix_stack_push_operation mem stack (EntryMultiply matrix).

Definition cogl_matrix_stack_set (fuel : nat) (mem : memory)
    (stack : CoglMatrixStack) (matrix : graphene_matrix_t)
    : option (memory * CoglMatrixStack) :=
  _cogl_matrix_stack_push_replacement_entry fuel mem stack (EntryLoad matrix).

Definition cogl_matrix_stack_push (mem : memory) (stack : CoglMatrixStack)
    : option (memory * CoglMatrixStack) :=
  _cogl_matrix_stack_push_operation mem stack (EntrySave None false).

(** The loop of [cogl_matrix_stack_pop]:
    [for (new_top = old_top; new_top->op != COGL_MATRIX_OP_SAVE;
          new_top = new_top->parent)].  It yields the save entry; running
    off the chain dereferences [NULL]. *)
Fixpoint pop_find_save (fuel : nat) (mem : memory) (new_top : ptr)
    : option (ptr * CoglMatrixEntry) :=
  match mem !! new_top with
  | None => None
  | Some e =>
      if is_save e then Some (new_top, e)
      else
        match parent e with
        | None => None
        | Some up =>
            match fuel with
            | O => None
            | S fuel' => pop_find_save fuel' mem up
            end
        end
  end.

Definition cogl_matrix_stack_pop (fuel : nat) (mem : memory)
    (stack : CoglMatrixStack) : option (memory * CoglMatrixStack) :=
  match last_entry stack with
  | None => Some (mem, stack)
  | Some old_top =>
      match pop_find_save fuel mem old_top with
      | None => None
      | Some (_, save) =>
          let new_top := parent save in
          match cogl_matrix_entry_ref mem new_top with
          | None => None
          | Some mem1 =>
              match cogl_matrix_entry_unref fuel mem1 (Some old_top) with
              | None => None
              | Some mem2 => Some (mem2, {| last_entry := new_top |})
              end
          end
      end
  end.

Definition cogl_matrix_stack_get_entry (stack : CoglMatrixStack) : option ptr :=
  last_entry stack.

(** [cogl_matrix_stack_new]: the context owns the identity entry at
    address [identity_entry]. *)
Definition cogl_matrix_stack_new (mem : memory) (identity_entry : ptr)
    : option (memory * CoglMatrixStack) :=
  match cogl_matrix_entry_ref mem (Some identity_entry) with
  | None => None
  | Some mem1 =>
      _cogl_matrix_stack_push_entry mem1 {| last_entry := None |}
        identity_entry
  end.

(** ** The composite evaluator *)

(** The [for] loop of [cogl_matrix_entry_get] up to the label [applied],
    in the build without [COGL_ENABLE_DEBUG].  It returns the store, the
    matrix accumulated so far, and the values of [current] and [depth]
    at [applied].  The recursive call made for a save entry whose cache
    is not valid starts the loop again at the parent with the identity
    matrix; that call dereferences its [entry] after the loop when the
    loop did not run, so a save entry without parent is undefined. *)
Fixpoint cogl_matrix_entry_get_loop (fuel : nat) (mem : memory)
    (current : option ptr) (matrix : graphene_matrix_t) (depth : nat)
    : option (memory * graphene_matrix_t * option ptr * nat) :=
  match fuel with
  | O => None
  | S fuel' =>
      match current with
      | None => Some (mem, matrix, None, depth)
      | Some p =>
          match mem !! p with
          | None => None
          | Some e =>
              match full e with
              | EntryTranslate translate =>
                  cogl_matrix_entry_get_loop fuel' mem (parent e)
                    (graphene_matrix_translate matrix translate) (S depth)
              | EntryRotate angle axis =>
                  cogl_matrix_entry_get_loop fuel' mem (parent e)
                    (graphene_matrix_rotate matrix angle axis) (S depth)
              | EntryRotateEuler euler =>
                  cogl_matrix_entry_get_loop fuel' mem (parent e)
                    (graphene_matrix_rotate_euler matrix euler) (S depth)
              | EntryScale x y z =>
                  cogl_matrix_entry_get_loop fuel' mem (parent e)
                    (graphene_matrix_scale matrix x y z) (S depth)
              | EntryMultiply m =>
                  cogl_matrix_entry_get_loop fuel' mem (parent e)
                    (graphene_matrix_multiply matrix m) (S depth)
              | EntryLoadIdentity => Some (mem, matrix, current, depth)
              | EntryLoad m =>
                  Some (mem, graphene_matrix_multiply matrix m, current, depth)
              | EntrySave cache cache_valid =>
                  if cache_valid then
                    match cache with
                    | None => None
                    | Some c =>
                        Some (mem, graphene_matrix_multiply matrix c,
                              current, depth)
                    end
                  else
                    match parent e with
                    | None => None
                    | Some up =>
                        match cogl_matrix_entry_get_loop fuel' mem (Some up)
                                graphene_matrix_init_identity O with
                        | None => None
                        | Some (mem1, c, _, _) =>
                            Some (<[p := {| parent := parent e;
                                            ref_count := ref_count e;
                                            full := EntrySave (Some c) true |}]>
                                    mem1,
                                  graphene_matrix_multiply matrix c,
                                  current, depth)
                        end
                    end
              end
          end
      end
  end.

(** [cogl_matrix_entry_get]: the store after the call, the matrix
    written to [*matrix], and the matrix behind the returned pointer
    ([None] for [NULL]). *)
Definition cogl_matrix_entry_get (fuel : nat) (mem : memory)
    (entry : option ptr)
    : option (memory * graphene_matrix_t * option graphene_matrix_t) :=
  match cogl_matrix_entry_get_loop fuel mem entry
          graphene_matrix_init_identity O with
  | None => None
  | Some (mem', matrix, _, depth) =>
      match depth with
      | O =>
          match entry with
          | None => None
          | Some p =>
              match mem' !! p with
              | None => None
              | Some e =>
                  match full e with
                  | EntryLoad m => Some (mem', matrix, Some m)
                  | EntrySave (Some c) _ => Some (mem', matrix, Some c)
                  | EntrySave None _ => None
                  | _ => Some (mem', matrix, None)
                  end
              end
          end
      | S _ => Some (mem', matrix, None)
      end
  end.

Definition cogl_matrix_stack_get (fuel : nat) (mem : memory)
    (stack : CoglMatrixStack)
    : option (memory * graphene_matrix_t * option graphene_matrix_t) :=
  cogl_matrix_entry_get fuel mem (last_entry stack).

(** [cogl_matrix_stack_get_inverse]: the store after the call and the
    inverse, [None] when [graphene_matrix_inverse] returned [false]. *)
Definition cogl_matrix_stack_get_inverse (fuel : nat) (mem : memory)
    (stack : CoglMatrixStack) : option (memory * option graphene_matrix_t) :=
  match cogl_matrix_stack_get fuel mem stack with
  | None => None
  | Some (mem', matrix, internal) =>
      match internal with
      | Some m => Some (mem', graphene_matrix_inverse m)
      | None => Some (mem', graphene_matrix_inverse matrix)
      end
  end.

(** ** Relative translation *)

(** [_cogl_matrix_entry_skip_saves]: the C function dereferences
    [entry] without a [NULL] test. *)
Fixpoint _cogl_matrix_entry_skip_saves (fuel : nat) (mem : memory)
    (entry : option ptr) : option ptr :=
  match entry with
  | None => None
  | Some p =>
      match mem !! p with
      | None => None
      | Some e =>
          if is_save e then
            match fuel with
            | O => None
            | S fuel' => _cogl_matrix_entry_skip_saves fuel' mem (parent e)
            end
          else Some p
      end
  end.

(** The first two loops of [cogl_matrix_entry_calculate_translation].
    A [GSList] of entry pointers is a list of addresses; [len0] and
    [len1] are the lengths of the lists. *)
Fixpoint calculate_translation_walk (fuel : nat) (mem : memory)
    (node : option ptr) (head : list ptr) : option (list ptr) :=
  match node with
  | None => Some head
  | Some p =>
      match mem !! p with
      | None => None
      | Some e =>
          if is_save e then
            match fuel with
            | O => None
            | S fuel' => calculate_translation_walk fuel' mem (parent e) head
            end
          else if is_translate e then
            match fuel with
            | O => None
            | S fuel' =>
                calculate_translation_walk fuel' mem (parent e) (p :: head)
            end
          else Some (p :: head)
      end
  end.

(** The [while (count--)] loop: a [GSList *] is the list that starts at
    that link, so [common_ancestor0->next] is the tail of the first
    component of the result. *)
Fixpoint calculate_translation_common (count : nat)
    (head0 head1 common_ancestor0 common_ancestor1 : list ptr)
    : option (list ptr * list ptr) :=
  match count with
  | O => Some (common_ancestor0, common_ancestor1)
  | S count' =>
      match head0, head1 with
      | data0 :: next0, data1 :: next1 =>
          if decide (data0 = data1)
          then calculate_translation_common count' next0 next1 head0 head1
          else Some (common_ancestor0, common_ancestor1)
      | _, _ => None
      end
  end.

(** The two summing loops; [sign] is [float_sub] for the list of
    [entry0] and [float_add] for the list of [entry1].  The inner
    [None] is [return FALSE]. *)
Fixpoint calculate_translation_sum (sign : float -> float -> float)
    (mem : memory) (head : list ptr) (xyz : float * float * float)
    : option (option (float * float * float)) :=
  match head with
  | [] => Some (Some xyz)
  | node :: next =>
      match mem !! node with
      | None => None
      | Some e =>
          match full e with
          | EntryTranslate translate =>
              let '(x, y, z) := xyz in
              calculate_translation_sum sign mem next
                (sign x (point_x translate),
                 sign y (point_y translate),
                 sign z (point_z translate))
          | _ => Some None
          end
      end
  end.

(** [cogl_matrix_entry_calculate_translation]: [Some (Some (x, y, z))]
    for [TRUE] with the three outputs, [Some None] for [FALSE]. *)
Definition cogl_matrix_entry_calculate_translation (fuel : nat) (mem : memory)
    (entry0 entry1 : option ptr) : option (option (float * float * float)) :=
  match calculate_translation_walk fuel mem entry0 [],
        calculate_translation_walk fuel mem entry1 [] with
  | Some ((data0 :: next0) as head0), Some ((data1 :: next1) as head1) =>
      if decide (data0 = data1) then
        match calculate_translation_common
                (Nat.min (length head0) (length head1) - 1)
                next0 next1 head0 head1 with
        | Some (_ :: after0, _ :: after1) =>
            match calculate_translation_sum float_sub mem after0
                    (float_zero, float_zero, float_zero) with
            | Some (Some xyz) =>
                calculate_translation_sum float_add mem after1 xyz
            | r => r
            end
        | _ => None
        end
      else Some None
  | _, _ => None
  end.

(** ** Identity test and structural equality *)

Definition cogl_matrix_entry_is_identity (mem : memory) (entry : option ptr)
    : option bool :=
  match entry with
  | None => Some false
  | Some p =>
      match mem !! p with
      | None => None
      | Some e =>
          match full e with
          | EntryLoadIdentity => Some true
          | _ => Some false
          end
      end
  end.

#[global] Instance CoglMatrixOp_eq_dec : EqDecision CoglMatrixOp.
Proof. solve_decision. Defined.

(** [cogl_matrix_entry_equal].  After the test
    [entry0->op != entry1->op] the two entries carry the same
    operation, so the [switch] on [entry0->op] is a match on both. *)
Fixpoint cogl_matrix_entry_equal (fuel : nat) (mem : memory)
    (entry0 entry1 : option ptr) : option bool :=
  match entry0, entry1 with
  | Some _, Some _ =>
      match _cogl_matrix_entry_skip_saves fuel mem entry0 with
      | None => None
      | Some p0 =>
          match _cogl_matrix_entry_skip_saves fuel mem entry1 with
          | None => None
          | Some p1 =>
              if decide (p0 = p1) then Some true
              else
                match mem !! p0, mem !! p1 with
                | Some e0, Some e1 =>
                    if decide (op e0 = op e1) then
                      let next :=
                        match fuel with
                        | O => None
                        | S fuel' =>
                            cogl_matrix_entry_equal fuel' mem
                              (parent e0) (parent e1)
                        end in
                      match full e0, full e1 with
                      | EntryLoadIdentity, EntryLoadIdentity => Some true
                      | EntryTranslate translate0, EntryTranslate translate1 =>
                          if negb (graphene_point3d_equal translate0 translate1)
                          then Some false else next
                      | EntryRotate angle0 axis0, EntryRotate angle1 axis1 =>
                          if negb (float_eq angle0 angle1)
                             || negb (graphene_vec3_equal axis0 axis1)
                          then Some false else next
                      | EntryRotateEuler euler0, EntryRotateEuler euler1 =>
                          if negb (graphene_euler_equal euler0 euler1)
                          then Some false else next
                      | EntryScale x0 y0 z0, EntryScale x1 y1 z1 =>
                          if negb (float_eq x0 x1) || negb (float_eq y0 y1)
                             || negb (float_eq z0 z1)
                          then Some false else next
                      | EntryMultiply m0, EntryMultiply m1 =>
                          if negb (graphene_matrix_equal m0 m1)
                          then Some false else next
                      | EntryLoad m0, EntryLoad m1 =>
                          Some (graphene_matrix_equal m0 m1)
                      | EntrySave _ _, EntrySave _ _ => next
                      | _, _ => Some false
                      end
                    else Some false
                | _, _ => None
                end
          end
      end
  | _, _ => Some false
  end.

(** ** Chains *)

(** [chain mem entry l]: following the parent pointers from [entry]
    visits exactly the entries of [l], in that order, and ends on
    [NULL]. *)
Fixpoint chain (mem : memory) (entry : option ptr)
    (l : list (ptr * CoglMatrixEntry)) : Prop :=
  match l with
  | [] => entry = None
  | (p, e) :: l' =>
      entry = Some p /\ mem !! p = Some e /\ chain mem (parent e) l'
  end.

(** The entries that [_cogl_matrix_entry_skip_saves] steps over are
    dropped. *)
Definition without_saves (l : list (ptr * CoglMatrixEntry))
    : list (ptr * CoglMatrixEntry) :=
  filter (fun pe => is_save pe.2 = false) l.

(** Every save entry of the chain has a parent: the root of the chain
    is not a save entry, as in the chain of every stack, which grows
    from the identity entry of the context. *)
Fixpoint rooted (l : list (ptr * CoglMatrixEntry)) : Prop :=
  match l with
  | [] => True
  | (_, e) :: l' => (is_save e = true -> l' <> []) /\ rooted l'
  end.

(** A sequence of mutating operations, as a caller issues them on one
    stack. *)
Inductive mutation :=
| Translate (x y z : float)
| Rotate (angle x y z : float)
| RotateEuler (euler : graphene_euler_t)
| Scale (x y z : float)
| Multiply (matrix : graphene_matrix_t)
| LoadIdentity
| Set_ (matrix : graphene_matrix_t).

Definition appending (m : mutation) : bool :=
  match m with
  | LoadIdentity | Set_ _ => false
  | _ => true
  end.

(** The entry that the mutation pushes. *)
Definition mutation_entry (m : mutation) : CoglMatrixEntryFull :=
  match m with
  | Translate x y z => EntryTranslate (graphene_point3d_init x y z)
  | Rotate angle x y z => EntryRotate angle (graphene_vec3_init x y z)
  | RotateEuler euler => EntryRotateEuler euler
  | Scale x y z => EntryScale x y z
  | Multiply matrix => EntryMultiply matrix
  | LoadIdentity => EntryLoadIdentity
  | Set_ matrix => EntryLoad matrix
  end.

Definition mutate (fuel : nat) (mem : memory) (stack : CoglMatrixStack)
    (m : mutation) : option (memory * CoglMatrixStack) :=
  match m with
  | Translate x y z => cogl_matrix_stack_translate mem stack x y z
  | Rotate angle x y z => cogl_matrix_stack_rotate mem stack angle x y z
  | RotateEuler euler => cogl_matrix_stack_rotate_euler mem stack euler
  | Scale x y z => cogl_matrix_stack_scale mem stack x y z
  | Multiply matrix => cogl_matrix_stack_multiply mem stack matrix
  | LoadIdentity => cogl_matrix_stack_load_identity fuel mem stack
  | Set_ matrix => cogl_matrix_stack_set fuel mem stack matrix
  end.

Fixpoint mutate_all (fuel : nat) (mem : memory) (stack : CoglMatrixStack)
    (ms : list mutation) : option (memory * CoglMatrixStack) :=
  match ms with
  | [] => Some (mem, stack)
  | m :: ms' =>
      match mutate fuel mem stack m with
      | None => None
      | Some (mem', stack') => mutate_all fuel mem' stack' ms'
      end
  end.

(** [push (); M; pop ()] *)
Definition push_mutate_pop (fuel : nat) (mem : memory)
    (stack : CoglMatrixStack) (ms : list mutation)
    : option (memory * CoglMatrixStack) :=
  match cogl_matrix_stack_push mem stack with
  | None => None
  | Some (mem1, stack1) =>
      match mutate_all fuel mem1 stack1 ms with
      | None => None
      | Some (mem2, stack2) => cogl_matrix_stack_pop fuel mem2 stack2
      end
  end.

(** ** Vocabulary for reference counts *)

Definition chain_start (l : list (ptr * CoglMatrixEntry)) : option ptr :=
  match l with [] => None | (p, _) :: _ => Some p end.

Definition with_ref_count (e : CoglMatrixEntry) (n : Z) : CoglMatrixEntry :=
  {| parent := parent e; ref_count := n; full := full e |}.

(** The store once every entry of [l] went back to the magazine. *)
Definition release_all (l : list (ptr * CoglMatrixEntry)) (mem : memory)
    : memory :=
  foldr (fun pe m => delete pe.1 m) mem l.

(** The store once the first entry of [l] got one more owner. *)
Definition retain (l : list (ptr * CoglMatrixEntry)) (mem : memory) : memory :=
  match l with
  | [] => mem
  | (p, e) :: _ => <[p := with_ref_count e (ref_count e + 1)]> mem
  end.

Definition retained (l : list (ptr * CoglMatrixEntry))
    : list (ptr * CoglMatrixEntry) :=
  match l with
  | [] => []
  | (p, e) :: l' => (p, with_ref_count e (ref_count e + 1)) :: l'
  end.

(** The store after
    [cogl_matrix_entry_ref (new_top); cogl_matrix_entry_unref (old_top)],
    as [cogl_matrix_stack_pop] and
    [_cogl_matrix_stack_push_replacement_entry] run them, on a chain
    [freed ++ kept ++ rest] from the old top: the entries of [freed]
    have one owner, the first entry of [kept], when there is one, has
    more, and [rest] starts at the new top. *)
Definition released (freed kept rest : list (ptr * CoglMatrixEntry))
    (mem : memory) : memory :=
  match kept with
  | [] => release_all freed mem
  | (k, e) :: _ =>
      <[k := with_ref_count e (ref_count e - 1)]>
        (release_all freed (retain rest mem))
  end.

(** ** Vocabulary for the composite evaluator *)

(** The operations at which [cogl_matrix_entry_get] jumps to
    [applied]. *)
Definition is_terminal (e : CoglMatrixEntry) : bool :=
  match full e with
  | EntryLoadIdentity | EntryLoad _ | EntrySave _ _ => true
  | _ => false
  end.

(** One translate, rotate, scale or multiply entry applied to the
    running matrix; the terminal operations are handled apart. *)
Definition apply_operation (matrix : graphene_matrix_t) (e : CoglMatrixEntry)
    : graphene_matrix_t :=
  match full e with
  | EntryTranslate translate => graphene_matrix_translate matrix translate
  | EntryRotate angle axis => graphene_matrix_rotate matrix angle axis
  | EntryRotateEuler euler => graphene_matrix_rotate_euler matrix euler
  | EntryScale x y z => graphene_matrix_scale matrix x y z
  | EntryMultiply m => graphene_matrix_multiply matrix m
  | _ => matrix
  end.

(** The composite of a chain, by recursion on the chain: what the
    evaluator is expected to accumulate into [matrix]. *)
Fixpoint composite (matrix : graphene_matrix_t)
    (l : list (ptr * CoglMatrixEntry)) : graphene_matrix_t :=
  match l with
  | [] => matrix
  | (_, e) :: l' =>
      match full e with
      | EntryLoadIdentity => matrix
      | EntryLoad m => graphene_matrix_multiply matrix m
      | EntrySave (Some c) true => graphene_matrix_multiply matrix c
      | EntrySave _ _ =>
          graphene_matrix_multiply matrix
            (composite graphene_matrix_init_identity l')
      | _ => composite (apply_operation matrix e) l'
      end
  end.

(** What the evaluator needs of a chain to run to the end: a save entry
    marked valid has its cache written, and a save entry that is not
    valid has a parent and a chain behind it that can be evaluated. *)
Fixpoint evaluable (l : list (ptr * CoglMatrixEntry)) : Prop :=
  match l with
  | [] => True
  | (_, e) :: l' =>
      match full e with
      | EntryLoadIdentity | EntryLoad _ => True
      | EntrySave (Some _) true => True
      | EntrySave None true => False
      | EntrySave _ false => l' <> [] /\ evaluable l'
      | _ => evaluable l'
      end
  end.

(** The state of a stack between [push ()] and the matching [pop ()]:
    the entries pushed since then sit above the save entry at [s] and
    belong to the stack alone. *)
Definition pushed_above (base : memory) (s : ptr) (save : CoglMatrixEntry)
    (under : list (ptr * CoglMatrixEntry))
    (above : list (ptr * CoglMatrixEntry))
    (mem : memory) (stack : CoglMatrixStack) : Prop :=
  chain mem (last_entry stack) (above ++ (s, save) :: under)
  /\ Forall (fun pe => ref_count pe.2 = 1%Z /\ is_save pe.2 = false) above
  /\ (forall q, q ∈ above.*1 -> (<[s := save]> base) !! q = None)
  /\ (forall q, q ∉ above.*1 -> mem !! q = (<[s := save]> base) !! q).

(** the store after an evaluation that stopped at the entry [e] stored
    at [t] *)
Definition cache_filled (e : CoglMatrixEntry) (c : graphene_matrix_t)
    : CoglMatrixEntry :=
  match full e with
  | EntrySave _ false =>
      {| parent := parent e; ref_count := ref_count e;
         full := EntrySave (Some c) true |}
  | _ => e
  end.

(** the matrix behind the pointer that [cogl_matrix_entry_get] returns *)
Definition internal_matrix (pre : list (ptr * CoglMatrixEntry))
    (te : CoglMatrixEntry) (rest : list (ptr * CoglMatrixEntry))
    : option graphene_matrix_t :=
  match pre with
  | [] =>
      match full te with
      | EntryLoad m => Some m
      | EntrySave (Some c) true => Some c
      | EntrySave _ _ => Some (composite graphene_matrix_init_identity rest)
      | _ => None
      end
  | _ :: _ => None
  end.

(** ** Vocabulary for structural equality *)

(** The comparison after which [cogl_matrix_entry_equal] goes on with
    the parents: the same operation among translate, rotate, scale and
    multiply, and fields that compare equal. *)
Definition same_step (e0 e1 : CoglMatrixEntry) : bool :=
  match full e0, full e1 with
  | EntryTranslate translate0, EntryTranslate translate1 =>
      graphene_point3d_equal translate0 translate1
  | EntryRotate angle0 axis0, EntryRotate angle1 axis1 =>
      float_eq angle0 angle1 && graphene_vec3_equal axis0 axis1
  | EntryRotateEuler euler0, EntryRotateEuler euler1 =>
      graphene_euler_equal euler0 euler1
  | EntryScale x0 y0 z0, EntryScale x1 y1 z1 =>
      float_eq x0 x1 && float_eq y0 y1 && float_eq z0 z1
  | EntryMultiply m0, EntryMultiply m1 => graphene_matrix_equal m0 m1
  | _, _ => false
  end.

(** Structural equality as a walk over two chains whose save entries
    were dropped. *)
Fixpoint lockstep_equal (l0 l1 : list (ptr * CoglMatrixEntry)) : bool :=
  match l0, l1 with
  | (p0, e0) :: l0', (p1, e1) :: l1' =>
      if decide (p0 = p1) then true
      else
        match full e0, full e1 with
        | EntryLoadIdentity, EntryLoadIdentity => true
        | EntryLoad m0, EntryLoad m1 => graphene_matrix_equal m0 m1
        | _, _ => same_step e0 e1 && lockstep_equal l0' l1'
        end
  | _, _ => false
  end.

(** ** Vocabulary for the relative translation *)

(** What one of the first two loops of
    [cogl_matrix_entry_calculate_translation] collects on a chain
    without its save entries, from the entry upwards: the translate
    entries, and the first entry that is not one. *)
Fixpoint translate_run (l : list (ptr * CoglMatrixEntry))
    : list (ptr * CoglMatrixEntry) :=
  match l with
  | [] => []
  | (p, e) :: l' =>
      if is_translate e then (p, e) :: translate_run l' else [(p, e)]
  end.

(** The translations of [l] added to, or subtracted from, [xyz] one
    after the other. *)
Definition accumulate (sign : float -> float -> float)
    (xyz : float * float * float) (l : list (ptr * CoglMatrixEntry))
    : float * float * float :=
  foldl (fun acc pe =>
           match full pe.2 with
           | EntryTranslate translate =>
               (sign acc.1.1 (point_x translate),
                sign acc.1.2 (point_y translate),
                sign acc.2 (point_z translate))
           | _ => acc
           end) xyz l.

Definition sum_translations (l : list (ptr * CoglMatrixEntry))
    : float * float * float :=
  accumulate float_add (float_zero, float_zero, float_zero) l.

Definition sub3 (b a : float * float * float) : float * float * float :=
  (float_sub b.1.1 a.1.1, float_sub b.1.2 a.1.2, float_sub b.2 a.2).

End MatrixStack.

(** ** Disposal, projections, the entry cache and the debug printer *)

(** [cogl_matrix_stack_dispose] drops the reference that the stack holds
    on its top entry; the call to the parent class is not part of the
    model. *)
Section Disposal.
Context `{G : Graphene}.

Definition cogl_matrix_stack_dispose (fuel : nat)
    (mem : gmap nat CoglMatrixEntry) (stack : CoglMatrixStack)
    : option (gmap nat CoglMatrixEntry) :=
  cogl_matrix_entry_unref fuel mem (last_entry stack).

End Disposal.

(** The three projection setters store the matrix that graphene builds
    from their arguments; the three constructors of graphene are
    parameters of the section. *)
Section Projections.
Context `{G : Graphene}.
#[local] Abbreviation memory := (gmap nat CoglMatrixEntry).

Variable graphene_matrix_init_frustum :
  float -> float -> float -> float -> float -> float -> graphene_matrix_t.
Variable graphene_matrix_init_perspective :
  float -> float -> float -> float -> graphene_matrix_t.
Variable graphene_matrix_init_ortho :
  float -> float -> float -> float -> float -> float -> graphene_matrix_t.

Definition cogl_matrix_stack_frustum (fuel : nat) (mem : memory)
    (stack : CoglMatrixStack) (left right bottom top z_near z_far : float)
    : option (memory * CoglMatrixStack) :=
  _cogl_matrix_stack_push_replacement_entry fuel mem stack
    (EntryLoad (graphene_matrix_init_frustum left right bottom top
                  z_near z_far)).

Definition cogl_matrix_stack_perspective (fuel : nat) (mem : memory)
    (stack : CoglMatrixStack) (fov_y aspect z_near z_far : float)
    : option (memory * CoglMatrixStack) :=
  _cogl_matrix_stack_push_replacement_entry fuel mem stack
    (EntryLoad (graphene_matrix_init_perspective fov_y aspect z_near z_far)).

(** [graphene_matrix_init_ortho (&entry->matrix, x_1, x_2, y_2, y_1,
    near, far)] *)
Definition cogl_matrix_stack_orthographic (fuel : nat) (mem : memory)
    (stack : CoglMatrixStack) (x_1 y_1 x_2 y_2 near far : float)
    : option (memory * CoglMatrixStack) :=
  _cogl_matrix_stack_push_replacement_entry fuel mem stack
    (EntryLoad (graphene_matrix_init_ortho x_1 x_2 y_2 y_1 near far)).

(** A call to one of the three setters. *)
Inductive projection :=
| Frustum (left right bottom top z_near z_far : float)
| Perspective (fov_y aspect z_near z_far : float)
| Orthographic (x_1 y_1 x_2 y_2 near far : float).

Definition project (fuel : nat) (mem : memory) (stack : CoglMatrixStack)
    (p : projection) : option (memory * CoglMatrixStack) :=
  match p with
  | Frustum x_left x_right bottom top z_near z_far =>
      cogl_matrix_stack_frustum fuel mem stack x_left x_right bottom top
        z_near z_far
  | Perspective fov_y aspect z_near z_far =>
      cogl_matrix_stack_perspective fuel mem stack fov_y aspect z_near z_far
  | Orthographic x_1 y_1 x_2 y_2 near far =>
      cogl_matrix_stack_orthographic fuel mem stack x_1 y_1 x_2 y_2 near far
  end.

End Projections.

(** Modelled from the spec: the struct [CoglMatrixEntryCache], declared
    in [cogl-matrix-stack.h], with the three fields that the C file
    reads and writes. *)
Record CoglMatrixEntryCache := {
  entry : option ptr;
  flushed_identity : bool;
  flipped : bool
}.

Section EntryCache.
Context `{G : Graphene}.
#[local] Abbreviation memory := (gmap nat CoglMatrixEntry).

(** [_cogl_matrix_entry_cache_init] writes the three fields. *)
Definition _cogl_matrix_entry_cache_init : CoglMatrixEntryCache :=
  {| entry := None; flushed_identity := false; flipped := false |}.

(** [_cogl_matrix_entry_cache_maybe_update]: the store and the cache
    after the call, and the value returned.  [new_entry] is the
    argument [entry] of the C function, which reads [entry->op] without
    a [NULL] test. *)
Definition _cogl_matrix_entry_cache_maybe_update (fuel : nat) (mem : memory)
    (cache : CoglMatrixEntryCache) (new_entry : option ptr) (flip : bool)
    : option (memory * CoglMatrixEntryCache * bool) :=
  let updated := negb (eqb (flipped cache) flip) in
  match new_entry with
  | None => None
  | Some p =>
      match mem !! p with
      | None => None
      | Some e =>
          let is_identity :=
            bool_decide (op e = COGL_MATRIX_OP_LOAD_IDENTITY) in
          let updated :=
            updated || negb (eqb (flushed_identity cache) is_identity) in
          if decide (entry cache = new_entry) then
            Some (mem,
                  {| entry := entry cache; flushed_identity := is_identity;
                     flipped := flip |},
                  updated)
          else
            match cogl_matrix_entry_ref mem new_entry with
            | None => None
            | Some mem1 =>
                match
                  match entry cache with
                  | Some _ => cogl_matrix_entry_unref fuel mem1 (entry cache)
                  | None => Some mem1
                  end
                with
                | None => None
                | Some mem2 =>
                    Some (mem2,
                          {| entry := new_entry;
                             flushed_identity := is_identity;
                             flipped := flip |},
                          updated || negb is_identity)
                end
            end
      end
  end.

Definition _cogl_matrix_entry_cache_destroy (fuel : nat) (mem : memory)
    (cache : CoglMatrixEntryCache) : option memory :=
  match entry cache with
  | Some _ => cogl_matrix_entry_unref fuel mem (entry cache)
  | None => Some mem
  end.

(** The flag [flushed_identity] tells whether the entry of the cache is
    a load-identity entry; a cache without entry has the flag down, as
    after [_cogl_matrix_entry_cache_init]. *)
Definition cache_consistent (mem : memory) (cache : CoglMatrixEntryCache)
    : Prop :=
  match entry cache with
  | Some p =>
      exists e, mem !! p = Some e
        /\ flushed_identity cache =
             bool_decide (op e = COGL_MATRIX_OP_LOAD_IDENTITY)
  | None => flushed_identity cache = false
  end.

End EntryCache.

Section DebugPrint.
Context `{G : Graphene}.
#[local] Abbreviation memory := (gmap nat CoglMatrixEntry).

(** What [cogl_debug_matrix_entry_print] hands to [g_print] and to
    [graphene_matrix_print], call after call: which format is printed
    and with which fields; the rendering of a float or of a pointer is
    left to [g_print]. *)
Inductive printed :=
| PrintMatrixEntry (address : option ptr)
| PrintLoadIdentity
| PrintTranslate (x y z : float)
| PrintRotate (angle : float) (axis : graphene_vec3_t)
| PrintRotateEuler (euler : graphene_euler_t)
| PrintScale (x y z : float)
| PrintMult (matrix : graphene_matrix_t)
| PrintLoad (matrix : graphene_matrix_t)
| PrintSave.

(** [for (depth = 0, e = entry; e; e = e->parent) depth++;] *)
Fixpoint debug_print_depth (fuel : nat) (mem : memory) (e : option ptr)
    (depth : nat) : option nat :=
  match e with
  | None => Some depth
  | Some p =>
      match fuel, mem !! p with
      | S fuel', Some x => debug_print_depth fuel' mem (parent x) (S depth)
      | _, _ => None
      end
  end.

(** [for (i = depth - 1, e = entry; i >= 0 && e; i--, e = e->parent)
      children[i] = e;]
    The argument [i] counts the slots that are left, so that the slot
    written is [i - 1]. *)
Fixpoint debug_print_children (mem : memory) (i : nat) (e : option ptr)
    (children : list (option ptr)) : option (list (option ptr)) :=
  match i, e with
  | S i', Some p =>
      match mem !! p with
      | Some x =>
          debug_print_children mem i' (parent x) (<[i' := Some p]> children)
      | None => None
      end
  | _, _ => Some children
  end.

(** the [switch] of the last loop *)
Definition debug_print_line (e : CoglMatrixEntry) : list printed :=
  match full e with
  | EntryLoadIdentity => [PrintLoadIdentity]
  | EntryTranslate translate =>
      [PrintTranslate (point_x translate) (point_y translate)
         (point_z translate)]
  | EntryRotate angle axis => [PrintRotate angle axis]
  | EntryRotateEuler euler => [PrintRotateEuler euler]
  | EntryScale x y z => [PrintScale x y z]
  | EntryMultiply matrix => [PrintMult matrix]
  | EntryLoad matrix => [PrintLoad matrix]
  | EntrySave _ _ => [PrintSave]
  end.

(** [for (i = 0; i < depth; i++) { entry = children[i]; ... }]; a slot
    of [children] that was not written holds garbage ([None]). *)
Fixpoint debug_print_lines (mem : memory) (children : list (option ptr))
    : option (list printed) :=
  match children with
  | [] => Some []
  | Some p :: children' =>
      match mem !! p, debug_print_lines mem children' with
      | Some e, Some out => Some (debug_print_line e ++ out)
      | _, _ => None
      end
  | None :: _ => None
  end.

Definition cogl_debug_matrix_entry_print (fuel : nat) (mem : memory)
    (address : option ptr) : option (list printed) :=
  match debug_print_depth fuel mem address 0 with
  | None => None
  | Some depth =>
      match debug_print_children mem depth address (replicate depth None) with
      | None => None
      | Some children =>
          match debug_print_lines mem children with
          | None => None
          | Some out => Some (PrintMatrixEntry address :: out)
          end
      end
  end.

End DebugPrint.

(** ** Vocabulary for the accounting of references *)

Section Accounting.
Context `{G : Graphene}.
#[local] Abbreviation memory := (gmap nat CoglMatrixEntry).

(** The number of entries whose parent is [q]. *)
Definition children (mem : memory) (q : ptr) : nat :=
  size (filter (fun pe => parent pe.2 = Some q) mem).

(** [owners q] counts the references to [q] that are held outside the
    store: by a stack for its top entry, by a cache, by a caller of
    [cogl_matrix_entry_ref], by the context for its identity entry.
    The store is accounted for when the reference count of every live
    entry is the number of its owners plus the number of its children,
    no live entry has a count of zero, no parent pointer dangles, and
    only live entries are owned. *)
Definition accounted (owners : ptr -> nat) (mem : memory) : Prop :=
  (forall p e, mem !! p = Some e ->
     ref_count e = Z.of_nat (owners p + children mem p)
     /\ (0 < ref_count e)%Z
     /\ (forall q, parent e = Some q -> is_Some (mem !! q)))
  /\ (forall p, mem !! p = None -> owners p = 0).

(** Every chain of parents ends. *)
Definition grounded (mem : memory) : Prop :=
  forall p, is_Some (mem !! p) -> exists l, chain mem (Some p) l.

(** No reference count is at the limit of an [int]. *)
Definition bounded (mem : memory) : Prop :=
  forall p e, mem !! p = Some e -> (ref_count e < INT_MAX)%Z.

Definition acquire (owners : ptr -> nat) (x : option ptr) : ptr -> nat :=
  fun q => if decide (x = Some q) then S (owners q) else owners q.

Definition release (owners : ptr -> nat) (x : option ptr) : ptr -> nat :=
  fun q => if decide (x = Some q) then pred (owners q) else owners q.

(** The owners once a reference moved from [old] to [new]. *)
Definition moved (owners : ptr -> nat) (old new : option ptr) : ptr -> nat :=
  release (acquire owners new) old.

(** The stack is one of the owners of its top entry. *)
Definition holds (owners : ptr -> nat) (stack : CoglMatrixStack) : Prop :=
  forall t, last_entry stack = Some t -> 0 < owners t.

(** [1] when [q] is the parent of [e] *)
Definition indicator (e : CoglMatrixEntry) (q : ptr) : nat :=
  if decide (parent e = Some q) then 1 else 0.

(** The owners once the last reference to [p] was dropped: the
    reference that [p] held on its parent is the next one to drop. *)
Definition handed_up (owners : ptr -> nat) (p : ptr) (up : option ptr)
    : ptr -> nat :=
  fun q => if decide (q = p) then 0
           else if decide (up = Some q) then S (owners q) else owners q.

(** Two chains through the same addresses, with the same parents and
    the same operations and fields. *)
Definition same_shape (l l' : list (ptr * CoglMatrixEntry)) : Prop :=
  Forall2 (fun x y => x.1 = y.1 /\ parent x.2 = parent y.2
                      /\ full x.2 = full y.2) l l'.

(** An entry of [mem] is either gone from [mem'] or there with the
    same parent, operation and fields. *)
Definition untouched (mem mem' : memory) : Prop :=
  forall q e, mem !! q = Some e ->
    mem' !! q = None
    \/ exists e', mem' !! q = Some e'
         /\ full e' = full e /\ parent e' = parent e.

(** One call on a stack. *)
Inductive operation :=
| Mutate (m : mutation)
| Push
| Pop.

Definition operate (fuel : nat) (mem : memory) (stack : CoglMatrixStack)
    (o : operation) : option (memory * CoglMatrixStack) :=
  match o with
  | Mutate m => mutate fuel mem stack m
  | Push => cogl_matrix_stack_push mem stack
  | Pop => cogl_matrix_stack_pop fuel mem stack
  end.

Definition needs_save (o : operation) : bool :=
  match o with Pop => true | _ => false end.

(** The owners given as the list of the references held outside the
    store, and the three conditions above as tests that can be run. *)
Definition owned_by (refs : list ptr) : ptr -> nat :=
  fun q => length (filter (fun r => r = q) refs).

Definition accounted_check (refs : list ptr) (mem : memory) : bool :=
  forallb (fun pe =>
     (ref_count pe.2 =? Z.of_nat (owned_by refs pe.1 + children mem pe.1))%Z
     && (0 <? ref_count pe.2)%Z
     && match parent pe.2 with
        | Some q => bool_decide (is_Some (mem !! q))
        | None => true
        end) (map_to_list mem)
  && forallb (fun r => bool_decide (is_Some (mem !! r))) refs.

Fixpoint reaches_null (fuel : nat) (mem : memory) (x : option ptr) : bool :=
  match x with
  | None => true
  | Some p =>
      match fuel, mem !! p with
      | S fuel', Some e => reaches_null fuel' mem (parent e)
      | _, _ => false
      end
  end.

Definition grounded_check (mem : memory) : bool :=
  forallb (fun pe => reaches_null (size mem) mem (Some pe.1)) (map_to_list mem).

Definition bounded_check (mem : memory) : bool :=
  forallb (fun pe => (ref_count pe.2 <? INT_MAX)%Z) (map_to_list mem).

End Accounting.

(** ** Vocabulary for the matrices of chains *)

Section Matrices.
Context `{G : Graphene}.

(** The cache of every save entry of the chain that is marked valid
    holds the composite of the entries behind it. *)
Fixpoint caches_right (l : list (ptr * CoglMatrixEntry)) : Prop :=
  match l with
  | [] => True
  | (_, e) :: l' =>
      (forall c, full e = EntrySave (Some c) true ->
         c = composite graphene_matrix_init_identity l')
      /\ caches_right l'
  end.

(** The chain once an evaluation went through it: the save entries
    that the evaluation reached and found without a valid cache have
    their cache filled. *)
Fixpoint settled (l : list (ptr * CoglMatrixEntry))
    : list (ptr * CoglMatrixEntry) :=
  match l with
  | [] => []
  | (p, e) :: l' =>
      match full e with
      | EntrySave _ false =>
          (p, cache_filled e (composite graphene_matrix_init_identity l'))
          :: settled l'
      | EntryLoadIdentity | EntryLoad _ | EntrySave _ true => (p, e) :: l'
      | _ => (p, e) :: settled l'
      end
  end.

(** The matrix by which an operation multiplies the running matrix. *)
Definition operation_matrix (operation : CoglMatrixEntryFull)
    : graphene_matrix_t :=
  apply_operation graphene_matrix_init_identity
    {| parent := None; ref_count := 1; full := operation |}.

(** The matrix of the translation by [xyz]. *)
Definition translation_matrix (xyz : float * float * float)
    : graphene_matrix_t :=
  graphene_matrix_translate graphene_matrix_init_identity
    (graphene_point3d_init xyz.1.1 xyz.1.2 xyz.2).

End Matrices.

(** ** An exact instance of the interface *)

(** Floats are replaced by rationals in canonical form, so that [==] is
    equality and no operation rounds.  Matrices are laid out as graphene
    lays them out: row-major, a point is a row vector, and the
    translation part is the last row.  Every operation that modifies a
    matrix post-multiplies it, as graphene does. *)

Module Exact.

#[local] Open Scope Qc_scope.

Definition Qc_of_Z (z : Z) : Qc := Q2Qc (inject_Z z).

Record mat4 := Mat4 {
  m00 : Qc; m01 : Qc; m02 : Qc; m03 : Qc;
  m10 : Qc; m11 : Qc; m12 : Qc; m13 : Qc;
  m20 : Qc; m21 : Qc; m22 : Qc; m23 : Qc;
  m30 : Qc; m31 : Qc; m32 : Qc; m33 : Qc
}.

Definition mat4_identity : mat4 :=
  Mat4 1 0 0 0
       0 1 0 0
       0 0 1 0
       0 0 0 1.

Definition mat4_mul (a b : mat4) : mat4 :=
  Mat4
    (m00 a * m00 b + m01 a * m10 b + m02 a * m20 b + m03 a * m30 b)
    (m00 a * m01 b + m01 a * m11 b + m02 a * m21 b + m03 a * m31 b)
    (m00 a * m02 b + m01 a * m12 b + m02 a * m22 b + m03 a * m32 b)
    (m00 a * m03 b + m01 a * m13 b + m02 a * m23 b + m03 a * m33 b)
    (m10 a * m00 b + m11 a * m10 b + m12 a * m20 b + m13 a * m30 b)
    (m10 a * m01 b + m11 a * m11 b + m12 a * m21 b + m13 a * m31 b)
    (m10 a * m02 b + m11 a * m12 b + m12 a * m22 b + m13 a * m32 b)
    (m10 a * m03 b + m11 a * m13 b + m12 a * m23 b + m13 a * m33 b)
    (m20 a * m00 b + m21 a * m10 b + m22 a * m20 b + m23 a * m30 b)
    (m20 a * m01 b + m21 a * m11 b + m22 a * m21 b + m23 a * m31 b)
    (m20 a * m02 b + m21 a * m12 b + m22 a * m22 b + m23 a * m32 b)
    (m20 a * m03 b + m21 a * m13 b + m22 a * m23 b + m23 a * m33 b)
    (m30 a * m00 b + m31 a * m10 b + m32 a * m20 b + m33 a * m30 b)
    (m30 a * m01 b + m31 a * m11 b + m32 a * m21 b + m33 a * m31 b)
    (m30 a * m02 b + m31 a * m12 b + m32 a * m22 b + m33 a * m32 b)
    (m30 a * m03 b + m31 a * m13 b + m32 a * m23 b + m33 a * m33 b).

Definition mat4_translation (x y z : Qc) : mat4 :=
  Mat4 1 0 0 0
       0 1 0 0
       0 0 1 0
       x y z 1.

Definition mat4_scaling (x y z : Qc) : mat4 :=
  Mat4 x 0 0 0
       0 y 0 0
       0 0 z 0
       0 0 0 1.

Definition mat4_transpose (a : mat4) : mat4 :=
  Mat4 (m00 a) (m10 a) (m20 a) (m30 a)
       (m01 a) (m11 a) (m21 a) (m31 a)
       (m02 a) (m12 a) (m22 a) (m32 a)
       (m03 a) (m13 a) (m23 a) (m33 a).

(** Cosine and sine of an angle in degrees, for the angles whose
    cosine and sine are rational in this model: the multiples of 90. *)
Definition quarter_turns (angle : Qc) : option Z :=
  let q := angle / Qc_of_Z 90 in
  match Qden (this q) with
  | xH => Some (Qnum (this q) mod 4)%Z
  | _ => None
  end.

Definition cos_sin (angle : Qc) : option (Qc * Qc) :=
  match quarter_turns angle with
  | Some 0%Z => Some (1, 0)
  | Some 1%Z => Some (0, 1)
  | Some 2%Z => Some (- (1), 0)
  | Some 3%Z => Some (0, - (1))
  | _ => None
  end.

Definition Qc_sign (q : Qc) : Qc :=
  match Qnum (this q) with
  | Z0 => 0
  | Zpos _ => 1
  | Zneg _ => - (1)
  end.

(** The unit vector along [(x, y, z)] when it is rational: when the
    vector lies on a coordinate axis. *)
Definition unit_axis (v : Qc * Qc * Qc) : option (Qc * Qc * Qc) :=
  let '(x, y, z) := v in
  if Qc_eq_bool y 0 && Qc_eq_bool z 0 && negb (Qc_eq_bool x 0)
  then Some (Qc_sign x, 0, 0)
  else if Qc_eq_bool x 0 && Qc_eq_bool z 0 && negb (Qc_eq_bool y 0)
  then Some (0, Qc_sign y, 0)
  else if Qc_eq_bool x 0 && Qc_eq_bool y 0 && negb (Qc_eq_bool z 0)
  then Some (0, 0, Qc_sign z)
  else None.

(** The rotation matrix of graphene (the transpose of the matrix that
    acts on column vectors).  A rotation whose matrix is not rational
    has no counterpart in this model and is replaced by no rotation. *)
Definition mat4_rotation (angle : Qc) (axis : Qc * Qc * Qc) : mat4 :=
  match cos_sin angle, unit_axis axis with
  | Some (c, s), Some (ux, uy, uz) =>
      let t := 1 - c in
      Mat4 (c + ux * ux * t) (uy * ux * t + uz * s) (uz * ux * t - uy * s) 0
           (ux * uy * t - uz * s) (c + uy * uy * t) (uz * uy * t + ux * s) 0
           (ux * uz * t + uy * s) (uy * uz * t - ux * s) (c + uz * uz * t) 0
           0 0 0 1
  | _, _ => mat4_identity
  end.

(** Euler angles about the x, y and z axes, applied in that order. *)
Definition mat4_rotation_euler (euler : Qc * Qc * Qc) : mat4 :=
  let '(ax, ay, az) := euler in
  mat4_mul (mat4_mul (mat4_rotation ax (1, 0, 0)) (mat4_rotation ay (0, 1, 0)))
           (mat4_rotation az (0, 0, 1)).

Definition det3 (a b c d e f g h i : Qc) : Qc :=
  a * (e * i - f * h) - b * (d * i - f * g) + c * (d * h - e * g).

Definition mat4_entry (a : mat4) (i j : nat) : Qc :=
  match i, j with
  | 0, 0 => m00 a | 0, 1 => m01 a | 0, 2 => m02 a | 0, _ => m03 a
  | 1, 0 => m10 a | 1, 1 => m11 a | 1, 2 => m12 a | 1, _ => m13 a
  | 2, 0 => m20 a | 2, 1 => m21 a | 2, 2 => m22 a | 2, _ => m23 a
  | _, 0 => m30 a | _, 1 => m31 a | _, 2 => m32 a | _, _ => m33 a
  end%nat.

(** The index [k] once index [i] is left out. *)
Definition skip (i k : nat) : nat := if (k <? i)%nat then k else S k.

(** The determinant of [a] without row [i] and column [j]. *)
Definition minor (a : mat4) (i j : nat) : Qc :=
  let e (r c : nat) := mat4_entry a (skip i r) (skip j c) in
  (det3 (e 0 0) (e 0 1) (e 0 2)
        (e 1 0) (e 1 1) (e 1 2)
        (e 2 0) (e 2 1) (e 2 2))%nat.

(** Expansion along the first row. *)
Definition mat4_determinant (a : mat4) : Qc :=
  m00 a * minor a 0%nat 0%nat - m01 a * minor a 0%nat 1%nat
  + m02 a * minor a 0%nat 2%nat - m03 a * minor a 0%nat 3%nat.

(** The adjugate divided by the determinant: the entry of row [i] and
    column [j] is the cofactor of row [j] and column [i]. *)
Definition mat4_inverse (a : mat4) : option mat4 :=
  let d := mat4_determinant a in
  let co (i j : nat) :=
    (if Nat.even (i + j) then minor a j i else - minor a j i) / d in
  if Qc_eq_bool d 0 then None
  else Some (Mat4 (co 0 0) (co 0 1) (co 0 2) (co 0 3)
                  (co 1 0) (co 1 1) (co 1 2) (co 1 3)
                  (co 2 0) (co 2 1) (co 2 2) (co 2 3)
                  (co 3 0) (co 3 1) (co 3 2) (co 3 3))%nat.

Definition mat4_equal (a b : mat4) : bool :=
  forallb (fun i =>
    forallb (fun j => Qc_eq_bool (mat4_entry a i j) (mat4_entry b i j))
      (seq 0 4)) (seq 0 4).

#[global] Instance exact_float : CFloat := {|
  float := Qc;
  float_zero := 0;
  float_add := Qcplus;
  float_sub := Qcminus;
  float_eq := Qc_eq_bool
|}.

#[global] Instance exact_graphene : Graphene := {|
  graphene_vec3_t := Qc * Qc * Qc;
  graphene_vec3_init := fun x y z => (x, y, z);
  graphene_vec3_equal := fun a b =>
    Qc_eq_bool a.1.1 b.1.1 && Qc_eq_bool a.1.2 b.1.2 && Qc_eq_bool a.2 b.2;
  graphene_euler_t := Qc * Qc * Qc;
  graphene_euler_equal := fun a b =>
    Qc_eq_bool a.1.1 b.1.1 && Qc_eq_bool a.1.2 b.1.2 && Qc_eq_bool a.2 b.2;
  graphene_point3d_equal := fun a b =>
    Qc_eq_bool (point_x a) (point_x b) && Qc_eq_bool (point_y a) (point_y b)
    && Qc_eq_bool (point_z a) (point_z b);
  graphene_matrix_t := mat4;
  graphene_matrix_init_identity := mat4_identity;
  graphene_matrix_multiply := mat4_mul;
  graphene_matrix_translate := fun m pos =>
    mat4_mul m (mat4_translation (point_x pos) (point_y pos) (point_z pos));
  graphene_matrix_rotate := fun m angle axis =>
    mat4_mul m (mat4_rotation angle axis);
  graphene_matrix_rotate_euler := fun m euler =>
    mat4_mul m (mat4_rotation_euler euler);
  graphene_matrix_scale := fun m x y z => mat4_mul m (mat4_scaling x y z);
  graphene_matrix_equal := mat4_equal;
  graphene_matrix_determinant := mat4_determinant;
  graphene_matrix_inverse := mat4_inverse
|}.

(** The projection matrices of graphene in the same layout, for the
    projection setters of the stack.  The cotangent of half the field of
    view is rational for a right angle, where it is [1]; another field
    of view has no counterpart in this model and gives the identity. *)
Definition mat4_frustum (left right bottom top z_near z_far : Qc) : mat4 :=
  Mat4 (Qc_of_Z 2 * z_near / (right - left)) 0 0 0
       0 (Qc_of_Z 2 * z_near / (top - bottom)) 0 0
       ((right + left) / (right - left)) ((top + bottom) / (top - bottom))
         (- ((z_far + z_near) / (z_far - z_near))) (- (1))
       0 0 (- (Qc_of_Z 2 * z_far * z_near / (z_far - z_near))) 0.

Definition mat4_perspective (fov_y aspect z_near z_far : Qc) : mat4 :=
  if Qc_eq_bool fov_y (Qc_of_Z 90) then
    Mat4 (1 / aspect) 0 0 0
         0 1 0 0
         0 0 (- ((z_far + z_near) / (z_far - z_near))) (- (1))
         0 0 (- (Qc_of_Z 2 * z_near * z_far / (z_far - z_near))) 0
  else mat4_identity.

Definition mat4_ortho (left right top bottom z_near z_far : Qc) : mat4 :=
  Mat4 (Qc_of_Z 2 / (right - left)) 0 0 0
       0 (Qc_of_Z 2 / (top - bottom)) 0 0
       0 0 (- (Qc_of_Z 2 / (z_far - z_near))) 0
       (- ((right + left) / (right - left)))
         (- ((top + bottom) / (top - bottom)))
         (- ((z_far + z_near) / (z_far - z_near))) 1.

(** Rationals are read through their numerator and denominator. *)
Definition mat4_entries (a : mat4) : list (list Q) :=
  [ [this (m00 a); this (m01 a); this (m02 a); this (m03 a)];
    [this (m10 a); this (m11 a); this (m12 a); this (m13 a)];
    [this (m20 a); this (m21 a); this (m22 a); this (m23 a)];
    [this (m30 a); this (m31 a); this (m32 a); this (m33 a)] ].

End Exact.

(** ** Concrete stacks *)

Module Examples.
Import Exact.

Definition q (z : Z) : Qc := Qc_of_Z z.

Definition identity_entry (owners : Z) : CoglMatrixEntry :=
  {| parent := None; ref_count := owners; full := EntryLoadIdentity |}.

Definition translate_entry (up : ptr) (owners x y z : Z) : CoglMatrixEntry :=
  {| parent := Some up; ref_count := owners;
     full := EntryTranslate (graphene_point3d_init (q x) (q y) (q z)) |}.

Definition scale_entry (up : ptr) (x y z : Z) : CoglMatrixEntry :=
  {| parent := Some up; ref_count := 1;
     full := EntryScale (q x) (q y) (q z) |}.

Definition save_entry (up : ptr) : CoglMatrixEntry :=
  {| parent := Some up; ref_count := 1; full := EntrySave None false |}.

(** [translate (1, 2, 3); scale (2, 2, 2)] on a new stack: the identity
    entry of the context is at address 0 *)
Definition translate_scale : gmap nat CoglMatrixEntry :=
  <[2 := scale_entry 1 2 2 2]>
    (<[1 := translate_entry 0 1 1 2 3]> (<[0 := identity_entry 2]> ∅)).

Definition translate_scale_matrix : mat4 :=
  mat4_mul (mat4_mul mat4_identity (mat4_scaling (q 2) (q 2) (q 2)))
           (mat4_translation (q 1) (q 2) (q 3)).

(** a new stack on which nothing was pushed *)
Definition fresh_stack : gmap nat CoglMatrixEntry :=
  <[0 := identity_entry 2]> ∅.

(** stack A at [translate (5, 0, 0)] (address 1), stack B at
    [translate (5, 0, 0); translate (2, 0, 0)] (address 3), both on the
    identity entry of the context *)
Definition two_stacks : gmap nat CoglMatrixEntry :=
  <[3 := translate_entry 2 1 2 0 0]>
    (<[2 := translate_entry 0 1 5 0 0]>
       (<[1 := translate_entry 0 1 5 0 0]> (<[0 := identity_entry 3]> ∅))).

(** [push (); translate (1, 2, 3)] on a new stack *)
Definition saved_translate : gmap nat CoglMatrixEntry :=
  <[2 := translate_entry 1 1 1 2 3]>
    (<[1 := save_entry 0]> (<[0 := identity_entry 2]> ∅)).

(** [translate (1, 0, 0); translate (0, 1, 0)] on a new stack *)
Definition two_translates : gmap nat CoglMatrixEntry :=
  <[2 := translate_entry 1 1 0 1 0]>
    (<[1 := translate_entry 0 1 1 0 0]> (<[0 := identity_entry 2]> ∅)).

(** two identity entries that are not the same entry *)
Definition two_identities : gmap nat CoglMatrixEntry :=
  <[5 := identity_entry 1]> (<[0 := identity_entry 1]> ∅).

(** [scale (0, 0, 0)] on a new stack *)
Definition zero_scale : gmap nat CoglMatrixEntry :=
  <[1 := scale_entry 0 0 0 0]> (<[0 := identity_entry 2]> ∅).

(** mutations issued between a [push ()] and the matching [pop ()] *)
Definition some_mutations : list (@mutation exact_float exact_graphene) :=
  [Translate (q 1) (q 0) (q 0); LoadIdentity;
   Set_ translate_scale_matrix; Scale (q 2) (q 2) (q 2)].

Definition some_appending : list (@mutation exact_float exact_graphene) :=
  [Translate (q 5) (q 0) (q 0); Scale (q 3) (q 3) (q 3)].

End Examples.

(** * Properties *)

Section Ownership.
Context `{G : Graphene}.
#[local] Abbreviation memory := (gmap nat CoglMatrixEntry).

Lemma chunk_alloc_fresh (mem : memory) :
  mem !! _cogl_magazine_chunk_alloc mem = None.
Proof.
  unfold _cogl_magazine_chunk_alloc.
  apply not_elem_of_dom, is_fresh.
Qed.

Lemma push_operation_eq (mem : memory) stack operation :
  _cogl_matrix_stack_push_operation mem stack operation =
  Some (<[_cogl_magazine_chunk_alloc mem :=
            {| parent := last_entry stack; ref_count := 1;
               full := operation |}]> mem,
        {| last_entry := Some (_cogl_magazine_chunk_alloc mem) |}).
Proof.
  unfold _cogl_matrix_stack_push_operation, _cogl_matrix_entry_new,
    _cogl_matrix_stack_push_entry.
  rewrite lookup_insert_eq. simpl. by rewrite insert_insert_eq.
Qed.

Lemma chain_insert_fresh (mem : memory) entry l p x :
  mem !! p = None -> chain mem entry l -> chain (<[p := x]> mem) entry l.
Proof.
  intros Hp. revert entry. induction l as [|[q e] l IH]; intros entry; simpl.
  - done.
  - intros (-> & Hq & Hl). split; [done|]. split; [|by apply IH].
    rewrite lookup_insert_ne; [done|]. intros ->. congruence.
Qed.


Lemma chain_unique (mem : memory) entry l1 l2 :
  chain mem entry l1 -> chain mem entry l2 -> l1 = l2.
Proof.
  revert entry l2. induction l1 as [|[p e] l1 IH]; intros entry [|[q e'] l2]; simpl.
  - done.
  - intros -> (? & _); discriminate.
  - intros (-> & _) ?; discriminate.
  - intros (-> & Hp & H1) ([= <-] & Hq & H2).
    assert (e = e') as <- by congruence. f_equal. by eapply IH.
Qed.

Lemma chain_start_eq (mem : memory) entry l :
  chain mem entry l -> entry = chain_start l.
Proof. destruct l as [|[p e] l]; simpl; [done|]. by intros (-> & _). Qed.

Lemma chain_app_inv (mem : memory) entry l1 l2 :
  chain mem entry (l1 ++ l2) -> chain mem (chain_start l2) l2.
Proof.
  revert entry. induction l1 as [|[p e] l1 IH]; intros entry; simpl.
  - intros H0. by rewrite <- (chain_start_eq _ _ _ H0).
  - intros (_ & _ & H0). by eapply IH.
Qed.

Lemma chain_NoDup (mem : memory) entry l :
  chain mem entry l -> NoDup l.*1.
Proof.
  revert entry. induction l as [|[p e] l IH]; intros entry; simpl.
  - constructor.
  - intros (-> & Hp & Hl). constructor; [|by eapply IH].
    intros Hin. apply list_elem_of_fmap in Hin as ([q e'] & -> & Hin).
    apply list_elem_of_split in Hin as (l1 & l2 & ->). simpl in *.
    pose proof (chain_app_inv _ _ _ _ Hl) as Hsuf. simpl in Hsuf.
    destruct Hsuf as (_ & Hq & Hsuf).
    assert (e' = e) as -> by congruence.
    pose proof (chain_unique _ _ _ _ Hl Hsuf) as Heq.
    apply (f_equal length) in Heq. rewrite length_app in Heq. simpl in Heq. lia.
Qed.

Lemma chain_delete (mem : memory) entry l p :
  p ∉ l.*1 -> chain mem entry l -> chain (delete p mem) entry l.
Proof.
  revert entry. induction l as [|[q e] l IH]; intros entry Hp; simpl; [done|].
  simpl in Hp. apply not_elem_of_cons in Hp as [Hne Hp].
  intros (-> & Hq & Hl). split; [done|]. split; [|by apply IH].
  by rewrite lookup_delete_ne.
Qed.

Lemma chain_insert_other (mem : memory) entry l p x :
  p ∉ l.*1 -> chain mem entry l -> chain (<[p := x]> mem) entry l.
Proof.
  revert entry. induction l as [|[q e] l IH]; intros entry Hp; simpl; [done|].
  simpl in Hp. apply not_elem_of_cons in Hp as [Hne Hp].
  intros (-> & Hq & Hl). split; [done|]. split; [|by apply IH].
  by rewrite lookup_insert_ne.
Qed.

Lemma lookup_release_all l (mem : memory) p :
  release_all l mem !! p = if decide (p ∈ l.*1) then None else mem !! p.
Proof.
  induction l as [|[q e] l IH]; simpl.
  - done.
  - destruct (decide (q = p)) as [->|Hne].
    + rewrite lookup_delete_eq. rewrite decide_True; [done|]. apply list_elem_of_here.
    + rewrite lookup_delete_ne by done. rewrite IH.
      destruct (decide (p ∈ l.*1)) as [Hin|Hin].
      * rewrite decide_True; [done|]. by apply list_elem_of_further.
      * rewrite decide_False; [done|]. intros [?|?]%elem_of_cons; simpl in *; by simplify_eq.
Qed.

Lemma release_all_delete l (mem : memory) p :
  release_all l (delete p mem) = delete p (release_all l mem).
Proof.
  apply map_eq. intros q. rewrite lookup_release_all.
  destruct (decide (p = q)) as [->|Hne].
  - rewrite !lookup_delete_eq. by case_decide.
  - rewrite !lookup_delete_ne by done. by rewrite lookup_release_all.
Qed.

(** the cascade of [cogl_matrix_entry_unref] through entries that have a
    single owner *)
Lemma unref_cascade l : forall fuel (mem : memory) entry rest,
  chain mem entry (l ++ rest) ->
  Forall (fun pe => ref_count pe.2 = 1%Z) l ->
  length l <= fuel ->
  cogl_matrix_entry_unref fuel mem entry =
  cogl_matrix_entry_unref (fuel - length l) (release_all l mem)
    (chain_start rest).
Proof.
  induction l as [|[p e] l IH]; intros fuel mem entry rest Hchain Hrc Hfuel.
  - simpl in *. rewrite Nat.sub_0_r. by rewrite (chain_start_eq _ _ _ Hchain).
  - pose proof (chain_NoDup _ _ _ Hchain) as Hnd.
    simpl in Hchain. destruct Hchain as (-> & Hp & Hchain).
    apply Forall_cons in Hrc as [Hrc1 Hrc]. simpl in Hrc1.
    destruct fuel as [|fuel]; simpl in Hfuel; [lia|].
    simpl. rewrite Hp, Hrc1. simpl.
    simpl in Hnd. apply NoDup_cons in Hnd as [Hnotin _].
    unfold _cogl_magazine_chunk_free.
    rewrite (IH fuel (delete p mem) (parent e) rest); [| |done|lia].
    + by rewrite release_all_delete.
    + by apply chain_delete.
Qed.

Lemma unref_stop fuel (mem : memory) p e :
  mem !! p = Some e -> (1 < ref_count e)%Z ->
  cogl_matrix_entry_unref fuel mem (Some p) =
  Some (<[p := with_ref_count e (ref_count e - 1)]> mem).
Proof.
  intros Hp Hrc. destruct fuel; simpl; rewrite Hp;
  (destruct (INT_MIN <? ref_count e)%Z eqn:E1;
    [|apply Z.ltb_ge in E1; unfold INT_MIN in E1; lia]);
  (destruct (ref_count e - 1 <=? 0)%Z eqn:E2;
    [apply Z.leb_le in E2; lia|]); done.
Qed.

Lemma unref_null fuel (mem : memory) :
  cogl_matrix_entry_unref fuel mem None = Some mem.
Proof. by destruct fuel. Qed.


Lemma with_ref_count_id e : with_ref_count e (ref_count e) = e.
Proof. by destruct e. Qed.

Lemma chain_update (mem : memory) entry l1 p e e' l2 :
  parent e' = parent e ->
  chain mem entry (l1 ++ (p, e) :: l2) ->
  chain (<[p := e']> mem) entry (l1 ++ (p, e') :: l2).
Proof.
  intros Hpar Hchain. pose proof (chain_NoDup _ _ _ Hchain) as Hnd.
  revert entry Hchain Hnd. induction l1 as [|[q x] l1 IH]; intros entry; simpl.
  - intros (-> & Hp & Hl) [Hnotin _]%NoDup_cons. split; [done|].
    rewrite lookup_insert_eq. split; [done|]. rewrite Hpar.
    by apply chain_insert_other.
  - intros (-> & Hq & Hl) [Hnotin Hnd]%NoDup_cons. split; [done|].
    split; [|by apply IH].
    rewrite lookup_insert_ne; [done|]. intros ->. apply Hnotin.
    rewrite fmap_app. apply elem_of_app. right. simpl. apply list_elem_of_here.
Qed.

Lemma ref_chain_start (mem : memory) entry l :
  chain mem entry l ->
  match l with
  | [] => True
  | (_, e) :: _ => (ref_count e < INT_MAX)%Z
  end ->
  cogl_matrix_entry_ref mem (chain_start l) = Some (retain l mem).
Proof.
  destruct l as [|[p e] l]; simpl; [done|].
  intros (_ & -> & _) Hlt. apply Z.ltb_lt in Hlt. by rewrite Hlt.
Qed.

Lemma chain_retain (mem : memory) entry l1 l2 :
  chain mem entry (l1 ++ l2) ->
  chain (retain l2 mem) entry (l1 ++ retained l2).
Proof.
  destruct l2 as [|[p e] l2]; simpl; [done|].
  by apply chain_update.
Qed.

Lemma ref_then_unref fuel (mem : memory) entry freed kept rest :
  chain mem entry (freed ++ kept ++ rest) ->
  Forall (fun pe => ref_count pe.2 = 1%Z) freed ->
  match kept with
  | [] => True
  | (_, e) :: _ => (1 < ref_count e)%Z
  end ->
  match rest with
  | [] => True
  | (_, e) :: _ => (0 < ref_count e < INT_MAX)%Z
  end ->
  length freed <= fuel ->
  cogl_matrix_entry_ref mem (chain_start rest) = Some (retain rest mem)
  /\ cogl_matrix_entry_unref fuel (retain rest mem) entry =
     Some (released freed kept rest mem).
Proof.
  intros Hchain Hfreed Hkept Hrest Hfuel.
  pose proof (chain_NoDup _ _ _ Hchain) as Hnd.
  split.
  { eapply ref_chain_start.
    - rewrite app_assoc in Hchain. by eapply chain_app_inv.
    - destruct rest as [|[? ?] ?]; [done|lia]. }
  assert (chain (retain rest mem) entry (freed ++ kept ++ retained rest))
    as Hchain1.
  { rewrite app_assoc in Hchain |- *. by apply chain_retain. }
  rewrite (unref_cascade freed fuel _ entry (kept ++ retained rest))
    by done.
  unfold released. destruct kept as [|[k ek] kept].
  - simpl. destruct rest as [|[nt ent] rest]; simpl.
    + apply unref_null.
    + simpl in Hchain1, Hnd.
      rewrite fmap_app in Hnd. apply NoDup_app in Hnd as (_ & Hdis & _).
      assert (nt ∉ freed.*1) as Hnt.
      { intros Hin. apply (Hdis _ Hin). simpl. apply list_elem_of_here. }
      rewrite unref_stop with (e := with_ref_count ent (ref_count ent + 1)).
      * f_equal. apply map_eq. intros q.
        destruct (decide (q = nt)) as [->|Hne].
        -- rewrite lookup_insert_eq, lookup_release_all.
           rewrite decide_False by done.
           apply chain_app_inv in Hchain. simpl in Hchain.
           destruct Hchain as (_ & -> & _). f_equal.
           unfold with_ref_count. simpl. destruct ent; simpl; f_equal; lia.
        -- rewrite lookup_insert_ne by done. rewrite !lookup_release_all.
           case_decide; [done|]. by rewrite lookup_insert_ne.
      * rewrite lookup_release_all, decide_False by done.
        apply lookup_insert_eq.
      * simpl. lia.
  - simpl. apply unref_stop; [|done].
    rewrite lookup_release_all.
    apply chain_app_inv in Hchain1 as Hk. simpl in Hk.
    destruct Hk as (_ & Hk & _).
    rewrite fmap_app in Hnd. apply NoDup_app in Hnd as (_ & Hdis & _).
    rewrite decide_False; [done|].
    intros Hin. apply (Hdis _ Hin). simpl. apply list_elem_of_here.
Qed.


Lemma pop_find_save_spec fuel (mem : memory) entry above s save below :
  chain mem entry (above ++ (s, save) :: below) ->
  Forall (fun pe => is_save pe.2 = false) above ->
  is_save save = true ->
  length above <= fuel ->
  exists old_top, entry = Some old_top
    /\ pop_find_save fuel mem old_top = Some (s, save).
Proof.
  revert fuel entry. induction above as [|[p e] above IH];
    intros fuel entry Hchain Hns Hsave Hfuel; simpl in Hchain.
  - destruct Hchain as (-> & Hs & _). exists s. split; [done|].
    destruct fuel; simpl; by rewrite Hs, Hsave.
  - destruct Hchain as (-> & Hp & Hchain).
    apply Forall_cons in Hns as [Hns1 Hns]. simpl in Hns1.
    destruct fuel as [|fuel]; simpl in Hfuel; [lia|].
    destruct (IH fuel (parent e)) as (up & Hup & Hfind); [done..|lia|].
    exists p. split; [done|]. simpl. by rewrite Hp, Hns1, Hup.
Qed.

Lemma replacement_new_top_spec fuel (mem : memory) entry above nt ent below :
  chain mem entry (above ++ (nt, ent) :: below) ->
  Forall (fun pe => is_save pe.2 = false) above ->
  is_save ent = true \/ below = [] ->
  length above <= fuel ->
  exists old_top, entry = Some old_top
    /\ replacement_new_top fuel mem old_top = Some nt.
Proof.
  revert fuel entry. induction above as [|[p e] above IH];
    intros fuel entry Hchain Hns Hstop Hfuel; simpl in Hchain.
  - destruct Hchain as (-> & Hs & Hbelow). exists nt. split; [done|].
    destruct Hstop as [Hsave| ->].
    + destruct fuel; simpl; by rewrite Hs, Hsave.
    + simpl in Hbelow. destruct fuel; simpl; rewrite Hs, Hbelow;
        by destruct (is_save ent).
  - destruct Hchain as (-> & Hp & Hchain).
    apply Forall_cons in Hns as [Hns1 Hns]. simpl in Hns1.
    destruct fuel as [|fuel]; simpl in Hfuel; [lia|].
    destruct (IH fuel (parent e)) as (up & Hup & Hfind); [done..|lia|].
    exists p. split; [done|]. simpl. by rewrite Hp, Hns1, Hup.
Qed.

Lemma lookup_released_freed freed kept rest (mem : memory) entry p :
  chain mem entry (freed ++ kept ++ rest) ->
  p ∈ freed.*1 -> released freed kept rest mem !! p = None.
Proof.
  intros Hchain Hp. pose proof (chain_NoDup _ _ _ Hchain) as Hnd.
  unfold released. destruct kept as [|[k ek] kept].
  - rewrite lookup_release_all. by rewrite decide_True.
  - rewrite fmap_app in Hnd. apply NoDup_app in Hnd as (_ & Hdis & _).
    rewrite lookup_insert_ne.
    + rewrite lookup_release_all. by rewrite decide_True.
    + intros ->. apply (Hdis _ Hp). simpl. apply list_elem_of_here.
Qed.

Lemma lookup_released_sole freed rest (mem : memory) p :
  p ∉ freed.*1 -> released freed [] rest mem !! p = mem !! p.
Proof.
  intros Hp. unfold released. rewrite lookup_release_all.
  by rewrite decide_False.
Qed.

Lemma lookup_released_other freed kept rest (mem : memory) p :
  p ∉ freed.*1 -> chain_start kept <> Some p -> chain_start rest <> Some p ->
  released freed kept rest mem !! p = mem !! p.
Proof.
  intros Hp Hk Hr. unfold released. destruct kept as [|[k ek] kept].
  - rewrite lookup_release_all. by rewrite decide_False.
  - simpl in Hk. rewrite lookup_insert_ne by congruence.
    rewrite lookup_release_all, decide_False by done.
    destruct rest as [|[nt ent] rest]; simpl; [done|].
    simpl in Hr. rewrite lookup_insert_ne; [done|congruence].
Qed.

Lemma lookup_released_kept freed k ek kept rest (mem : memory) entry :
  chain mem entry (freed ++ ((k, ek) :: kept) ++ rest) ->
  released freed ((k, ek) :: kept) rest mem !! k =
    Some (with_ref_count ek (ref_count ek - 1))
  /\ (forall p e, (p, e) ∈ kept ->
        released freed ((k, ek) :: kept) rest mem !! p = Some e)
  /\ (forall nt ent rest', rest = (nt, ent) :: rest' ->
        released freed ((k, ek) :: kept) rest mem !! nt =
          Some (with_ref_count ent (ref_count ent + 1))).
Proof.
  intros Hchain. pose proof (chain_NoDup _ _ _ Hchain) as Hnd.
  rewrite fmap_app in Hnd. apply NoDup_app in Hnd as (_ & Hdis & Hnd).
  simpl in Hnd. apply NoDup_cons in Hnd as [Hk Hnd].
  rewrite fmap_app in Hk, Hnd.
  apply NoDup_app in Hnd as (_ & Hdis2 & _).
  unfold released. split; [apply lookup_insert_eq|].
  apply chain_app_inv in Hchain as Hkept. simpl in Hkept.
  destruct Hkept as (_ & _ & Hkept).
  split.
  - intros p e Hin.
    assert (p ∈ kept.*1) as Hin1.
    { apply list_elem_of_fmap. by exists (p, e). }
    rewrite lookup_insert_ne.
    2:{ intros ->. apply Hk, elem_of_app. by left. }
    rewrite lookup_release_all, decide_False.
    2:{ intros Hf. apply (Hdis _ Hf). simpl. apply list_elem_of_further.
        rewrite fmap_app. apply elem_of_app. by left. }
    assert (retain rest mem !! p = mem !! p) as ->.
    { destruct rest as [|[nt ent] rest]; simpl; [done|].
      rewrite lookup_insert_ne; [done|]. intros ->.
      apply (Hdis2 _ Hin1). simpl. apply list_elem_of_here. }
    apply list_elem_of_split in Hin as (l1 & l2 & ->).
    rewrite <- app_assoc in Hkept. apply chain_app_inv in Hkept.
    simpl in Hkept. tauto.
  - intros nt ent rest' ->.
    rewrite lookup_insert_ne.
    2:{ intros ->. apply Hk, elem_of_app. right. simpl. apply list_elem_of_here. }
    rewrite lookup_release_all, decide_False.
    2:{ intros Hf. apply (Hdis _ Hf). simpl. apply list_elem_of_further.
        rewrite fmap_app. apply elem_of_app. right. simpl. apply list_elem_of_here. }
    simpl. apply lookup_insert_eq.
Qed.


Lemma stack_eta (stack : CoglMatrixStack) :
  {| last_entry := last_entry stack |} = stack.
Proof. by destruct stack. Qed.

Lemma pop_spec fuel (mem : memory) stack
    above s save below freed kept :
  chain mem (last_entry stack) (above ++ (s, save) :: below) ->
  Forall (fun pe => is_save pe.2 = false) above ->
  is_save save = true ->
  above ++ [(s, save)] = freed ++ kept ->
  Forall (fun pe => ref_count pe.2 = 1%Z) freed ->
  match kept with [] => True | (_, e) :: _ => (1 < ref_count e)%Z end ->
  match below with
  | [] => True
  | (_, e) :: _ => (0 < ref_count e < INT_MAX)%Z
  end ->
  length above < fuel ->
  exists mem',
    cogl_matrix_stack_pop fuel mem stack =
      Some (mem', {| last_entry := parent save |})
    /\ (forall p, p ∈ freed.*1 -> mem' !! p = None)
    /\ (kept = [] -> forall p, p ∉ freed.*1 -> mem' !! p = mem !! p)
    /\ (forall k ek kept', kept = (k, ek) :: kept' ->
          mem' !! k = Some (with_ref_count ek (ref_count ek - 1))
          /\ (forall nt ent below', below = (nt, ent) :: below' ->
                mem' !! nt = Some (with_ref_count ent (ref_count ent + 1)))
          /\ (forall p, p ∉ freed.*1 -> p <> k -> parent save <> Some p ->
                mem' !! p = mem !! p)).
Proof.
  intros Hchain Hns Hsave Hsplit Hfreed Hkept Hbelow Hfuel.
  destruct (pop_find_save_spec fuel mem _ _ _ _ _ Hchain Hns Hsave)
    as (old_top & Htop & Hfind); [lia|].
  assert (chain mem (last_entry stack) (freed ++ kept ++ below)) as Hchain'.
  { rewrite app_assoc, <- Hsplit, <- app_assoc. done. }
  assert (parent save = chain_start below) as Hnew.
  { apply chain_app_inv in Hchain. simpl in Hchain.
    destruct Hchain as (_ & _ & Hb). by eapply chain_start_eq. }
  assert (length freed <= fuel) as Hlen.
  { apply (f_equal length) in Hsplit. rewrite !length_app in Hsplit.
    simpl in Hsplit. lia. }
  destruct (ref_then_unref fuel mem _ freed kept below Hchain' Hfreed Hkept
              Hbelow Hlen) as [Href Hunref].
  exists (released freed kept below mem). split; [|split; [|split]].
  - unfold cogl_matrix_stack_pop. rewrite Htop, Hfind, Hnew, Href.
    rewrite Htop in Hunref. by rewrite Hunref.
  - intros p Hp. by eapply lookup_released_freed.
  - intros -> p Hp. by apply lookup_released_sole.
  - intros k ek kept' ->.
    destruct (lookup_released_kept _ _ _ _ _ _ _ Hchain') as (Hk & _ & Hnt).
    split; [done|]. split.
    + intros nt ent below' ->. by eapply Hnt.
    + intros p Hp Hpk Hpn. apply lookup_released_other; [done|..].
      * simpl. congruence.
      * congruence.
Qed.

(** C5.  On a stack whose chain holds a save entry, [pop ()] moves the
    top to the parent of the nearest save entry and drops the reference
    of the stack to the old top: the removed entries that had the stack
    as their single owner go back to the allocator, the first one with
    another owner loses one reference, and no other entry changes,
    apart from the reference the stack now holds on its new top. *)
Theorem pop_releases_through_save fuel (mem : memory) stack
    above s save below freed kept :
  chain mem (last_entry stack) (above ++ (s, save) :: below) ->
  Forall (fun pe => is_save pe.2 = false) above ->
  is_save save = true ->
  above ++ [(s, save)] = freed ++ kept ->
  Forall (fun pe => ref_count pe.2 = 1%Z) freed ->
  match kept with [] => True | (_, e) :: _ => (1 < ref_count e)%Z end ->
  match below with
  | [] => True
  | (_, e) :: _ => (0 < ref_count e < INT_MAX)%Z
  end ->
  length above < fuel ->
  exists mem',
    cogl_matrix_stack_pop fuel mem stack =
      Some (mem', {| last_entry := parent save |})
    /\ (forall p, p ∈ freed.*1 -> mem' !! p = None)
    /\ (kept = [] -> forall p, p ∉ freed.*1 -> mem' !! p = mem !! p)
    /\ (forall k ek kept', kept = (k, ek) :: kept' ->
          mem' !! k = Some (with_ref_count ek (ref_count ek - 1))
          /\ (forall nt ent below', below = (nt, ent) :: below' ->
                mem' !! nt = Some (with_ref_count ent (ref_count ent + 1)))
          /\ (forall p, p ∉ freed.*1 -> p <> k -> parent save <> Some p ->
                mem' !! p = mem !! p)).
Proof. by apply pop_spec. Qed.

Lemma replacement_spec fuel (mem : memory) stack
    freed kept nt ent below m :
  appending m = false ->
  chain mem (last_entry stack) (freed ++ kept ++ (nt, ent) :: below) ->
  Forall (fun pe => is_save pe.2 = false) (freed ++ kept) ->
  is_save ent = true \/ below = [] ->
  Forall (fun pe => ref_count pe.2 = 1%Z) freed ->
  match kept with [] => True | (_, e) :: _ => (1 < ref_count e)%Z end ->
  (0 < ref_count ent < INT_MAX)%Z ->
  length (freed ++ kept) <= fuel ->
  exists mem1 entry,
    (forall p, p ∈ freed.*1 -> mem1 !! p = None)
    /\ (kept = [] -> forall p, p ∉ freed.*1 -> mem1 !! p = mem !! p)
    /\ (forall k ek kept', kept = (k, ek) :: kept' ->
          mem1 !! k = Some (with_ref_count ek (ref_count ek - 1))
          /\ mem1 !! nt = Some (with_ref_count ent (ref_count ent + 1))
          /\ (forall p, p ∉ freed.*1 -> p <> k -> p <> nt ->
                mem1 !! p = mem !! p))
    /\ mem1 !! entry = None
    /\ mutate fuel mem stack m =
         Some (<[entry := {| parent := Some nt; ref_count := 1;
                             full := mutation_entry m |}]> mem1,
               {| last_entry := Some entry |}).
Proof.
  intros Hm Hchain Hns Hstop Hfreed Hkept Hent Hfuel.
  rewrite app_assoc in Hchain.
  destruct (replacement_new_top_spec fuel mem _ _ _ _ _ Hchain Hns Hstop Hfuel)
    as (old_top & Htop & Hfind).
  rewrite <- app_assoc in Hchain.
  assert (length freed <= fuel) as Hlen by (rewrite length_app in Hfuel; lia).
  destruct (ref_then_unref fuel mem _ freed kept ((nt, ent) :: below)
              Hchain Hfreed Hkept Hent Hlen) as [Href Hunref].
  exists (released freed kept ((nt, ent) :: below) mem),
    (_cogl_magazine_chunk_alloc
       (released freed kept ((nt, ent) :: below) mem)).
  split; [|split; [|split; [|split]]].
  - intros p Hp. by eapply lookup_released_freed.
  - intros -> p Hp. by apply lookup_released_sole.
  - intros k ek kept' ->.
    destruct (lookup_released_kept _ _ _ _ _ _ _ Hchain) as (Hk & _ & Hnt).
    split; [done|]. split; [by eapply Hnt|].
    intros p Hp Hpk Hpn. apply lookup_released_other; [done|..];
      simpl; congruence.
  - apply chunk_alloc_fresh.
  - assert (mutate fuel mem stack m =
            _cogl_matrix_stack_push_replacement_entry fuel mem stack
              (mutation_entry m)) as ->.
    { by destruct m. }
    unfold _cogl_matrix_stack_push_replacement_entry.
    rewrite Htop, Hfind.
    change (chain_start ((nt, ent) :: below)) with (Some nt) in Href.
    rewrite Href.
    rewrite Htop in Hunref. rewrite Hunref.
    apply push_operation_eq.
Qed.

(** C6.  [load_identity ()] and [set (matrix)] first move the top back
    to the nearest save entry, or to the root when there is none,
    releasing the entries above it, which go back to the allocator when
    they have no other owner, and then push the new entry on that save
    entry or root. *)
Theorem replacement_prunes_to_save fuel (mem : memory) stack
    freed kept nt ent below m :
  appending m = false ->
  chain mem (last_entry stack) (freed ++ kept ++ (nt, ent) :: below) ->
  Forall (fun pe => is_save pe.2 = false) (freed ++ kept) ->
  is_save ent = true \/ below = [] ->
  Forall (fun pe => ref_count pe.2 = 1%Z) freed ->
  match kept with [] => True | (_, e) :: _ => (1 < ref_count e)%Z end ->
  (0 < ref_count ent < INT_MAX)%Z ->
  length (freed ++ kept) <= fuel ->
  exists mem1 entry,
    (forall p, p ∈ freed.*1 -> mem1 !! p = None)
    /\ (kept = [] -> forall p, p ∉ freed.*1 -> mem1 !! p = mem !! p)
    /\ (forall k ek kept', kept = (k, ek) :: kept' ->
          mem1 !! k = Some (with_ref_count ek (ref_count ek - 1))
          /\ mem1 !! nt = Some (with_ref_count ent (ref_count ent + 1))
          /\ (forall p, p ∉ freed.*1 -> p <> k -> p <> nt ->
                mem1 !! p = mem !! p))
    /\ mem1 !! entry = None
    /\ mutate fuel mem stack m =
         Some (<[entry := {| parent := Some nt; ref_count := 1;
                             full := mutation_entry m |}]> mem1,
               {| last_entry := Some entry |}).
Proof. by apply replacement_spec. Qed.

Lemma mutate_appending fuel (mem : memory) stack m :
  appending m = true ->
  mutate fuel mem stack m =
  Some (<[_cogl_magazine_chunk_alloc mem :=
            {| parent := last_entry stack; ref_count := 1;
               full := mutation_entry m |}]> mem,
        {| last_entry := Some (_cogl_magazine_chunk_alloc mem) |}).
Proof.
  destruct m; simpl; try discriminate; intros _;
    apply push_operation_eq.
Qed.

(** C9.  Translate, rotate, rotate-euler, scale and multiply push one
    new entry each, whose parent is the top they found, and leave every
    entry that was there as it was: a chain that another stack follows
    from any entry is the same chain afterwards. *)
Theorem appending_operations_frame fuel (mem : memory) stack ms :
  Forall (fun m => appending m = true) ms ->
  exists mem' stack',
    mutate_all fuel mem stack ms = Some (mem', stack')
    /\ (forall p e, mem !! p = Some e -> mem' !! p = Some e)
    /\ (forall other l, chain mem other l -> chain mem' other l)
    /\ size mem' = size mem + length ms
    /\ (forall m, ms = [m] ->
        exists entry,
          mem !! entry = None
          /\ mem' = <[entry := {| parent := last_entry stack; ref_count := 1;
                                 full := mutation_entry m |}]> mem
          /\ stack' = {| last_entry := Some entry |}).
Proof.
  intros Hall. revert mem stack.
  induction Hall as [|m ms Hm _ IH]; intros mem stack.
  - exists mem, stack. simpl. repeat split; auto; try lia. discriminate.
  - simpl. rewrite (mutate_appending _ _ _ _ Hm).
    pose proof (chunk_alloc_fresh mem) as Hfresh.
    set (entry := _cogl_magazine_chunk_alloc mem) in *.
    destruct (IH (<[entry := {| parent := last_entry stack; ref_count := 1;
                                full := mutation_entry m |}]> mem)
                 {| last_entry := Some entry |})
      as (mem' & stack' & Hrun & Hkeep & Hchain & Hsize & _).
    exists mem', stack'. split; [done|]. split; [|split; [|split]].
    + intros p e Hp. apply Hkeep. rewrite lookup_insert_ne; [done|].
      intros <-. congruence.
    + intros other l Hl. by apply Hchain, chain_insert_fresh.
    + rewrite Hsize, map_size_insert_None by done. lia.
    + intros m' [= -> ->]. simpl in Hrun. injection Hrun as <- <-.
      by exists entry.
Qed.

Lemma chain_ext (m1 m2 : memory) entry l :
  (forall p, p ∈ l.*1 -> m2 !! p = m1 !! p) ->
  chain m1 entry l -> chain m2 entry l.
Proof.
  revert entry. induction l as [|[q e] l IH]; intros entry Hagree; simpl; [done|].
  intros (-> & Hq & Hl). split; [done|]. split.
  - rewrite Hagree; [done|]. simpl. apply list_elem_of_here.
  - apply IH; [|done]. intros p Hp. apply Hagree. simpl.
    by apply list_elem_of_further.
Qed.

Lemma chain_lookup (mem : memory) entry l p e :
  chain mem entry l -> (p, e) ∈ l -> mem !! p = Some e.
Proof.
  intros Hchain (l1 & l2 & ->)%list_elem_of_split.
  apply chain_app_inv in Hchain. simpl in Hchain. tauto.
Qed.

Lemma chain_lookup_fst (mem : memory) entry l p :
  chain mem entry l -> p ∈ l.*1 -> is_Some (mem !! p).
Proof.
  intros Hchain ([q e] & -> & Hin)%list_elem_of_fmap.
  exists e. by eapply chain_lookup.
Qed.

Lemma Forall_and_l {A} (P Q : A -> Prop) l :
  Forall (fun x => P x /\ Q x) l -> Forall P l.
Proof. intros Hl. eapply Forall_impl; [exact Hl|]. simpl. tauto. Qed.

Lemma Forall_and_r {A} (P Q : A -> Prop) l :
  Forall (fun x => P x /\ Q x) l -> Forall Q l.
Proof. intros Hl. eapply Forall_impl; [exact Hl|]. simpl. tauto. Qed.

Lemma mutation_entry_not_save m :
  is_save {| parent := None; ref_count := 0; full := mutation_entry m |} = false.
Proof. by destruct m. Qed.

Lemma mutate_pushed_above fuel base s save under above (mem : memory) stack m :
  ref_count save = 1%Z -> is_save save = true ->
  pushed_above base s save under above mem stack ->
  length above <= fuel ->
  exists above' mem' stack',
    mutate fuel mem stack m = Some (mem', stack')
    /\ pushed_above base s save under above' mem' stack'
    /\ length above' <= S (length above).
Proof.
  intros Hrc Hsave (Hchain & Hall & Hfresh & Hsame) Hfuel.
  destruct (appending m) eqn:Hm.
  - rewrite (mutate_appending _ _ _ _ Hm).
    pose proof (chunk_alloc_fresh mem) as Hnew.
    set (new := _cogl_magazine_chunk_alloc mem) in *.
    set (e := {| parent := last_entry stack; ref_count := 1;
                 full := mutation_entry m |}).
    assert (new ∉ above.*1) as Hnotin.
    { intros Hin.
      assert (new ∈ (above ++ (s, save) :: under).*1) as Hin'.
      { rewrite fmap_app. apply elem_of_app. by left. }
      destruct (chain_lookup_fst _ _ _ _ Hchain Hin') as [x Hx]. congruence. }
    exists ((new, e) :: above), (<[new := e]> mem), {| last_entry := Some new |}.
    split; [done|]. split; [|simpl; lia].
    split; [|split; [|split]].
    + simpl. split; [done|]. rewrite lookup_insert_eq. split; [done|].
      by apply chain_insert_fresh.
    + constructor; [|exact Hall]. split; [done|]. simpl. by destruct m.
    + intros q [->|Hq]%elem_of_cons; [|by apply Hfresh].
      rewrite <- Hsame by done. done.
    + intros q Hq. simpl in Hq. apply not_elem_of_cons in Hq as [Hne Hq].
      rewrite lookup_insert_ne by done. by apply Hsame.
  - destruct (replacement_spec fuel mem stack above [] s save under m)
      as (mem1 & entry & Hgone & Hkeep & _ & Hentry & Hrun).
    + done.
    + by rewrite app_nil_l.
    + rewrite app_nil_r. exact (Forall_and_r _ _ _ Hall).
    + by left.
    + exact (Forall_and_l _ _ _ Hall).
    + done.
    + rewrite Hrc. unfold INT_MAX. lia.
    + by rewrite app_nil_r.
    + specialize (Hkeep eq_refl).
      set (e := {| parent := Some s; ref_count := 1; full := mutation_entry m |}) in *.
      exists [(entry, e)], (<[entry := e]> mem1), {| last_entry := Some entry |}.
      split; [done|]. split; [|simpl; lia].
      pose proof (chain_NoDup _ _ _ Hchain) as Hnd.
      rewrite fmap_app in Hnd. apply NoDup_app in Hnd as (_ & Hdis & _).
      split; [|split; [|split]].
      * simpl. split; [done|]. rewrite lookup_insert_eq. split; [done|].
        apply (chain_insert_fresh mem1 (Some s) ((s, save) :: under)); [done|].
        apply chain_app_inv in Hchain.
        eapply chain_ext; [|exact Hchain].
        intros p Hp. apply Hkeep. intros Hin. by apply (Hdis _ Hin).
      * constructor; [|done]. split; [done|]. by destruct m.
      * intros q ->%list_elem_of_singleton.
        destruct (decide (entry ∈ above.*1)) as [Hin|Hnotin].
        -- by apply Hfresh.
        -- rewrite <- Hsame by done. by rewrite <- Hkeep.
      * intros q Hq%not_elem_of_cons. destruct Hq as [Hne _].
        rewrite lookup_insert_ne by done.
        destruct (decide (q ∈ above.*1)) as [Hin|Hnotin].
        -- rewrite Hgone by done. symmetry. by apply Hfresh.
        -- rewrite Hkeep by done. by apply Hsame.
Qed.

Lemma mutate_all_pushed_above fuel base s save under ms :
  ref_count save = 1%Z -> is_save save = true ->
  forall above (mem : memory) stack,
  pushed_above base s save under above mem stack ->
  length above + length ms <= S fuel ->
  exists above' mem' stack',
    mutate_all fuel mem stack ms = Some (mem', stack')
    /\ pushed_above base s save under above' mem' stack'
    /\ length above' <= length above + length ms.
Proof.
  intros Hrc Hsave. induction ms as [|m ms IH]; intros above mem stack Hinv Hfuel.
  - exists above, mem, stack. simpl. split; [done|]. split; [done|lia].
  - simpl in Hfuel.
    destruct (mutate_pushed_above fuel base s save under above mem stack m)
      as (above1 & mem1 & stack1 & Hrun & Hinv1 & Hlen1); [done..|lia|].
    destruct (IH above1 mem1 stack1 Hinv1) as (above2 & mem2 & stack2 & Hrun2 & Hinv2 & Hlen2);
      [lia|].
    exists above2, mem2, stack2. simpl. rewrite Hrun. split; [done|].
    split; [done|lia].
Qed.

Lemma push_mutate_pop_restores fuel (mem : memory) stack top e under ms :
  chain mem (last_entry stack) ((top, e) :: under) ->
  (0 < ref_count e < INT_MAX)%Z ->
  length ms < fuel ->
  push_mutate_pop fuel mem stack ms = Some (mem, stack).
Proof.
  intros Hchain Hrc Hfuel. unfold push_mutate_pop, cogl_matrix_stack_push.
  rewrite push_operation_eq.
  pose proof (chunk_alloc_fresh mem) as Hs.
  set (s := _cogl_magazine_chunk_alloc mem) in *.
  set (save := {| parent := last_entry stack; ref_count := 1;
                  full := EntrySave None false |}).
  assert (pushed_above mem s save ((top, e) :: under) []
            (<[s := save]> mem) {| last_entry := Some s |}) as Hinv.
  { split; [|split; [|split]].
    - simpl. split; [done|]. rewrite lookup_insert_eq. split; [done|].
      apply (chain_insert_fresh _ _ ((top, e) :: under)); done.
    - constructor.
    - intros q Hq. by apply elem_of_nil in Hq.
    - done. }
  destruct (mutate_all_pushed_above fuel mem s save ((top, e) :: under) ms
              eq_refl eq_refl [] _ _ Hinv)
    as (above & mem2 & stack2 & Hrun & (Hchain2 & Hall & Hfresh & Hsame) & Hlen);
    [simpl; lia|].
  rewrite Hrun. simpl in Hlen.
  destruct (pop_spec fuel mem2 stack2 above s save
              ((top, e) :: under) (above ++ [(s, save)]) [])
    as (mem3 & Hpop & Hgone & Hkeep & _).
  - done.
  - exact (Forall_and_r _ _ _ Hall).
  - done.
  - by rewrite app_nil_r.
  - apply Forall_app. split; [exact (Forall_and_l _ _ _ Hall)|].
    by constructor.
  - done.
  - done.
  - lia.
  - rewrite Hpop. f_equal. f_equal.
    + specialize (Hkeep eq_refl). apply map_eq. intros q.
      destruct (decide (q ∈ (above ++ [(s, save)]).*1)) as [Hin|Hnotin].
      * rewrite Hgone by done. symmetry.
        rewrite fmap_app in Hin. apply elem_of_app in Hin as [Hin|Hin].
        -- specialize (Hfresh _ Hin).
           destruct (decide (q = s)) as [->|Hne].
           ++ by rewrite lookup_insert_eq in Hfresh.
           ++ by rewrite lookup_insert_ne in Hfresh.
        -- simpl in Hin. apply list_elem_of_singleton in Hin as ->. done.
      * rewrite Hkeep by done.
        rewrite fmap_app in Hnotin. apply not_elem_of_app in Hnotin as [Hn1 Hn2].
        rewrite Hsame by done. rewrite lookup_insert_ne; [done|].
        intros <-. apply Hn2. simpl. apply list_elem_of_here.
    + simpl. apply stack_eta.
Qed.


End Ownership.

Section Evaluator.
Context `{G : Graphene}.
#[local] Abbreviation memory := (gmap nat CoglMatrixEntry).

Lemma get_loop_composite l : forall fuel (mem : memory) entry matrix depth,
  chain mem entry l -> evaluable l -> length l < fuel ->
  exists mem' current depth',
    cogl_matrix_entry_get_loop fuel mem entry matrix depth =
      Some (mem', composite matrix l, current, depth').
Proof.
  induction l as [|[p e] l IH]; intros fuel mem entry matrix depth Hchain Hev Hfuel.
  - simpl in Hchain. subst entry. destruct fuel; [simpl in Hfuel; lia|].
    simpl. eauto.
  - simpl in Hchain. destruct Hchain as (-> & Hp & Hchain).
    destruct fuel as [|fuel]; simpl in Hfuel; [lia|].
    assert (length l < fuel) as Hfuel' by lia.
    simpl. rewrite Hp. simpl in Hev. unfold apply_operation.
    destruct (full e) as [|t|a ax|eu|x y z|m|m|c v] eqn:Hfull;
      try (by apply IH); try (by eauto).
    destruct v.
    + destruct c as [c|]; [eauto|done].
    + assert (l <> [] /\ evaluable l) as [Hne Hev'] by (by destruct c).
      destruct l as [|[up eu] l]; [done|].
      simpl in Hchain. destruct Hchain as (Hup & Hchain).
      rewrite Hup.
      destruct (IH fuel mem (Some up) graphene_matrix_init_identity 0)
        as (mem1 & cur & d & Hrec); [by simpl|done|done|].
      rewrite Hrec. destruct c; eauto.
Qed.

Lemma composite_terminal matrix p e l :
  is_terminal e = true ->
  composite matrix ((p, e) :: l) =
  match full e with
  | EntryLoadIdentity => matrix
  | EntryLoad m => graphene_matrix_multiply matrix m
  | EntrySave (Some c) true => graphene_matrix_multiply matrix c
  | _ => graphene_matrix_multiply matrix
           (composite graphene_matrix_init_identity l)
  end.
Proof.
  unfold is_terminal. simpl. by destruct (full e) as [| | | | | | |[c|] []].
Qed.

Lemma composite_app matrix pre l :
  Forall (fun pe => is_terminal pe.2 = false) pre ->
  composite matrix (pre ++ l) =
  composite (foldl apply_operation matrix pre.*2) l.
Proof.
  revert matrix. induction pre as [|[p e] pre IH]; intros matrix Hpre; [done|].
  apply Forall_cons in Hpre as [He Hpre]. simpl in He |- *.
  rewrite <- IH by done. unfold is_terminal in He.
  by destruct (full e).
Qed.

Lemma get_loop_prefix pre : forall fuel (mem : memory) entry matrix depth t te rest,
  chain mem entry (pre ++ (t, te) :: rest) ->
  Forall (fun pe => is_terminal pe.2 = false) pre ->
  is_terminal te = true ->
  evaluable ((t, te) :: rest) ->
  length (pre ++ (t, te) :: rest) < fuel ->
  exists mem',
    cogl_matrix_entry_get_loop fuel mem entry matrix depth =
      Some (mem',
            composite (foldl apply_operation matrix pre.*2) ((t, te) :: rest),
            Some t, depth + length pre)
    /\ mem' !! t =
         Some (cache_filled te (composite graphene_matrix_init_identity rest))
    /\ (cache_filled te (composite graphene_matrix_init_identity rest) = te ->
        mem' = mem).
Proof.
  induction pre as [|[p e] pre IH];
    intros fuel mem entry matrix depth t te rest Hchain Hpre Hterm Hev Hfuel.
  - simpl in Hchain. destruct Hchain as (-> & Ht & Hchain).
    destruct fuel as [|fuel]; simpl in Hfuel; [lia|].
    assert (length rest < fuel) as Hfuel' by lia.
    rewrite Nat.add_0_r. simpl foldl.
    rewrite composite_terminal by done.
    simpl cogl_matrix_entry_get_loop. rewrite Ht. unfold cache_filled.
    unfold is_terminal in Hterm. simpl in Hev.
    destruct (full te) as [|?|? ?|?|? ? ?|?|m|c v] eqn:Hfull; try discriminate.
    + by exists mem.
    + by exists mem.
    + destruct v.
      * destruct c as [c|]; [|done]. by exists mem.
      * assert (rest <> [] /\ evaluable rest) as [Hne Hev'] by (by destruct c).
        destruct rest as [|[up eu] rest]; [done|].
        destruct Hchain as (Hup & Hchain). rewrite Hup.
        destruct (get_loop_composite ((up, eu) :: rest) fuel mem (Some up)
                    graphene_matrix_init_identity 0)
          as (mem1 & cur & d & Hrec); [by simpl|done|done|].
        rewrite Hrec.
        eexists. split; [by destruct c|]. split.
        -- by rewrite lookup_insert_eq.
        -- intros Heq. rewrite <- Heq in Hfull. simpl in Hfull.
           discriminate.
  - simpl in Hchain. destruct Hchain as (-> & Hp & Hchain).
    apply Forall_cons in Hpre as [He Hpre]. simpl in He.
    destruct fuel as [|fuel]; simpl in Hfuel; [lia|].
    destruct (IH fuel mem (parent e) (apply_operation matrix e) (S depth)
                t te rest) as (mem' & Hrun & Hmem); [done..|lia|].
    exists mem'. split; [|done].
    replace (depth + length ((p, e) :: pre)) with (S depth + length pre)
      by (simpl; lia).
    assert (cogl_matrix_entry_get_loop (S fuel) mem (Some p) matrix depth =
            cogl_matrix_entry_get_loop fuel mem (parent e)
              (apply_operation matrix e) (S depth)) as ->.
    { simpl. rewrite Hp. unfold is_terminal in He. unfold apply_operation.
      by destruct (full e). }
    exact Hrun.
Qed.

(** a chain that ends without terminal operation *)
Lemma get_loop_no_terminal pre : forall fuel (mem : memory) entry matrix depth,
  chain mem entry pre ->
  Forall (fun pe => is_terminal pe.2 = false) pre ->
  length pre < fuel ->
  cogl_matrix_entry_get_loop fuel mem entry matrix depth =
    Some (mem, foldl apply_operation matrix pre.*2, None, depth + length pre).
Proof.
  induction pre as [|[p e] pre IH]; intros fuel mem entry matrix depth Hchain Hpre Hfuel.
  - simpl in Hchain. subst. destruct fuel; simpl in *; [lia|].
    by rewrite Nat.add_0_r.
  - simpl in Hchain. destruct Hchain as (-> & Hp & Hchain).
    apply Forall_cons in Hpre as [He Hpre]. simpl in He.
    destruct fuel as [|fuel]; simpl in Hfuel; [lia|].
    replace (depth + length ((p, e) :: pre)) with (S depth + length pre)
      by (simpl; lia).
    assert (cogl_matrix_entry_get_loop (S fuel) mem (Some p) matrix depth =
            cogl_matrix_entry_get_loop fuel mem (parent e)
              (apply_operation matrix e) (S depth)) as ->.
    { simpl. rewrite Hp. unfold is_terminal in He. unfold apply_operation.
      by destruct (full e). }
    apply IH; [done|done|lia].
Qed.

(** what an evaluation may change in the store: the cache of save
    entries that were not valid *)
Lemma get_loop_frame fuel :
  forall (mem : memory) entry matrix depth mem' matrix' current depth',
  cogl_matrix_entry_get_loop fuel mem entry matrix depth =
    Some (mem', matrix', current, depth') ->
  forall q,
    match mem !! q with
    | None => mem' !! q = None
    | Some e =>
        mem' !! q = Some e
        \/ exists c0 c, full e = EntrySave c0 false
             /\ mem' !! q = Some {| parent := parent e; ref_count := ref_count e;
                                    full := EntrySave (Some c) true |}
    end.
Proof.
  induction fuel as [|fuel IH];
    intros mem entry matrix depth mem' matrix' current depth' Hrun q;
    [discriminate|].
  assert (match mem !! q with
          | None => mem !! q = None
          | Some e => mem !! q = Some e \/
              exists c0 c, full e = EntrySave c0 false
                /\ mem !! q = Some {| parent := parent e; ref_count := ref_count e;
                                      full := EntrySave (Some c) true |}
          end) as Hsame.
  { destruct (mem !! q); auto. }
  simpl in Hrun. destruct entry as [p|]; [|by simplify_eq].
  destruct (mem !! p) as [e|] eqn:Hp; [|discriminate].
  destruct (full e) as [|?|? ?|?|? ? ?|?|m|c v] eqn:Hfull;
    try (by eapply IH); try (by simplify_eq).
  destruct v.
  - destruct c; by simplify_eq.
  - destruct (parent e) as [up|] eqn:Hup; [|discriminate].
    destruct (cogl_matrix_entry_get_loop fuel mem (Some up)
                graphene_matrix_init_identity 0)
      as [[[[mem1 c1] cur1] d1]|] eqn:Hrec; [|discriminate].
    simplify_eq. specialize (IH _ _ _ _ _ _ _ _ Hrec q).
    destruct (decide (q = p)) as [->|Hne].
    + rewrite Hp, lookup_insert_eq. right. exists c, c1.
      split; [done|]. by rewrite Hup.
    + rewrite lookup_insert_ne by done. apply IH.
Qed.


Lemma entry_get_spec fuel (mem : memory) entry pre t te rest :
  chain mem entry (pre ++ (t, te) :: rest) ->
  Forall (fun pe => is_terminal pe.2 = false) pre ->
  is_terminal te = true ->
  evaluable ((t, te) :: rest) ->
  length (pre ++ (t, te) :: rest) < fuel ->
  exists mem',
    cogl_matrix_entry_get fuel mem entry =
      Some (mem',
            composite (foldl apply_operation graphene_matrix_init_identity
                         pre.*2) ((t, te) :: rest),
            internal_matrix pre te rest)
    /\ mem' !! t =
         Some (cache_filled te (composite graphene_matrix_init_identity rest))
    /\ (cache_filled te (composite graphene_matrix_init_identity rest) = te ->
        mem' = mem).
Proof.
  intros Hchain Hpre Hterm Hev Hfuel.
  destruct (get_loop_prefix pre fuel mem entry graphene_matrix_init_identity 0
              t te rest Hchain Hpre Hterm Hev Hfuel) as (mem' & Hrun & Ht & Hsame).
  exists mem'. split; [|done].
  unfold cogl_matrix_entry_get. rewrite Hrun.
  destruct pre as [|[p e] pre]; simpl length; [|done].
  simpl in Hchain. destruct Hchain as (-> & _). rewrite Ht.
  unfold cache_filled, internal_matrix. unfold is_terminal in Hterm.
  simpl in Hev.
  destruct (full te) as [|?|? ?|?|? ? ?|?|m|c v] eqn:Hfull; try done;
    simpl; rewrite ?Hfull; try done.
  destruct v; destruct c; simpl; rewrite ?Hfull; done.
Qed.

(** C1.  The evaluator starts from the identity matrix, applies every
    translate, rotate, scale and multiply entry it meets on the way up
    by post-multiplying the running matrix, and stops at the first
    terminal entry: nothing more is applied for a load-identity entry,
    the stored matrix is applied once for a load entry, and the cached
    composite is applied for a save entry (the composite of the chain
    behind it when the cache had to be filled).  The result is the
    composite of the chain as [composite] computes it by recursion on
    the chain. *)
Theorem composite_evaluation fuel (mem : memory) entry pre t te rest :
  chain mem entry (pre ++ (t, te) :: rest) ->
  Forall (fun pe => is_terminal pe.2 = false) pre ->
  is_terminal te = true ->
  evaluable ((t, te) :: rest) ->
  length (pre ++ (t, te) :: rest) < fuel ->
  let running :=
    foldl apply_operation graphene_matrix_init_identity pre.*2 in
  let matrix :=
    match full te with
    | EntryLoadIdentity => running
    | EntryLoad m => graphene_matrix_multiply running m
    | EntrySave (Some c) true => graphene_matrix_multiply running c
    | _ => graphene_matrix_multiply running
             (composite graphene_matrix_init_identity rest)
    end in
  (exists mem' internal,
     cogl_matrix_entry_get fuel mem entry = Some (mem', matrix, internal))
  /\ matrix =
       composite graphene_matrix_init_identity (pre ++ (t, te) :: rest).
Proof.
  intros Hchain Hpre Hterm Hev Hfuel running matrix.
  destruct (entry_get_spec fuel mem entry pre t te rest Hchain Hpre Hterm Hev
              Hfuel) as (mem' & Hrun & _).
  assert (matrix = composite running ((t, te) :: rest)) as Hmatrix.
  { subst matrix. by rewrite composite_terminal. }
  split.
  - exists mem', (internal_matrix pre te rest). by rewrite Hrun, Hmatrix.
  - rewrite Hmatrix. subst running. by rewrite composite_app.
Qed.


Lemma get_loop_cached n (mem : memory) s e c matrix depth :
  mem !! s = Some e -> full e = EntrySave (Some c) true ->
  cogl_matrix_entry_get_loop (S n) mem (Some s) matrix depth =
    Some (mem, graphene_matrix_multiply matrix c, Some s, depth).
Proof. intros Hs Hfull. simpl. by rewrite Hs, Hfull. Qed.

Lemma get_loop_frozen fuel (mem : memory) entry matrix depth
    mem' matrix' current depth' s e c :
  mem !! s = Some e -> full e = EntrySave (Some c) true ->
  cogl_matrix_entry_get_loop fuel mem entry matrix depth =
    Some (mem', matrix', current, depth') ->
  mem' !! s = Some e.
Proof.
  intros Hs Hfull Hrun.
  pose proof (get_loop_frame fuel _ _ _ _ _ _ _ _ Hrun s) as Hframe.
  rewrite Hs in Hframe. destruct Hframe as [|(c0 & c1 & Hc & _)]; [done|].
  congruence.
Qed.

Lemma ref_frame (mem : memory) entry mem' q :
  cogl_matrix_entry_ref mem entry = Some mem' ->
  match mem !! q with
  | None => mem' !! q = None
  | Some e => exists e', mem' !! q = Some e'
      /\ full e' = full e /\ parent e' = parent e
  end.
Proof.
  unfold cogl_matrix_entry_ref. destruct entry as [p|].
  - destruct (mem !! p) as [ep|] eqn:Hp; [|discriminate].
    destruct (ref_count ep <? INT_MAX)%Z; [|discriminate].
    intros [= <-]. destruct (decide (q = p)) as [->|Hne].
    + rewrite Hp, lookup_insert_eq. eauto.
    + rewrite lookup_insert_ne by done. destruct (mem !! q); eauto.
  - intros [= <-]. destruct (mem !! q); eauto.
Qed.

Lemma unref_frame fuel : forall (mem : memory) entry mem' q,
  cogl_matrix_entry_unref fuel mem entry = Some mem' ->
  match mem !! q with
  | None => mem' !! q = None
  | Some e => mem' !! q = None
      \/ exists e', mem' !! q = Some e'
           /\ full e' = full e /\ parent e' = parent e
  end.
Proof.
  induction fuel as [|fuel IH]; intros mem entry mem' q; simpl;
    (destruct entry as [p|];
      [|intros [= <-]; destruct (mem !! q); eauto]);
    (destruct (mem !! p) as [ep|] eqn:Hp; [|discriminate]);
    (destruct (INT_MIN <? ref_count ep)%Z; [|discriminate]);
    (destruct (ref_count ep - 1 <=? 0)%Z; [|
      intros [= <-]; destruct (decide (q = p)) as [->|Hne];
        [rewrite Hp, lookup_insert_eq; eauto
        |rewrite lookup_insert_ne by done; destruct (mem !! q); eauto]]).
  - discriminate.
  - intros Hrec. specialize (IH _ _ _ q Hrec).
    unfold _cogl_magazine_chunk_free in IH.
    destruct (decide (q = p)) as [->|Hne].
    + rewrite lookup_delete_eq in IH. rewrite Hp. by left.
    + by rewrite lookup_delete_ne in IH.
Qed.

(** C3.  The cache of a save entry is written once.  [push ()] creates
    the entry with [cache_valid] false; the first evaluation that
    reaches it evaluates the chain of its parent, stores the result and
    sets [cache_valid]; an evaluation that finds the cache valid uses
    it with a single step, whatever the rest of the store; and no
    evaluation, [ref], [unref] or push of an entry makes the cache
    invalid again as long as the entry lives. *)
Theorem save_cache_write_once fuel (mem : memory) stack l :
  chain mem (last_entry stack) l -> l <> [] -> evaluable l ->
  S (length l) < fuel ->
  let c := composite graphene_matrix_init_identity l in
  exists s mem1 mem2,
    mem !! s = None
    /\ cogl_matrix_stack_push mem stack = Some (mem1, {| last_entry := Some s |})
    /\ mem1 !! s = Some {| parent := last_entry stack; ref_count := 1;
                           full := EntrySave None false |}
    /\ cogl_matrix_entry_get fuel mem1 (Some s) =
         Some (mem2,
               graphene_matrix_multiply graphene_matrix_init_identity c,
               Some c)
    /\ mem2 !! s = Some {| parent := last_entry stack; ref_count := 1;
                           full := EntrySave (Some c) true |}
    /\ (forall n mem3 e c' matrix depth,
          mem3 !! s = Some e -> full e = EntrySave (Some c') true ->
          cogl_matrix_entry_get_loop (S n) mem3 (Some s) matrix depth =
            Some (mem3, graphene_matrix_multiply matrix c', Some s, depth))
    /\ (forall n mem3 e c' entry matrix depth mem4 matrix' current depth',
          mem3 !! s = Some e -> full e = EntrySave (Some c') true ->
          cogl_matrix_entry_get_loop n mem3 entry matrix depth =
            Some (mem4, matrix', current, depth') ->
          mem4 !! s = Some e)
    /\ (forall mem3 e entry mem4,
          mem3 !! s = Some e ->
          cogl_matrix_entry_ref mem3 entry = Some mem4 ->
          exists e', mem4 !! s = Some e' /\ full e' = full e)
    /\ (forall n mem3 e entry mem4,
          mem3 !! s = Some e ->
          cogl_matrix_entry_unref n mem3 entry = Some mem4 ->
          mem4 !! s = None
          \/ exists e', mem4 !! s = Some e' /\ full e' = full e)
    /\ (forall mem3 e stack3 operation mem4 stack4,
          mem3 !! s = Some e ->
          _cogl_matrix_stack_push_operation mem3 stack3 operation =
            Some (mem4, stack4) ->
          mem4 !! s = Some e).
Proof.
  intros Hchain Hne Hev Hfuel c.
  pose proof (chunk_alloc_fresh mem) as Hs.
  set (s := _cogl_magazine_chunk_alloc mem) in *.
  set (save := {| parent := last_entry stack; ref_count := 1;
                  full := EntrySave None false |}).
  assert (chain (<[s := save]> mem) (Some s) ([] ++ (s, save) :: l)) as Hchain1.
  { simpl. split; [done|]. rewrite lookup_insert_eq. split; [done|].
    by apply chain_insert_fresh. }
  destruct (entry_get_spec fuel (<[s := save]> mem) (Some s) [] s save l)
    as (mem2 & Hget & Hs2 & _); [done|constructor|done|by simpl|by simpl|].
  exists s, (<[s := save]> mem), mem2.
  split; [done|]. split.
  { unfold cogl_matrix_stack_push. apply push_operation_eq. }
  split; [apply lookup_insert_eq|].
  split; [exact Hget|]. split; [exact Hs2|].
  split; [intros; by eapply get_loop_cached|].
  split; [intros; by eapply get_loop_frozen|].
  split.
  { intros mem3 e entry mem4 Hs3 Href.
    pose proof (ref_frame _ _ _ s Href) as Hf. rewrite Hs3 in Hf.
    destruct Hf as (e' & ? & ? & _). eauto. }
  split.
  { intros n mem3 e entry mem4 Hs3 Hunref.
    pose proof (unref_frame _ _ _ _ s Hunref) as Hf. rewrite Hs3 in Hf.
    destruct Hf as [|(e' & ? & ? & _)]; eauto. }
  intros mem3 e stack3 operation mem4 stack4 Hs3.
  rewrite push_operation_eq. intros [= <- <-].
  rewrite lookup_insert_ne; [done|]. intros <-.
  pose proof (chunk_alloc_fresh mem3). congruence.
Qed.

End Evaluator.

Section Inverse.
Context `{G : Graphene}.
#[local] Abbreviation memory := (gmap nat CoglMatrixEntry).

Hypothesis identity_left : forall m,
  graphene_matrix_multiply graphene_matrix_init_identity m = m.
Hypothesis inverse_singular : forall m,
  graphene_matrix_inverse m = None <->
  graphene_matrix_determinant m = float_zero.

(** C8.  [cogl_matrix_stack_get_inverse] inverts the composite matrix
    that [cogl_matrix_stack_get] computes, and returns what
    [graphene_matrix_inverse] returns: a failure when the composite is
    singular, an inverse otherwise.  The two facts assumed of graphene
    are that the identity matrix is neutral on the left of a product
    and that the inversion fails exactly on the matrices with
    determinant zero. *)
Theorem inverse_of_composite fuel (mem : memory) stack pre t te rest :
  chain mem (last_entry stack) (pre ++ (t, te) :: rest) ->
  Forall (fun pe => is_terminal pe.2 = false) pre ->
  is_terminal te = true ->
  evaluable ((t, te) :: rest) ->
  length (pre ++ (t, te) :: rest) < fuel ->
  exists mem' internal,
    let matrix :=
      composite graphene_matrix_init_identity (pre ++ (t, te) :: rest) in
    cogl_matrix_stack_get fuel mem stack = Some (mem', matrix, internal)
    /\ cogl_matrix_stack_get_inverse fuel mem stack =
         Some (mem', graphene_matrix_inverse matrix)
    /\ (graphene_matrix_determinant matrix = float_zero ->
        cogl_matrix_stack_get_inverse fuel mem stack = Some (mem', None))
    /\ (graphene_matrix_determinant matrix <> float_zero ->
        exists inverse,
          cogl_matrix_stack_get_inverse fuel mem stack =
            Some (mem', Some inverse)).
Proof.
  intros Hchain Hpre Hterm Hev Hfuel.
  destruct (entry_get_spec fuel mem _ pre t te rest Hchain Hpre Hterm Hev
              Hfuel) as (mem' & Hget & _).
  exists mem', (internal_matrix pre te rest).
  rewrite composite_app by done. cbv zeta.
  set (matrix := composite _ ((t, te) :: rest)) in *.
  assert (cogl_matrix_stack_get_inverse fuel mem stack =
          Some (mem', graphene_matrix_inverse matrix)) as Hinv.
  { unfold cogl_matrix_stack_get_inverse, cogl_matrix_stack_get.
    rewrite Hget.
    destruct (internal_matrix pre te rest) as [m|] eqn:Hint; [|done].
    do 3 f_equal. unfold internal_matrix in Hint.
    destruct pre as [|? ?]; [|discriminate].
    subst matrix. simpl foldl. rewrite composite_terminal by done.
    destruct (full te) as [|?|? ?|?|? ? ?|?|m0|c v]; try discriminate.
    - injection Hint as <-. by rewrite identity_left.
    - destruct v; destruct c; injection Hint as <-; by rewrite identity_left. }
  split; [exact Hget|]. split; [exact Hinv|]. split.
  - intros Hdet. rewrite Hinv. do 2 f_equal. by apply inverse_singular.
  - intros Hdet. rewrite Hinv.
    destruct (graphene_matrix_inverse matrix) as [inv|] eqn:E; [eauto|].
    by apply inverse_singular in E.
Qed.

End Inverse.

Section Equality.
Context `{G : Graphene}.
#[local] Abbreviation memory := (gmap nat CoglMatrixEntry).

Lemma rooted_app l1 l2 : rooted (l1 ++ l2) -> rooted l2.
Proof.
  induction l1 as [|[p e] l1 IH]; simpl; [done|]. intros [_ ?]. auto.
Qed.

Lemma without_saves_cons_save p e l :
  is_save e = true -> without_saves ((p, e) :: l) = without_saves l.
Proof.
  intros He. unfold without_saves. rewrite filter_cons_False; [done|].
  simpl. by rewrite He.
Qed.

Lemma without_saves_cons_other p e l :
  is_save e = false -> without_saves ((p, e) :: l) = (p, e) :: without_saves l.
Proof.
  intros He. unfold without_saves. by rewrite filter_cons_True.
Qed.

(** [_cogl_matrix_entry_skip_saves] stops on the first entry of the
    chain that is not a save entry. *)
Lemma skip_saves_spec l : forall fuel (mem : memory) entry,
  chain mem entry l -> rooted l -> l <> [] -> length l <= fuel ->
  exists p e l' l'',
    _cogl_matrix_entry_skip_saves fuel mem entry = Some p
    /\ mem !! p = Some e /\ is_save e = false
    /\ l = l'' ++ (p, e) :: l'
    /\ chain mem (parent e) l'
    /\ without_saves l = (p, e) :: without_saves l'.
Proof.
  induction l as [|[q x] l IH]; intros fuel mem entry Hchain Hroot Hne Hfuel;
    [done|].
  simpl in Hchain. destruct Hchain as (-> & Hq & Hchain).
  simpl in Hroot. destruct Hroot as [Hsave Hroot].
  destruct (is_save x) eqn:Hx.
  - specialize (Hsave eq_refl).
    destruct fuel as [|fuel]; simpl in Hfuel; [lia|].
    destruct (IH fuel mem (parent x)) as (p & e & l' & l'' & Hskip & Hp & He & Hl & Hc & Hw);
      [done..|lia|].
    exists p, e, l', ((q, x) :: l''). simpl. rewrite Hq, Hx.
    split; [done|]. split; [done|]. split; [done|].
    split; [by rewrite Hl|]. split; [done|].
    by rewrite without_saves_cons_save.
  - exists q, x, l, []. split.
    { destruct fuel; simpl; by rewrite Hq, Hx. }
    split; [done|]. split; [done|]. split; [done|]. split; [done|].
    by apply without_saves_cons_other.
Qed.

Lemma lockstep_equal_nil_r l : lockstep_equal l [] = false.
Proof. by destruct l as [|[? ?] ?]. Qed.

Lemma equal_refines fuel : forall (mem : memory) entry0 entry1 l0 l1,
  chain mem entry0 l0 -> chain mem entry1 l1 ->
  rooted l0 -> rooted l1 ->
  length l0 <= fuel -> length l1 <= fuel ->
  cogl_matrix_entry_equal fuel mem entry0 entry1 =
    Some (lockstep_equal (without_saves l0) (without_saves l1)).
Proof.
  induction fuel as [|fuel IH];
    intros mem entry0 entry1 l0 l1 Hc0 Hc1 Hr0 Hr1 Hf0 Hf1.
  - destruct l0; [|simpl in Hf0; lia]. destruct l1; [|simpl in Hf1; lia].
    simpl in Hc0, Hc1. by subst.
  - destruct l0 as [|x0 l0].
    { simpl in Hc0. subst. by destruct entry1. }
    destruct l1 as [|x1 l1].
    { simpl in Hc1. subst. rewrite lockstep_equal_nil_r. by destruct entry0. }
    destruct (skip_saves_spec (x0 :: l0) (S fuel) mem entry0)
      as (p0 & e0 & l0' & s0 & Hskip0 & Hp0 & He0 & Hl0 & Hc0' & Hw0); [done..|].
    destruct (skip_saves_spec (x1 :: l1) (S fuel) mem entry1)
      as (p1 & e1 & l1' & s1 & Hskip1 & Hp1 & He1 & Hl1 & Hc1' & Hw1); [done..|].
    rewrite Hw0, Hw1.
    assert (rooted l0') as Hr0'.
    { rewrite Hl0 in Hr0. apply rooted_app in Hr0. simpl in Hr0. tauto. }
    assert (rooted l1') as Hr1'.
    { rewrite Hl1 in Hr1. apply rooted_app in Hr1. simpl in Hr1. tauto. }
    assert (length l0' <= fuel) as Hf0'.
    { apply (f_equal length) in Hl0. rewrite length_app in Hl0.
      simpl in Hl0, Hf0. lia. }
    assert (length l1' <= fuel) as Hf1'.
    { apply (f_equal length) in Hl1. rewrite length_app in Hl1.
      simpl in Hl1, Hf1. lia. }
    specialize (IH mem (parent e0) (parent e1) l0' l1' Hc0' Hc1' Hr0' Hr1'
                  Hf0' Hf1').
    assert (exists a0 a1, entry0 = Some a0 /\ entry1 = Some a1)
      as (a0 & a1 & -> & ->).
    { destruct x0, x1. simpl in Hc0, Hc1.
      destruct Hc0 as (-> & _), Hc1 as (-> & _). eauto. }
    cbn [cogl_matrix_entry_equal]. rewrite Hskip0, Hskip1.
    cbn [lockstep_equal].
    destruct (decide (p0 = p1)) as [|Hne]; [done|].
    rewrite Hp0, Hp1. rewrite IH. unfold same_step.
    unfold is_save in He0, He1. unfold op.
    destruct (full e0), (full e1); try discriminate; simpl;
      try done;
      repeat match goal with
             | |- context [negb ?b] => destruct b; simpl; try done
             end.
Qed.


Lemma lockstep_equal_shared pre0 pre1 p e0 e1 r0 r1 :
  Forall2 (fun x y => same_step x.2 y.2 = true) pre0 pre1 ->
  lockstep_equal (pre0 ++ (p, e0) :: r0) (pre1 ++ (p, e1) :: r1) = true.
Proof.
  induction 1 as [|[p0 x0] [p1 x1] pre0 pre1 Hstep _ IH]; simpl.
  - by rewrite decide_True.
  - destruct (decide (p0 = p1)); [done|]. rewrite IH.
    simpl in Hstep. rewrite Hstep. unfold same_step in Hstep.
    by destruct (full x0), (full x1).
Qed.

Lemma equal_same_entry fuel (mem : memory) entry l :
  chain mem entry l -> rooted l -> l <> [] -> length l <= fuel ->
  cogl_matrix_entry_equal fuel mem entry entry = Some true.
Proof.
  intros Hchain Hroot Hne Hfuel.
  rewrite (equal_refines fuel mem entry entry l l) by done.
  destruct (skip_saves_spec l fuel mem entry Hchain Hroot Hne Hfuel)
    as (p & e & l' & l'' & _ & _ & _ & _ & _ & ->).
  simpl. by rewrite decide_True.
Qed.

(** C7.  [cogl_matrix_entry_equal] walks the two chains in lockstep
    without their save entries: two load-identity entries are equal,
    two load entries are equal when their matrices are, whatever lies
    behind them, two entries with different operations are not equal,
    any other pair must carry fields that compare equal for the walk to
    go on with the parents, and a chain that ends before the other
    gives [FALSE].  The fields are compared with C's [==] and with the
    [_equal] functions of graphene, without any tolerance added: when
    those comparisons are exact, the fields of two entries that let the
    walk go on are identical. *)
Theorem equal_walks_in_lockstep fuel (mem : memory) entry0 entry1 l0 l1 :
  chain mem entry0 l0 -> chain mem entry1 l1 ->
  rooted l0 -> rooted l1 ->
  length l0 <= fuel -> length l1 <= fuel ->
  cogl_matrix_entry_equal fuel mem entry0 entry1 =
    Some (lockstep_equal (without_saves l0) (without_saves l1))
  /\ (without_saves l0 = [] \/ without_saves l1 = [] ->
      cogl_matrix_entry_equal fuel mem entry0 entry1 = Some false)
  /\ (forall p0 e0 r0 p1 e1 r1,
        without_saves l0 = (p0, e0) :: r0 ->
        without_saves l1 = (p1, e1) :: r1 ->
        (full e0 = EntryLoadIdentity -> full e1 = EntryLoadIdentity ->
         cogl_matrix_entry_equal fuel mem entry0 entry1 = Some true)
        /\ (forall m0 m1, p0 <> p1 ->
              full e0 = EntryLoad m0 -> full e1 = EntryLoad m1 ->
              cogl_matrix_entry_equal fuel mem entry0 entry1 =
                Some (graphene_matrix_equal m0 m1))
        /\ (p0 <> p1 -> op e0 <> op e1 ->
            cogl_matrix_entry_equal fuel mem entry0 entry1 = Some false)
        /\ (p0 <> p1 -> is_terminal e0 = false ->
            cogl_matrix_entry_equal fuel mem entry0 entry1 =
              Some (same_step e0 e1 && lockstep_equal r0 r1)))
  /\ ((forall a b, float_eq a b = true -> a = b) ->
      (forall a b, graphene_point3d_equal a b = true -> a = b) ->
      (forall a b, graphene_vec3_equal a b = true -> a = b) ->
      (forall a b, graphene_euler_equal a b = true -> a = b) ->
      (forall a b, graphene_matrix_equal a b = true -> a = b) ->
      forall e0 e1, same_step e0 e1 = true -> full e0 = full e1).
Proof.
  intros Hc0 Hc1 Hr0 Hr1 Hf0 Hf1.
  pose proof (equal_refines fuel mem entry0 entry1 l0 l1 Hc0 Hc1 Hr0 Hr1
                Hf0 Hf1) as Heq.
  split; [exact Heq|]. split; [|split].
  - intros [Hnil|Hnil]; rewrite Heq, Hnil; [done|].
    by rewrite lockstep_equal_nil_r.
  - intros p0 e0 r0 p1 e1 r1 H0 H1. rewrite Heq, H0, H1. simpl.
    split; [|split; [|split]].
    + intros -> ->. by destruct (decide (p0 = p1)).
    + intros m0 m1 Hne -> ->. by rewrite decide_False.
    + intros Hne Hop. rewrite decide_False by done.
      unfold op in Hop. unfold same_step.
      by destruct (full e0), (full e1).
    + intros Hne Hterm. rewrite decide_False by done.
      unfold is_terminal in Hterm. unfold same_step.
      by destruct (full e0), (full e1).
  - intros Hfloat Hpoint Hvec Heuler Hmatrix e0 e1. unfold same_step.
    destruct (full e0), (full e1); try discriminate;
      rewrite ?andb_true_iff; intros Hsame.
    + f_equal. by apply Hpoint.
    + destruct Hsame as [Ha Hv]. f_equal; [by apply Hfloat|by apply Hvec].
    + f_equal. by apply Heuler.
    + destruct Hsame as [[Hx Hy] Hz]. f_equal; by apply Hfloat.
    + f_equal. by apply Hmatrix.
Qed.

(** C10.  [cogl_matrix_entry_equal] returns [TRUE] as soon as the two
    walks stand on the same entry, whatever that entry and its
    ancestors contain; an entry is equal to itself. *)
Theorem equal_at_shared_entry fuel (mem : memory) entry0 entry1 l0 l1 :
  chain mem entry0 l0 -> chain mem entry1 l1 ->
  rooted l0 -> rooted l1 ->
  length l0 <= fuel -> length l1 <= fuel ->
  (forall pre0 pre1 p e0 e1 r0 r1,
     without_saves l0 = pre0 ++ (p, e0) :: r0 ->
     without_saves l1 = pre1 ++ (p, e1) :: r1 ->
     Forall2 (fun x y => same_step x.2 y.2 = true) pre0 pre1 ->
     cogl_matrix_entry_equal fuel mem entry0 entry1 = Some true)
  /\ (entry0 <> None ->
      cogl_matrix_entry_equal fuel mem entry0 entry0 = Some true).
Proof.
  intros Hc0 Hc1 Hr0 Hr1 Hf0 Hf1. split.
  - intros pre0 pre1 p e0 e1 r0 r1 H0 H1 Hpre.
    rewrite (equal_refines fuel mem entry0 entry1 l0 l1) by done.
    rewrite H0, H1. f_equal. by apply lockstep_equal_shared.
  - intros Hne. eapply equal_same_entry; try done.
    intros ->. by simpl in Hc0.
Qed.

End Equality.

Section Translation.
Context `{G : Graphene}.
#[local] Abbreviation memory := (gmap nat CoglMatrixEntry).

Lemma walk_spec l : forall fuel (mem : memory) entry head,
  chain mem entry l -> length l <= fuel ->
  calculate_translation_walk fuel mem entry head =
    Some (reverse (translate_run (without_saves l)).*1 ++ head).
Proof.
  induction l as [|[p e] l IH]; intros fuel mem entry head Hchain Hfuel.
  - simpl in Hchain. subst. by destruct fuel.
  - simpl in Hchain. destruct Hchain as (-> & Hp & Hchain).
    destruct fuel as [|fuel]; simpl in Hfuel; [lia|].
    simpl. rewrite Hp. destruct (is_save e) eqn:Hs.
    + rewrite without_saves_cons_save by done. apply IH; [done|lia].
    + rewrite without_saves_cons_other by done. simpl.
      destruct (is_translate e) eqn:Ht.
      * rewrite (IH fuel mem (parent e)) by (done || lia).
        rewrite fmap_cons, reverse_cons. by rewrite <- app_assoc.
      * done.
Qed.

Lemma common_spec c sa sb : forall Q : list ptr,
  match sa, sb with a :: _, b :: _ => a <> b | _, _ => True end ->
  calculate_translation_common
    (Nat.min (length (Q ++ c :: sa)) (length (Q ++ c :: sb)) - 1)
    (tail (Q ++ c :: sa)) (tail (Q ++ c :: sb))
    (Q ++ c :: sa) (Q ++ c :: sb) = Some (c :: sa, c :: sb).
Proof.
  intros Q Hex. induction Q as [|q Q IH].
  - simpl. rewrite Nat.sub_0_r.
    destruct sa as [|a sa], sb as [|b sb]; simpl; try done.
    by rewrite decide_False.
  - replace (Nat.min (length ((q :: Q) ++ c :: sa))
                     (length ((q :: Q) ++ c :: sb)) - 1)
      with (S (Nat.min (length (Q ++ c :: sa)) (length (Q ++ c :: sb)) - 1)).
    2:{ simpl. rewrite !length_app. simpl. lia. }
    simpl tail. simpl app.
    destruct Q as [|q' Q]; simpl in *.
    + rewrite decide_True by done. exact IH.
    + rewrite decide_True by done. exact IH.
Qed.

Lemma sum_spec sign (mem : memory) s : forall xyz,
  Forall (fun pe => mem !! pe.1 = Some pe.2 /\ is_translate pe.2 = true) s ->
  calculate_translation_sum sign mem s.*1 xyz =
    Some (Some (accumulate sign xyz s)).
Proof.
  induction s as [|[p e] s IH]; intros xyz Hs; [done|].
  apply Forall_cons in Hs as [[Hp Ht] Hs]. simpl in Hp, Ht.
  simpl. rewrite Hp. unfold is_translate in Ht.
  destruct (full e) eqn:Hfull; try discriminate.
  destruct xyz as [[x y] z]. rewrite IH by done.
  unfold accumulate. simpl. by rewrite ?Hfull.
Qed.

Lemma translate_run_app l l' :
  Forall (fun pe => is_translate pe.2 = true) l ->
  translate_run (l ++ l') = l ++ translate_run l'.
Proof.
  induction l as [|[p e] l IH]; intros Hl; [done|].
  apply Forall_cons in Hl as [He Hl]. simpl in He |- *.
  rewrite He. by rewrite IH.
Qed.

Lemma translate_run_cons p e l :
  exists T, translate_run ((p, e) :: l) = (p, e) :: T.
Proof. simpl. destruct (is_translate e); eauto. Qed.

Lemma elem_of_without_saves pe l : pe ∈ without_saves l -> pe ∈ l.
Proof. unfold without_saves. rewrite list_elem_of_filter. tauto. Qed.

Lemma collected_spec fuel (mem : memory) entry l s c ce anc :
  chain mem entry l -> length l <= fuel ->
  without_saves l = reverse s ++ (c, ce) :: anc ->
  Forall (fun pe => is_translate pe.2 = true) s ->
  exists Q,
    calculate_translation_walk fuel mem entry [] = Some (Q ++ c :: s.*1)
    /\ Q = reverse (tail (translate_run ((c, ce) :: anc))).*1.
Proof.
  intros Hchain Hfuel Hl Hs.
  rewrite (walk_spec l fuel mem entry []) by done.
  rewrite Hl, translate_run_app by (by apply Forall_reverse).
  destruct (translate_run_cons c ce anc) as [T HT]. rewrite HT. simpl tail.
  exists (reverse T.*1). split; [|done].
  rewrite app_nil_r, fmap_app, reverse_app, fmap_cons, reverse_cons.
  rewrite <- app_assoc. simpl. f_equal. f_equal.
  by rewrite fmap_reverse, reverse_involutive.
Qed.


Lemma common_of_collected c sa sb (Q : list ptr) :
  match sa, sb with a :: _, b :: _ => a <> b | _, _ => True end ->
  exists data next0 next1,
    Q ++ c :: sa = data :: next0 /\ Q ++ c :: sb = data :: next1
    /\ calculate_translation_common
         (Nat.min (length (data :: next0)) (length (data :: next1)) - 1)
         next0 next1 (data :: next0) (data :: next1) =
       Some (c :: sa, c :: sb).
Proof.
  intros Hex. pose proof (common_spec c sa sb Q Hex) as Hcommon.
  destruct Q as [|q Q].
  - exists c, sa, sb. by split.
  - exists q, (Q ++ c :: sa), (Q ++ c :: sb). by split.
Qed.

Lemma chain_translations (mem : memory) entry l s :
  chain mem entry l ->
  (forall pe, pe ∈ s -> pe ∈ without_saves l) ->
  Forall (fun pe => is_translate pe.2 = true) s ->
  Forall (fun pe => mem !! pe.1 = Some pe.2 /\ is_translate pe.2 = true) s.
Proof.
  intros Hchain Hin Hs. apply Forall_forall. intros [p e] Hpe. split.
  - eapply chain_lookup; [done|]. by apply elem_of_without_saves, Hin.
  - rewrite Forall_forall in Hs. by apply Hs.
Qed.

Lemma translation_success fuel (mem : memory) entry0 entry1 l0 l1
    sa sb c ce anc :
  chain mem entry0 l0 -> chain mem entry1 l1 ->
  length l0 <= fuel -> length l1 <= fuel ->
  without_saves l0 = reverse sa ++ (c, ce) :: anc ->
  without_saves l1 = reverse sb ++ (c, ce) :: anc ->
  Forall (fun pe => is_translate pe.2 = true) sa ->
  Forall (fun pe => is_translate pe.2 = true) sb ->
  match sa, sb with (a, _) :: _, (b, _) :: _ => a <> b | _, _ => True end ->
  cogl_matrix_entry_calculate_translation fuel mem entry0 entry1 =
    Some (Some (accumulate float_add
                  (accumulate float_sub
                     (float_zero, float_zero, float_zero) sa) sb)).
Proof.
  intros Hc0 Hc1 Hf0 Hf1 Hl0 Hl1 Hsa Hsb Hex.
  destruct (collected_spec fuel mem entry0 l0 sa c ce anc)
    as (Q & Hw0 & HQ); [done..|].
  destruct (collected_spec fuel mem entry1 l1 sb c ce anc)
    as (Q' & Hw1 & HQ'); [done..|].
  subst Q'. rewrite <- HQ in Hw1. clear HQ.
  destruct (common_of_collected c sa.*1 sb.*1 Q)
    as (data & next0 & next1 & E0 & E1 & Hcommon).
  { destruct sa as [|[a ?] sa], sb as [|[b ?] sb]; done. }
  unfold cogl_matrix_entry_calculate_translation.
  rewrite Hw0, Hw1, E0, E1. lazy beta iota zeta.
  rewrite decide_True by done. rewrite Hcommon.
  rewrite (sum_spec float_sub mem sa).
  - apply sum_spec. eapply chain_translations; [exact Hc1| |done].
    intros pe Hpe. rewrite Hl1. apply elem_of_app. left.
    by apply elem_of_reverse.
  - eapply chain_translations; [exact Hc0| |done].
    intros pe Hpe. rewrite Hl0. apply elem_of_app. left.
    by apply elem_of_reverse.
Qed.

(** the boundaries of the two walks differ *)
Lemma translation_no_common_first fuel (mem : memory) entry0 entry1 l0 l1
    b0 e0 b1 e1 :
  chain mem entry0 l0 -> chain mem entry1 l1 ->
  length l0 <= fuel -> length l1 <= fuel ->
  last (translate_run (without_saves l0)) = Some (b0, e0) ->
  last (translate_run (without_saves l1)) = Some (b1, e1) ->
  b0 <> b1 ->
  cogl_matrix_entry_calculate_translation fuel mem entry0 entry1 = Some None.
Proof.
  intros Hc0 Hc1 Hf0 Hf1 H0 H1 Hne.
  unfold cogl_matrix_entry_calculate_translation.
  rewrite (walk_spec l0 fuel mem entry0 []) by done.
  rewrite (walk_spec l1 fuel mem entry1 []) by done.
  apply last_Some in H0 as [T0 ->]. apply last_Some in H1 as [T1 ->].
  rewrite !fmap_app, !reverse_app. simpl.
  by rewrite decide_False.
Qed.


Lemma translate_run_boundary A n ne :
  (n, ne) ∈ A -> is_translate ne = false ->
  exists T b eb R,
    A = T ++ (b, eb) :: R
    /\ last (translate_run A) = Some (b, eb)
    /\ (n, ne) ∈ (b, eb) :: R.
Proof.
  induction A as [|[p e] A IH]; intros Hin Hne.
  - by apply elem_of_nil in Hin.
  - destruct (is_translate e) eqn:He.
    + apply elem_of_cons in Hin as [[= -> ->]|Hin]; [congruence|].
      destruct (IH Hin Hne) as (T & b & eb & R & -> & Hlast & Hn).
      exists ((p, e) :: T), b, eb, R. split; [done|]. split; [|done].
      simpl. rewrite He. rewrite last_cons, Hlast. done.
    + exists [], p, e, A. split; [done|]. split; [|done].
      simpl. by rewrite He.
Qed.

Lemma translate_run_last A :
  A <> [] -> exists b eb, last (translate_run A) = Some (b, eb) /\ (b, eb) ∈ A.
Proof.
  induction A as [|[p e] A IH]; intros Hne; [done|].
  simpl. destruct (is_translate e) eqn:He.
  - destruct A as [|x A].
    + exists p, e. split; [done|]. apply list_elem_of_here.
    + destruct IH as (b & eb & Hlast & Hin); [done|].
      exists b, eb. rewrite last_cons, Hlast. split; [done|].
      by apply list_elem_of_further.
  - exists p, e. split; [done|]. apply list_elem_of_here.
Qed.

Lemma without_saves_split l T x R :
  without_saves l = T ++ x :: R ->
  exists X Y, l = X ++ x :: Y /\ without_saves Y = R.
Proof.
  revert T. induction l as [|[p e] l IH]; intros T Hl.
  - by destruct T.
  - destruct (is_save e) eqn:He.
    + rewrite without_saves_cons_save in Hl by done.
      destruct (IH T Hl) as (X & Y & -> & HY).
      by exists ((p, e) :: X), Y.
    + rewrite without_saves_cons_other in Hl by done.
      destruct T as [|t T]; simpl in Hl.
      * injection Hl as <- <-. by exists [], l.
      * injection Hl as <- Hl. destruct (IH T Hl) as (X & Y & -> & HY).
        by exists ((p, e) :: X), Y.
Qed.

Lemma translation_blocked fuel (mem : memory) entry0 entry1 l0 l1 n ne :
  chain mem entry0 l0 -> chain mem entry1 l1 ->
  length l0 <= fuel -> length l1 <= fuel ->
  without_saves l0 <> [] -> without_saves l1 <> [] ->
  is_translate ne = false ->
  ((n, ne) ∈ without_saves l0 /\ n ∉ l1.*1)
  \/ ((n, ne) ∈ without_saves l1 /\ n ∉ l0.*1) ->
  cogl_matrix_entry_calculate_translation fuel mem entry0 entry1 = Some None.
Proof.
  intros Hc0 Hc1 Hf0 Hf1 Hn0 Hn1 Hne Hcase.
  assert (forall (la lb : list (ptr * CoglMatrixEntry)) ea eb,
            chain mem ea la -> chain mem eb lb ->
            without_saves lb <> [] ->
            (n, ne) ∈ without_saves la -> n ∉ lb.*1 ->
            exists ba xa bb xb,
              last (translate_run (without_saves la)) = Some (ba, xa)
              /\ last (translate_run (without_saves lb)) = Some (bb, xb)
              /\ ba <> bb) as Hboundary.
  { intros la lb ea eb Hca Hcb Hnb Hin Hout.
    destruct (translate_run_boundary _ _ _ Hin Hne)
      as (T & ba & xa & R & Hsplit & Hlast & Hn).
    destruct (translate_run_last _ Hnb) as (bb & xb & Hlastb & Hinb).
    exists ba, xa, bb, xb. split; [done|]. split; [done|].
    intros ->.
    destruct (without_saves_split _ _ _ _ Hsplit) as (X & Y & -> & HY).
    apply elem_of_without_saves in Hinb.
    apply list_elem_of_split in Hinb as (X' & Y' & ->).
    apply chain_app_inv in Hca, Hcb.
    assert (mem !! bb = Some xa) by (simpl in Hca; tauto).
    assert (mem !! bb = Some xb) by (simpl in Hcb; tauto).
    assert (xa = xb) as -> by congruence.
    pose proof (chain_unique _ _ _ _ Hca Hcb) as [= ->].
    apply Hout. rewrite fmap_app. apply elem_of_app. right.
    apply list_elem_of_fmap. exists (n, ne). split; [done|].
    apply elem_of_cons in Hn as [->|Hn]; [apply list_elem_of_here|].
    apply list_elem_of_further. rewrite <- HY in Hn.
    by apply elem_of_without_saves. }
  destruct Hcase as [[Hin Hout]|[Hin Hout]].
  - destruct (Hboundary l0 l1 _ _ Hc0 Hc1 Hn1 Hin Hout)
      as (b0 & x0 & b1 & x1 & H0 & H1 & Hdiff).
    by eapply translation_no_common_first.
  - destruct (Hboundary l1 l0 _ _ Hc1 Hc0 Hn0 Hin Hout)
      as (b1 & x1 & b0 & x0 & H1 & H0 & Hdiff).
    by eapply translation_no_common_first.
Qed.

Lemma accumulate_snoc sign xyz l p e :
  accumulate sign xyz (l ++ [(p, e)]) =
  match full e with
  | EntryTranslate translate =>
      (sign (accumulate sign xyz l).1.1 (point_x translate),
       sign (accumulate sign xyz l).1.2 (point_y translate),
       sign (accumulate sign xyz l).2 (point_z translate))
  | _ => accumulate sign xyz l
  end.
Proof. unfold accumulate. by rewrite foldl_snoc. Qed.

Lemma accumulate_exact sa sb :
  (forall x, float_sub x float_zero = x) ->
  (forall x y z, float_sub (float_sub x y) z = float_sub x (float_add y z)) ->
  (forall x y z, float_add (float_sub x y) z = float_sub (float_add x z) y) ->
  accumulate float_add
    (accumulate float_sub (float_zero, float_zero, float_zero) sa) sb =
  sub3 (sum_translations sb) (sum_translations sa).
Proof.
  intros Hzero Hsub Hadd.
  assert (forall xyz, accumulate float_sub xyz sa =
                      sub3 xyz (sum_translations sa)) as ->.
  { intros xyz. unfold sum_translations.
    induction sa as [|[p e] sa IH] using rev_ind.
    - destruct xyz as [[x y] z]. unfold sub3. simpl. by rewrite !Hzero.
    - rewrite !accumulate_snoc, IH. destruct (full e); try done.
      unfold sub3. simpl. by rewrite !Hsub. }
  unfold sum_translations.
  generalize (accumulate float_add (float_zero, float_zero, float_zero) sa).
  intros a. generalize (float_zero, float_zero, float_zero). intros u.
  induction sb as [|[p e] sb IH] using rev_ind; [done|].
  rewrite !accumulate_snoc, IH. destruct (full e); try done.
  unfold sub3. simpl. by rewrite !Hadd.
Qed.

(** C4.  On two chains that, save entries apart, reach a common
    ancestor through translate entries only, the relative translation
    succeeds: the translations of the first chain beyond the ancestor
    are subtracted from zero, then those of the second are added; in
    exact arithmetic this is the sum for the second chain minus the sum
    for the first.  The call returns [FALSE] when the two walks do not
    end on the same entry, in particular when an entry that is not a
    translation belongs to one chain only. *)
Theorem relative_translation fuel (mem : memory) entry0 entry1 l0 l1 :
  chain mem entry0 l0 -> chain mem entry1 l1 ->
  length l0 <= fuel -> length l1 <= fuel ->
  without_saves l0 <> [] -> without_saves l1 <> [] ->
  (forall sa sb c ce anc,
     without_saves l0 = reverse sa ++ (c, ce) :: anc ->
     without_saves l1 = reverse sb ++ (c, ce) :: anc ->
     Forall (fun pe => is_translate pe.2 = true) sa ->
     Forall (fun pe => is_translate pe.2 = true) sb ->
     match sa, sb with (a, _) :: _, (b, _) :: _ => a <> b | _, _ => True end ->
     cogl_matrix_entry_calculate_translation fuel mem entry0 entry1 =
       Some (Some (accumulate float_add
                     (accumulate float_sub
                        (float_zero, float_zero, float_zero) sa) sb))
     /\ ((forall x, float_sub x float_zero = x) ->
         (forall x y z,
            float_sub (float_sub x y) z = float_sub x (float_add y z)) ->
         (forall x y z,
            float_add (float_sub x y) z = float_sub (float_add x z) y) ->
         cogl_matrix_entry_calculate_translation fuel mem entry0 entry1 =
           Some (Some (sub3 (sum_translations sb) (sum_translations sa)))))
  /\ (forall b0 e0 b1 e1,
        last (translate_run (without_saves l0)) = Some (b0, e0) ->
        last (translate_run (without_saves l1)) = Some (b1, e1) ->
        b0 <> b1 ->
        cogl_matrix_entry_calculate_translation fuel mem entry0 entry1 =
          Some None)
  /\ (forall n ne,
        is_translate ne = false ->
        ((n, ne) ∈ without_saves l0 /\ n ∉ l1.*1)
        \/ ((n, ne) ∈ without_saves l1 /\ n ∉ l0.*1) ->
        cogl_matrix_entry_calculate_translation fuel mem entry0 entry1 =
          Some None).
Proof.
  intros Hc0 Hc1 Hf0 Hf1 Hn0 Hn1. split; [|split].
  - intros sa sb c ce anc Hl0 Hl1 Hsa Hsb Hex.
    pose proof (translation_success fuel mem entry0 entry1 l0 l1 sa sb c ce
                  anc Hc0 Hc1 Hf0 Hf1 Hl0 Hl1 Hsa Hsb Hex) as Hrun.
    split; [exact Hrun|]. intros Hzero Hsub Hadd.
    by rewrite Hrun, accumulate_exact.
  - intros b0 e0 b1 e1 H0 H1 Hne. by eapply translation_no_common_first.
  - intros n ne Hne Hcase. by eapply translation_blocked.
Qed.

End Translation.

Section PushPop.
Context `{G : Graphene}.
#[local] Abbreviation memory := (gmap nat CoglMatrixEntry).

(** C2.  [push (); M; pop ()], for any sequence [M] of translate,
    rotate, scale, multiply, load-identity and set calls, gives back the
    store and the stack it started from: [get_matrix ()] returns what it
    returned before, and the entry before and the entry after are equal
    for [cogl_matrix_entry_equal]. *)
Theorem push_pop_identity fuel (mem : memory) stack top e under ms :
  chain mem (last_entry stack) ((top, e) :: under) ->
  rooted ((top, e) :: under) ->
  (0 < ref_count e < INT_MAX)%Z ->
  length ms < fuel ->
  length ((top, e) :: under) <= fuel ->
  exists mem' stack',
    push_mutate_pop fuel mem stack ms = Some (mem', stack')
    /\ (forall n,
          cogl_matrix_stack_get n mem' stack' = cogl_matrix_stack_get n mem stack)
    /\ cogl_matrix_entry_equal fuel mem'
         (cogl_matrix_stack_get_entry stack)
         (cogl_matrix_stack_get_entry stack') = Some true
    /\ mem' = mem /\ stack' = stack.
Proof.
  intros Hchain Hroot Hrc Hms Hfuel.
  exists mem, stack. split; [by eapply push_mutate_pop_restores|].
  split; [done|]. split; [|done].
  unfold cogl_matrix_stack_get_entry.
  by eapply equal_same_entry.
Qed.

End PushPop.

Section ReferenceAccounting.
Context `{G : Graphene}.
#[local] Abbreviation memory := (gmap nat CoglMatrixEntry).

Lemma children_delete (mem : memory) p e q :
  mem !! p = Some e ->
  children mem q = children (delete p mem) q + indicator e q.
Proof.
  intros Hp. unfold children, indicator.
  rewrite map_filter_delete.
  destruct (decide (parent e = Some q)) as [Hq|Hq].
  - rewrite map_size_delete_Some; last first.
    { exists e. apply map_lookup_filter_Some. done. }
    assert (size (filter (λ pe : nat * CoglMatrixEntry, parent pe.2 = Some q) mem) <> 0).
    { apply map_size_ne_0_lookup_2 with p. exists e. by apply map_lookup_filter_Some. }
    lia.
  - rewrite map_size_delete_None; first lia.
    apply map_lookup_filter_None. right. intros e' He'. simplify_eq. done.
Qed.

Lemma children_insert_fresh (mem : memory) p e q :
  mem !! p = None ->
  children (<[p := e]> mem) q = children mem q + indicator e q.
Proof.
  intros Hp. unfold children, indicator.
  destruct (decide (parent e = Some q)) as [Hq|Hq].
  - rewrite map_filter_insert_True; last done.
    rewrite map_size_insert_None; first lia.
    apply map_lookup_filter_None. left. done.
  - rewrite map_filter_insert_not'; [lia|done|].
    intros y Hy. simplify_eq.
Qed.

Lemma children_update (mem : memory) p e e' q :
  mem !! p = Some e ->
  children (<[p := e']> mem) q + indicator e q = children mem q + indicator e' q.
Proof.
  intros Hp.
  rewrite <- (insert_delete_eq mem p e').
  rewrite children_insert_fresh by apply lookup_delete_eq.
  rewrite (children_delete mem p e q Hp). lia.
Qed.

Lemma accounted_ext owners owners' (mem : memory) :
  (forall q, owners' q = owners q) ->
  accounted owners mem -> accounted owners' mem.
Proof.
  intros Hext [Hlive Hdead]. split.
  - intros p e Hp. rewrite Hext. by apply Hlive.
  - intros p Hp. rewrite Hext. by apply Hdead.
Qed.

Lemma accounted_live owners (mem : memory) p :
  accounted owners mem -> 0 < owners p -> is_Some (mem !! p).
Proof.
  intros [_ Hdead] Hp. destruct (mem !! p) eqn:E; first done.
  apply Hdead in E. lia.
Qed.

Lemma accounted_update owners owners' (mem : memory) p e n :
  accounted owners mem ->
  mem !! p = Some e ->
  n = Z.of_nat (owners' p + children mem p) ->
  (0 < n)%Z ->
  (forall q, q <> p -> owners' q = owners q) ->
  accounted owners' (<[p := with_ref_count e n]> mem).
Proof.
  intros [Hlive Hdead] Hp Hn Hpos Hother.
  assert (Hch : forall q, children (<[p := with_ref_count e n]> mem) q
                          = children mem q).
  { intros q. pose proof (children_update mem p e (with_ref_count e n) q Hp).
    unfold indicator in *. simpl in *. lia. }
  split.
  - intros q eq Hq. rewrite Hch.
    destruct (decide (q = p)) as [->|Hne].
    + rewrite lookup_insert_eq in Hq. simplify_eq. simpl.
      split; first done. split; first done.
      intros q Hq. destruct (Hlive p e Hp) as (_ & _ & Hcl).
      destruct (Hcl q Hq) as [x Hx].
      destruct (decide (q = p)) as [->|?].
      * rewrite lookup_insert_eq. by eexists.
      * rewrite lookup_insert_ne by done. by eexists.
    + rewrite lookup_insert_ne in Hq by done.
      rewrite Hother by done.
      destruct (Hlive q eq Hq) as (H1 & H2 & Hcl).
      split; first done. split; first done.
      intros r Hr. destruct (Hcl r Hr) as [x Hx].
      destruct (decide (r = p)) as [->|?].
      * rewrite lookup_insert_eq. by eexists.
      * rewrite lookup_insert_ne by done. by eexists.
  - intros q Hq.
    destruct (decide (q = p)) as [->|Hne].
    + by rewrite lookup_insert_eq in Hq.
    + rewrite lookup_insert_ne in Hq by done.
      rewrite Hother by done. by apply Hdead.
Qed.

Lemma accounted_delete owners (mem : memory) p e :
  accounted owners mem ->
  mem !! p = Some e ->
  ref_count e = 1%Z -> 0 < owners p ->
  accounted (handed_up owners p (parent e)) (delete p mem)
  /\ parent e <> Some p.
Proof.
  intros [Hlive Hdead] Hp Hrc Hown.
  destruct (Hlive p e Hp) as (Hcount & _ & Hclp).
  assert (Hnochild : children mem p = 0) by lia.
  assert (Hself : parent e <> Some p).
  { intros Hpar. pose proof (children_delete mem p e p Hp) as Hd.
    unfold indicator in Hd. rewrite decide_True in Hd by done. lia. }
  split; last done. split.
  - intros q eq Hq. apply lookup_delete_Some in Hq as [Hne Hq].
    destruct (Hlive q eq Hq) as (H1 & H2 & Hcl).
    pose proof (children_delete mem p e q Hp) as Hd.
    split; [|split; [done|]].
    + unfold handed_up. rewrite decide_False by done.
      unfold indicator in Hd. rewrite H1.
      destruct (decide (parent e = Some q)); lia.
    + intros r Hr. destruct (Hcl r Hr) as [x Hx].
      destruct (decide (r = p)) as [->|Hrp].
      * exfalso. pose proof (children_delete mem q eq p Hq) as Hd2.
        unfold indicator in Hd2. rewrite decide_True in Hd2 by done. lia.
      * rewrite lookup_delete_ne by done. by eexists.
  - intros q Hq. unfold handed_up.
    destruct (decide (q = p)) as [->|Hne]; first done.
    rewrite lookup_delete_ne in Hq by done.
    destruct (decide (parent e = Some q)) as [Hpar|_].
    + destruct (Hclp q Hpar) as [x Hx]. congruence.
    + by apply Hdead.
Qed.

Lemma unref_accounted fuel : forall owners (mem : memory) entry,
  accounted owners mem ->
  (forall p, entry = Some p -> 0 < owners p) ->
  size mem <= fuel ->
  exists mem',
    cogl_matrix_entry_unref fuel mem entry = Some mem'
    /\ accounted (release owners entry) mem'.
Proof.
  induction fuel as [|fuel IH]; intros owners mem entry Hacc Hown Hsize.
  - destruct entry as [p|].
    + destruct (accounted_live owners mem p Hacc (Hown p eq_refl)) as [e Hp].
      exfalso. assert (size mem <> 0); last lia.
      apply map_size_ne_0_lookup_2 with p. by exists e.
    + exists mem. split; first done.
      by apply (accounted_ext owners).
  - destruct entry as [p|]; last first.
    { exists mem. split; first done. by apply (accounted_ext owners). }
    pose proof (Hown p eq_refl) as Hp0.
    destruct (accounted_live owners mem p Hacc Hp0) as [e Hp].
    pose proof Hacc as [Hlive Hdead].
    destruct (Hlive p e Hp) as (Hcount & Hpos & Hclp).
    cbn [cogl_matrix_entry_unref]. rewrite Hp.
    assert ((INT_MIN <? ref_count e)%Z = true) as ->.
    { apply Z.ltb_lt. unfold INT_MIN. lia. }
    destruct (ref_count e - 1 <=? 0)%Z eqn:Hle.
    + apply Z.leb_le in Hle. assert (Hrc : ref_count e = 1%Z) by lia.
      destruct (accounted_delete owners mem p e Hacc Hp Hrc Hp0)
        as [Hacc1 Hself].
      destruct (IH (handed_up owners p (parent e)) (delete p mem) (parent e))
        as (mem' & Hrun & Hacc').
      * done.
      * intros q Hq. unfold handed_up.
        rewrite decide_False by congruence.
        rewrite decide_True by done. lia.
      * rewrite map_size_delete_Some by by eexists.
        lia.
      * exists mem'. split; first done.
        eapply accounted_ext; last exact Hacc'.
        intros q. unfold release, handed_up.
        destruct (decide (Some p = Some q)) as [Heq|Hne].
        -- simplify_eq. rewrite decide_False by done.
           rewrite decide_True by done. lia.
        -- rewrite (decide_False (P := q = p)) by congruence.
           destruct (decide (parent e = Some q)); simpl; lia.
    + apply Z.leb_gt in Hle.
      eexists. split; first done.
      apply (accounted_update owners _ mem p e (ref_count e - 1));
        [done|done| | |].
      * unfold release. rewrite decide_True by done. lia.
      * lia.
      * intros q Hq. unfold release. rewrite decide_False; congruence.
Qed.

Lemma ref_accounted owners (mem : memory) entry :
  accounted owners mem ->
  (forall p, entry = Some p ->
     exists e, mem !! p = Some e /\ (ref_count e < INT_MAX)%Z) ->
  exists mem',
    cogl_matrix_entry_ref mem entry = Some mem'
    /\ accounted (acquire owners entry) mem'.
Proof.
  intros Hacc Hentry. destruct entry as [p|]; last first.
  { exists mem. split; first done. by apply (accounted_ext owners). }
  destruct (Hentry p eq_refl) as (e & Hp & Hmax).
  cbn [cogl_matrix_entry_ref]. rewrite Hp.
  apply Z.ltb_lt in Hmax as ->.
  eexists. split; first done.
  pose proof Hacc as [Hlive _].
  destruct (Hlive p e Hp) as (Hcount & Hpos & _).
  apply (accounted_update owners _ mem p e (ref_count e + 1));
    [done|done| | |].
  - unfold acquire. rewrite decide_True by done. lia.
  - lia.
  - intros q Hq. unfold acquire. rewrite decide_False; congruence.
Qed.

Lemma chain_length_le_size (mem : memory) entry l :
  chain mem entry l -> length l <= size mem.
Proof.
  intros Hc. pose proof (chain_NoDup mem entry l Hc) as Hnd.
  rewrite <- (length_fmap fst l).
  rewrite <- (size_list_to_set (C := gset nat) (l.*1)) by done.
  rewrite <- (size_dom (D := gset nat) mem).
  apply subseteq_size. intros q Hq.
  apply elem_of_list_to_set in Hq.
  apply elem_of_dom. by eapply chain_lookup_fst.
Qed.

Lemma same_shape_refl l : same_shape l l.
Proof. unfold same_shape. induction l; constructor; auto. Qed.

Lemma same_shape_trans l1 l2 l3 :
  same_shape l1 l2 -> same_shape l2 l3 -> same_shape l1 l3.
Proof.
  unfold same_shape. intros H12. revert l3.
  induction H12 as [|x y l1 l2 (Ha & Hb & Hc) _ IH]; intros l3 H23.
  - by inversion H23.
  - inversion H23 as [|y' z l2' l3' (Ha' & Hb' & Hc') Hrest]; subst.
    constructor; last by apply IH.
    repeat split; congruence.
Qed.

Lemma chain_survives owners' (mem mem' : memory) l : forall p,
  accounted owners' mem' -> untouched mem mem' ->
  chain mem (Some p) l -> is_Some (mem' !! p) ->
  exists l', chain mem' (Some p) l' /\ same_shape l l'.
Proof.
  induction l as [|[p0 e] l IH]; intros p Hacc Hunt Hc [e' Hp'].
  { simpl in Hc. done. }
  destruct Hc as (Heq & Hp & Hc). simplify_eq.
  destruct (Hunt p0 e Hp) as [Hnone|(e'' & Hp'' & Hfull & Hpar)];
    first congruence.
  simplify_eq.
  destruct (parent e) as [up|] eqn:Hup.
  - destruct Hacc as [Hlive Hdead].
    destruct (Hlive p0 e' Hp') as (_ & _ & Hcl).
    destruct (IH up) as (l' & Hc' & Hshape); try done.
    { by apply Hcl. }
    exists ((p0, e') :: l'). split.
    + simpl. rewrite Hpar. done.
    + constructor; last done. simpl. rewrite Hup. done.
  - destruct l as [|[? ?] ?]; last by destruct Hc.
    exists [(p0, e')]. split.
    + simpl. rewrite Hpar. done.
    + constructor; last constructor. simpl. rewrite Hup. done.
Qed.

Lemma grounded_survives owners' (mem mem' : memory) :
  accounted owners' mem' -> untouched mem mem' ->
  (forall q, mem !! q = None -> mem' !! q = None) ->
  grounded mem -> grounded mem'.
Proof.
  intros Hacc Hunt Hnew Hg p Hp.
  destruct (mem !! p) as [e|] eqn:Hlive; last first.
  { apply Hnew in Hlive. destruct Hp. congruence. }
  destruct (Hg p) as [l Hc]; first by eexists.
  destruct (chain_survives owners' mem mem' l p Hacc Hunt Hc Hp) as (l' & Hc' & _).
  by exists l'.
Qed.

Lemma grounded_insert_fresh (mem : memory) n e :
  mem !! n = None ->
  (forall t, parent e = Some t -> is_Some (mem !! t)) ->
  grounded mem -> grounded (<[n := e]> mem).
Proof.
  intros Hn Hpar Hg p Hp.
  destruct (decide (p = n)) as [->|Hne].
  - destruct (parent e) as [t|] eqn:Ht.
    + destruct (Hg t (Hpar t eq_refl)) as [l Hc].
      exists ((n, e) :: l). simpl. rewrite lookup_insert_eq, Ht.
      split; first done. split; first done. by apply chain_insert_fresh.
    + exists [(n, e)]. simpl. by rewrite lookup_insert_eq, Ht.
  - rewrite lookup_insert_ne in Hp by done.
    destruct (Hg p Hp) as [l Hc]. exists l. by apply chain_insert_fresh.
Qed.

Lemma accounted_insert_fresh owners (mem : memory) n stack operation :
  accounted owners mem -> holds owners stack -> mem !! n = None ->
  accounted (moved owners (last_entry stack) (Some n))
    (<[n := {| parent := last_entry stack; ref_count := 1;
               full := operation |}]> mem).
Proof.
  intros Hacc Hholds Hn.
  pose proof Hacc as [Hlive Hdead].
  assert (Hchn : children mem n = 0).
  { unfold children. apply map_size_empty_iff, map_empty. intros q.
    apply map_lookup_filter_None. right. intros e Hq Hpar. simpl in Hpar.
    destruct (Hlive q e Hq) as (_ & _ & Hcl).
    destruct (Hcl n Hpar) as [x Hx]. congruence. }
  set (new := {| parent := last_entry stack; ref_count := 1;
                 full := operation |}).
  split.
  - intros q e Hq.
    rewrite (children_insert_fresh mem n new q Hn).
    unfold moved, release, acquire, indicator. simpl.
    destruct (decide (q = n)) as [->|Hne].
    + rewrite lookup_insert_eq in Hq. simplify_eq. simpl.
      rewrite Hchn, (Hdead n Hn).
      rewrite (decide_True (P := Some n = Some n)) by done.
      assert (last_entry stack <> Some n) as Hne.
      { intros Heq. apply Hholds in Heq. rewrite (Hdead n Hn) in Heq. lia. }
      rewrite !decide_False by done.
      split; first lia. split; first lia.
      intros t Ht. rewrite lookup_insert_ne by congruence.
      apply (accounted_live owners mem t Hacc). by apply Hholds.
    + rewrite lookup_insert_ne in Hq by done.
      destruct (Hlive q e Hq) as (H1 & H2 & Hcl).
      rewrite (decide_False (P := Some n = Some q)) by congruence.
      split; [|split; [done|]].
      * destruct (decide (last_entry stack = Some q)) as [Ht|Ht].
        -- apply Hholds in Ht. lia.
        -- lia.
      * intros r Hr. destruct (Hcl r Hr) as [x Hx].
        rewrite lookup_insert_ne by congruence. by eexists.
  - intros q Hq. apply lookup_insert_None in Hq as [Hq Hne].
    unfold moved, release, acquire.
    rewrite (decide_False (P := Some n = Some q)) by congruence.
    rewrite (Hdead q Hq). by destruct (decide _).
Qed.

Lemma push_operation_accounted owners (mem : memory) stack operation :
  accounted owners mem -> holds owners stack ->
  exists mem' entry,
    _cogl_matrix_stack_push_operation mem stack operation =
      Some (mem', {| last_entry := Some entry |})
    /\ mem !! entry = None
    /\ mem' = <[entry := {| parent := last_entry stack; ref_count := 1;
                            full := operation |}]> mem
    /\ accounted (moved owners (last_entry stack) (Some entry)) mem'
    /\ (grounded mem -> grounded mem').
Proof.
  intros Hacc Hholds.
  rewrite push_operation_eq.
  set (n := _cogl_magazine_chunk_alloc mem).
  assert (Hn : mem !! n = None) by apply chunk_alloc_fresh.
  eexists _, n. split; first done. split; first done. split; first done.
  split; first by apply accounted_insert_fresh.
  apply grounded_insert_fresh; first done. simpl. intros t Ht.
  apply (accounted_live owners mem t Hacc). by apply Hholds.
Qed.

Lemma ref_untouched (mem : memory) entry mem' :
  cogl_matrix_entry_ref mem entry = Some mem' -> untouched mem mem'.
Proof.
  intros Href q e Hq. pose proof (ref_frame mem entry mem' q Href) as Hf.
  rewrite Hq in Hf. by right.
Qed.

Lemma unref_untouched fuel (mem : memory) entry mem' :
  cogl_matrix_entry_unref fuel mem entry = Some mem' -> untouched mem mem'.
Proof.
  intros Hun q e Hq. pose proof (unref_frame fuel mem entry mem' q Hun) as Hf.
  by rewrite Hq in Hf.
Qed.

Lemma ref_size (mem : memory) entry mem' :
  cogl_matrix_entry_ref mem entry = Some mem' -> size mem' = size mem.
Proof.
  destruct entry as [p|]; simpl; last by intros [= ->].
  destruct (mem !! p) as [e|] eqn:Hp; last done.
  destruct (_ <? _)%Z; last done. intros [= <-].
  apply map_size_insert_Some. by eexists.
Qed.

Lemma ref_sound owners (mem : memory) entry :
  accounted owners mem ->
  (forall p, entry = Some p ->
     exists e, mem !! p = Some e /\ (ref_count e < INT_MAX)%Z) ->
  exists mem',
    cogl_matrix_entry_ref mem entry = Some mem'
    /\ accounted (acquire owners entry) mem'
    /\ size mem' = size mem
    /\ (grounded mem -> grounded mem')
    /\ (forall snap l, chain mem (Some snap) l ->
          exists l', chain mem' (Some snap) l' /\ same_shape l l').
Proof.
  intros Hacc Hentry.
  destruct (ref_accounted owners mem entry Hacc Hentry) as (mem' & Href & Hacc').
  exists mem'. split; first done. split; first done.
  split; first by eapply ref_size.
  split.
  { apply (grounded_survives _ mem mem' Hacc'); first by eapply ref_untouched.
    intros q Hq. pose proof (ref_frame mem entry mem' q Href) as Hf.
    by rewrite Hq in Hf. }
  intros snap l Hc.
  eapply chain_survives; [exact Hacc'|by eapply ref_untouched|done|].
  destruct l as [|[p e] l]; first done.
  destruct Hc as (Heq & Hp & _). simplify_eq.
  pose proof (ref_frame mem entry mem' p Href) as Hf. rewrite Hp in Hf.
  destruct Hf as (e' & He' & _). by eexists.
Qed.

Lemma unref_sound fuel owners (mem : memory) entry :
  accounted owners mem ->
  (forall p, entry = Some p -> 0 < owners p) ->
  size mem <= fuel ->
  exists mem',
    cogl_matrix_entry_unref fuel mem entry = Some mem'
    /\ accounted (release owners entry) mem'
    /\ (grounded mem -> grounded mem')
    /\ (forall snap l, 0 < release owners entry snap ->
          chain mem (Some snap) l ->
          exists l', chain mem' (Some snap) l' /\ same_shape l l').
Proof.
  intros Hacc Hown Hsize.
  destruct (unref_accounted fuel owners mem entry Hacc Hown Hsize)
    as (mem' & Hun & Hacc').
  exists mem'. split; first done. split; first done.
  split.
  { apply (grounded_survives _ mem mem' Hacc'); first by eapply unref_untouched.
    intros q Hq. pose proof (unref_frame fuel mem entry mem' q Hun) as Hf.
    by rewrite Hq in Hf. }
  intros snap l Hsnap Hc.
  eapply chain_survives; [exact Hacc'|by eapply unref_untouched|done|].
  by eapply accounted_live.
Qed.

Lemma chain_split_at_save (l : list (ptr * CoglMatrixEntry)) :
  l <> [] ->
  exists above nt ent below,
    l = above ++ (nt, ent) :: below
    /\ Forall (fun pe => is_save pe.2 = false) above
    /\ (is_save ent = true \/ below = []).
Proof.
  induction l as [|[p e] l IH]; first done. intros _.
  destruct (is_save e) eqn:Hs.
  { exists [], p, e, l. split; first done. split; first constructor. by left. }
  destruct l as [|x l].
  { exists [], p, e, []. split; first done. split; first constructor. by right. }
  destruct IH as (above & nt & ent & below & Heq & Hab & Hend); first done.
  exists ((p, e) :: above), nt, ent, below. rewrite Heq.
  split; first done. split; last done.
  constructor; done.
Qed.

Lemma pop_sound fuel owners (mem : memory) stack above s save below :
  accounted owners mem -> holds owners stack -> bounded mem ->
  chain mem (last_entry stack) (above ++ (s, save) :: below) ->
  Forall (fun pe => is_save pe.2 = false) above ->
  is_save save = true ->
  size mem <= fuel ->
  exists mem',
    cogl_matrix_stack_pop fuel mem stack =
      Some (mem', {| last_entry := parent save |})
    /\ accounted (moved owners (last_entry stack) (parent save)) mem'
    /\ (grounded mem -> grounded mem')
    /\ (forall snap l, 0 < release owners (last_entry stack) snap ->
          chain mem (Some snap) l ->
          exists l', chain mem' (Some snap) l' /\ same_shape l l').
Proof.
  intros Hacc Hholds Hbound Hc Habove Hsave Hsize.
  pose proof (chain_length_le_size _ _ _ Hc) as Hlen.
  rewrite length_app in Hlen. simpl in Hlen.
  destruct (pop_find_save_spec fuel mem _ above s save below Hc Habove Hsave)
    as (old_top & Htop & Hfind); first lia.
  unfold cogl_matrix_stack_pop. rewrite Htop, Hfind.
  destruct (ref_sound owners mem (parent save) Hacc)
    as (mem1 & Href & Hacc1 & Hsize1 & Hg1 & Hsurv1).
  { intros p Hp. apply chain_app_inv in Hc. simpl in Hc.
    destruct Hc as (_ & _ & Hc). rewrite Hp in Hc.
    destruct below as [|[q e] below]; first done.
    destruct Hc as (Heq & Hq & _). simplify_eq.
    exists e. split; first done. by eapply Hbound. }
  rewrite Href.
  destruct (unref_sound fuel (acquire owners (parent save)) mem1 (Some old_top)
              Hacc1) as (mem2 & Hun & Hacc2 & Hg2 & Hsurv2).
  { intros p [= <-]. unfold acquire. pose proof (Hholds old_top Htop).
    destruct (decide _); lia. }
  { lia. }
  rewrite Hun. exists mem2. split; first done.
  split; first done.
  split; first by auto.
  intros snap l Hsnap Hcs.
  destruct (Hsurv1 snap l Hcs) as (l1 & Hc1 & Hs1).
  assert (0 < release (acquire owners (parent save)) (Some old_top) snap)
    as Hsnap2.
  { clear -Hsnap. unfold release, acquire in *.
    repeat case_decide; simplify_eq; lia. }
  destruct (Hsurv2 snap l1 Hsnap2 Hc1) as (l2 & Hc2 & Hs2).
  exists l2. split; first done. by eapply same_shape_trans.
Qed.

Lemma replacement_sound fuel owners (mem : memory) stack l operation :
  accounted owners mem -> holds owners stack -> bounded mem ->
  chain mem (last_entry stack) l -> l <> [] ->
  size mem <= fuel ->
  exists mem' entry e,
    _cogl_matrix_stack_push_replacement_entry fuel mem stack operation =
      Some (mem', {| last_entry := Some entry |})
    /\ mem' !! entry = Some e /\ full e = operation
    /\ accounted (moved owners (last_entry stack) (Some entry)) mem'
    /\ (grounded mem -> grounded mem')
    /\ (forall snap ls, 0 < release owners (last_entry stack) snap ->
          chain mem (Some snap) ls ->
          exists ls', chain mem' (Some snap) ls' /\ same_shape ls ls').
Proof.
  intros Hacc Hholds Hbound Hc Hne Hsize.
  destruct (chain_split_at_save l Hne)
    as (above & nt & ent & below & -> & Habove & Hend).
  pose proof (chain_length_le_size _ _ _ Hc) as Hlen.
  rewrite length_app in Hlen. simpl in Hlen.
  destruct (replacement_new_top_spec fuel mem _ above nt ent below
              Hc Habove Hend) as (old_top & Htop & Hfind); first lia.
  unfold _cogl_matrix_stack_push_replacement_entry. rewrite Htop, Hfind.
  assert (Hnt : mem !! nt = Some ent).
  { eapply chain_lookup; first exact Hc.
    apply elem_of_app. right. by left. }
  destruct (ref_sound owners mem (Some nt) Hacc)
    as (mem1 & Href & Hacc1 & Hsize1 & Hg1 & Hsurv1).
  { intros p [= <-]. exists ent. split; first done. by eapply Hbound. }
  rewrite Href.
  pose proof (Hholds old_top Htop) as Hot.
  destruct (unref_sound fuel (acquire owners (Some nt)) mem1 (Some old_top)
              Hacc1) as (mem2 & Hun & Hacc2 & Hg2 & Hsurv2).
  { intros p [= <-]. unfold acquire. destruct (decide _); lia. }
  { lia. }
  rewrite Hun.
  set (owners2 := release (acquire owners (Some nt)) (Some old_top)) in *.
  assert (Hnt2 : 0 < owners2 nt).
  { unfold owners2, release, acquire. rewrite (decide_True (P := Some nt = Some nt)) by done.
    destruct (decide (Some old_top = Some nt)); simplify_eq; lia. }
  destruct (push_operation_accounted owners2 mem2 {| last_entry := Some nt |}
              operation Hacc2) as (mem3 & n & Hpush & Hn & Hmem3 & Hacc3 & Hg3).
  { intros t [= <-]. done. }
  rewrite Hpush. exists mem3, n. eexists.
  split; first done.
  split. { rewrite Hmem3. apply lookup_insert_eq. }
  split; first done.
  assert (Hnnt : n <> nt).
  { intros ->. destruct (accounted_live owners2 mem2 nt Hacc2 Hnt2). congruence. }
  split; [|split].
  - eapply accounted_ext; last exact Hacc3.
    intros q. simpl. unfold moved, owners2, release, acquire.
    repeat case_decide; simplify_eq; lia.
  - auto.
  - intros snap ls Hsnap Hcs.
    destruct (Hsurv1 snap ls Hcs) as (l1 & Hc1 & Hs1).
    assert (0 < release (acquire owners (Some nt)) (Some old_top) snap)
      as Hsnap2.
    { clear -Hsnap. unfold release, acquire in *.
      repeat case_decide; simplify_eq; lia. }
    destruct (Hsurv2 snap l1 Hsnap2 Hc1) as (l2 & Hc2 & Hs2).
    exists l2. split; last by eapply same_shape_trans.
    rewrite Hmem3. by apply chain_insert_fresh.
Qed.

Lemma chain_split_first_save (l : list (ptr * CoglMatrixEntry)) :
  Exists (fun pe => is_save pe.2 = true) l ->
  exists above s save below,
    l = above ++ (s, save) :: below
    /\ Forall (fun pe => is_save pe.2 = false) above
    /\ is_save save = true.
Proof.
  induction l as [|[p e] l IH]; intros Hex; first by inversion Hex.
  destruct (is_save e) eqn:Hs.
  { exists [], p, e, l. split; first done. split; first constructor. done. }
  inversion Hex as [? ? Hhd|? ? Htl]; subst; first (simpl in Hhd; congruence).
  destruct (IH Htl) as (above & s & save & below & -> & Hab & Hsave).
  exists ((p, e) :: above), s, save, below.
  split; first done. split; last done. by constructor.
Qed.

Lemma accounted_check_spec refs (mem : memory) :
  accounted_check refs mem = true -> accounted (owned_by refs) mem.
Proof.
  unfold accounted_check. intros Hck. apply andb_true_iff in Hck as [H1 H2].
  rewrite forallb_forall in H1, H2. split.
  - intros p e Hp.
    assert (Hin : In (p, e) (map_to_list mem)).
    { apply list_elem_of_In, elem_of_map_to_list. done. }
    apply H1 in Hin. simpl in Hin.
    apply andb_true_iff in Hin as [Hin Hc].
    apply andb_true_iff in Hin as [Ha Hb].
    apply Z.eqb_eq in Ha. apply Z.ltb_lt in Hb.
    split; first done. split; first done.
    intros q Hq. rewrite Hq in Hc. by apply bool_decide_eq_true in Hc.
  - intros p Hp. unfold owned_by.
    destruct (filter (λ r, r = p) refs) as [|r l] eqn:E; first done.
    assert (r ∈ filter (λ r, r = p) refs) as Hin by (rewrite E; left).
    apply list_elem_of_filter in Hin as [-> Hin].
    apply list_elem_of_In, H2, bool_decide_eq_true in Hin.
    destruct Hin. congruence.
Qed.

Lemma holds_moved owners stack new :
  holds owners stack ->
  holds (moved owners (last_entry stack) new) {| last_entry := new |}.
Proof.
  intros Hholds t Ht. simpl in Ht. subst new.
  unfold moved, release, acquire. rewrite (decide_True (P := Some t = Some t)) by done.
  destruct (decide (last_entry stack = Some t)) as [Heq|]; last lia.
  apply Hholds in Heq. lia.
Qed.

Lemma composite_same_shape l : forall l' matrix,
  same_shape l l' -> composite matrix l = composite matrix l'.
Proof.
  induction l as [|[p e] l IH]; intros l' matrix Hs.
  - by inversion Hs.
  - inversion Hs as [|? [p' e'] ? l'' (Ha & Hb & Hc) Hrest]; subst.
    simpl in *. rewrite <- Hc.
    unfold apply_operation. rewrite <- Hc.
    destruct (full e) as [| | | | | | |c v]; try done; try by apply IH.
    destruct c, v; try done; by rewrite (IH l'' _ Hrest).
Qed.

Lemma operate_sound fuel owners (mem : memory) stack o l :
  accounted owners mem -> holds owners stack -> bounded mem ->
  chain mem (last_entry stack) l -> l <> [] ->
  (needs_save o = true -> Exists (fun pe => is_save pe.2 = true) l) ->
  size mem <= fuel ->
  exists mem' stack',
    operate fuel mem stack o = Some (mem', stack')
    /\ accounted (moved owners (last_entry stack) (last_entry stack')) mem'
    /\ holds (moved owners (last_entry stack) (last_entry stack')) stack'
    /\ (grounded mem -> grounded mem')
    /\ (forall snap ls, 0 < release owners (last_entry stack) snap ->
          chain mem (Some snap) ls ->
          exists ls', chain mem' (Some snap) ls' /\ same_shape ls ls').
Proof.
  intros Hacc Hholds Hbound Hc Hne Hsave Hsize.
  assert (Happend : forall operation, exists mem' stack',
    _cogl_matrix_stack_push_operation mem stack operation = Some (mem', stack')
    /\ accounted (moved owners (last_entry stack) (last_entry stack')) mem'
    /\ holds (moved owners (last_entry stack) (last_entry stack')) stack'
    /\ (grounded mem -> grounded mem')
    /\ (forall snap ls, 0 < release owners (last_entry stack) snap ->
          chain mem (Some snap) ls ->
          exists ls', chain mem' (Some snap) ls' /\ same_shape ls ls')).
  { intros operation.
    destruct (push_operation_accounted owners mem stack operation Hacc Hholds)
      as (mem' & n & Hpush & Hn & Hmem' & Hacc' & Hg').
    exists mem', {| last_entry := Some n |}.
    split; first done. split; first done.
    split; first by apply holds_moved.
    split; first done.
    intros snap ls _ Hcs. exists ls. split; last apply same_shape_refl.
    rewrite Hmem'. by apply chain_insert_fresh. }
  assert (Hreplace : forall operation, exists mem' stack',
    _cogl_matrix_stack_push_replacement_entry fuel mem stack operation
      = Some (mem', stack')
    /\ accounted (moved owners (last_entry stack) (last_entry stack')) mem'
    /\ holds (moved owners (last_entry stack) (last_entry stack')) stack'
    /\ (grounded mem -> grounded mem')
    /\ (forall snap ls, 0 < release owners (last_entry stack) snap ->
          chain mem (Some snap) ls ->
          exists ls', chain mem' (Some snap) ls' /\ same_shape ls ls')).
  { intros operation.
    destruct (replacement_sound fuel owners mem stack l operation
                Hacc Hholds Hbound Hc Hne Hsize)
      as (mem' & n & e & Hrun & _ & _ & Hacc' & Hg' & Hsurv).
    exists mem', {| last_entry := Some n |}.
    split; first done. split; first done.
    split; first by apply holds_moved. done. }
  destruct o as [m| |].
  - destruct m; simpl; first [apply Happend | apply Hreplace].
  - apply Happend.
  - destruct (chain_split_first_save l (Hsave eq_refl))
      as (above & s & save & below & -> & Hab & Hs).
    destruct (pop_sound fuel owners mem stack above s save below
                Hacc Hholds Hbound Hc Hab Hs Hsize)
      as (mem' & Hrun & Hacc' & Hg' & Hsurv).
    exists mem', {| last_entry := parent save |}.
    split; first done. split; first done.
    split; first by apply holds_moved. done.
Qed.

Lemma chain_parent_elem (mem : memory) entry l c ec p :
  chain mem entry l -> c ∈ l.*1 -> mem !! c = Some ec ->
  parent ec = Some p -> p ∈ l.*1.
Proof.
  revert entry. induction l as [|[p0 e0] l IH]; intros entry Hc Hin Hlook Hpar.
  { simpl in Hin. by apply elem_of_nil in Hin. }
  destruct Hc as (-> & Hp0 & Hc). simpl in Hin.
  apply elem_of_cons in Hin as [->|Hin].
  - simplify_eq. rewrite Hpar in Hc.
    destruct l as [|[p1 e1] l]; first done.
    destruct Hc as (Heq & _). simplify_eq. simpl. right. left.
  - simpl. right. eapply IH; eauto.
Qed.

Lemma children_pos_inv (mem : memory) p :
  0 < children mem p ->
  exists c ec, mem !! c = Some ec /\ parent ec = Some p.
Proof.
  unfold children. intros Hpos.
  destruct (map_choose (filter (λ pe : nat * CoglMatrixEntry,
                                  parent pe.2 = Some p) mem))
    as (c & ec & Hc).
  { apply map_size_non_empty_iff. lia. }
  apply map_lookup_filter_Some in Hc as [Hc Hpar]. by exists c, ec.
Qed.

Lemma owned_ancestor owners (mem : memory) :
  accounted owners mem ->
  forall k p l, chain mem (Some p) l -> size mem - length l <= k ->
  exists q lq, 0 < owners q /\ chain mem (Some q) lq /\ p ∈ lq.*1.
Proof.
  intros Hacc. induction k as [|k IH]; intros p l Hc Hk.
  all: destruct l as [|[p0 e] l]; first done.
  all: pose proof Hc as (Heq & Hp & Hc'); simplify_eq.
  all: destruct (decide (0 < owners p0)) as [Hown|Hown];
    [exists p0, ((p0, e) :: l); split; [done|]; split; [done|]; simpl; left|].
  all: destruct Hacc as [Hlive Hdead].
  all: destruct (Hlive p0 e Hp) as (Hcount & Hpos & _).
  all: destruct (children_pos_inv mem p0) as (c & ec & Hcl & Hpar); first lia.
  all: assert (Hcc : chain mem (Some c) ((c, ec) :: (p0, e) :: l))
    by (simpl; rewrite Hpar; done).
  all: pose proof (chain_length_le_size _ _ _ Hcc) as Hlen; simpl in Hlen, Hk.
  - lia.
  - destruct (IH c _ Hcc) as (q & lq & Hq & Hcq & Hin); first (simpl; lia).
    exists q, lq. split; first done. split; first done.
    by eapply chain_parent_elem.
Qed.

Lemma reaches_null_chain fuel : forall (mem : memory) x,
  reaches_null fuel mem x = true -> exists l, chain mem x l.
Proof.
  induction fuel as [|fuel IH]; intros mem x Hr.
  all: destruct x as [p|]; [|by exists []].
  all: simpl in Hr; try done.
  destruct (mem !! p) as [e|] eqn:Hp; last done.
  destruct (IH mem (parent e) Hr) as [l Hl].
  by exists ((p, e) :: l).
Qed.

Lemma grounded_check_spec (mem : memory) :
  grounded_check mem = true -> grounded mem.
Proof.
  unfold grounded_check. intros Hck p [e Hp].
  rewrite forallb_forall in Hck.
  apply (reaches_null_chain (size mem)). apply (Hck (p, e)).
  by apply list_elem_of_In, elem_of_map_to_list.
Qed.

Lemma bounded_check_spec (mem : memory) :
  bounded_check mem = true -> bounded mem.
Proof.
  unfold bounded_check. intros Hck p e Hp.
  rewrite forallb_forall in Hck.
  apply Z.ltb_lt. apply (Hck (p, e)).
  by apply list_elem_of_In, elem_of_map_to_list.
Qed.

(** X1.  [cogl_matrix_entry_unref] on a reference that the caller owns
    returns, given one unit of fuel per live entry, and leaves a store
    that is accounted for with that one reference less: every count is
    still the number of owners plus the number of children and no
    parent pointer dangles.  An entry that still has an owner is not
    freed: its chain is there afterwards, with the same parents,
    operations and fields. *)
Theorem unref_keeps_accounting fuel owners (mem : memory) entry :
  accounted owners mem ->
  (forall p, entry = Some p -> 0 < owners p) ->
  size mem <= fuel ->
  exists mem',
    cogl_matrix_entry_unref fuel mem entry = Some mem'
    /\ accounted (release owners entry) mem'
    /\ (grounded mem -> grounded mem')
    /\ (forall snap l, 0 < release owners entry snap ->
          chain mem (Some snap) l ->
          exists l', chain mem' (Some snap) l' /\ same_shape l l').
Proof. apply unref_sound. Qed.

(** X2.  Every call on a stack whose top entry is not [NULL]
    (translate, rotate, scale, multiply, load identity, set, push, and
    pop when the chain holds a save entry) returns, and moves the
    reference of the stack from the old top entry to the new one: the
    store stays accounted for, every chain still ends, and the stack
    holds its new top. *)
Theorem operations_keep_accounting fuel owners (mem : memory) stack o l :
  accounted owners mem -> grounded mem ->
  holds owners stack -> bounded mem ->
  chain mem (last_entry stack) l -> l <> [] ->
  (needs_save o = true -> Exists (fun pe => is_save pe.2 = true) l) ->
  size mem <= fuel ->
  exists mem' stack',
    operate fuel mem stack o = Some (mem', stack')
    /\ accounted (moved owners (last_entry stack) (last_entry stack')) mem'
    /\ grounded mem'
    /\ holds (moved owners (last_entry stack) (last_entry stack')) stack'.
Proof.
  intros Hacc Hg Hholds Hbound Hc Hne Hsave Hsize.
  destruct (operate_sound fuel owners mem stack o l
              Hacc Hholds Hbound Hc Hne Hsave Hsize)
    as (mem' & stack' & Hrun & Hacc' & Hholds' & Hg' & _).
  exists mem', stack'. auto.
Qed.

(** X3.  An entry that has an owner besides the stack (a snapshot taken
    with [cogl_matrix_entry_ref], or the top of another stack) survives
    every call on the stack: its chain goes through the same addresses
    with the same parents, operations and fields, and so has the same
    composite. *)
Theorem snapshots_survive_operations fuel owners (mem : memory) stack o l
    snap ls :
  accounted owners mem ->
  holds owners stack -> bounded mem ->
  chain mem (last_entry stack) l -> l <> [] ->
  (needs_save o = true -> Exists (fun pe => is_save pe.2 = true) l) ->
  size mem <= fuel ->
  0 < release owners (last_entry stack) snap ->
  chain mem (Some snap) ls ->
  exists mem' stack' ls',
    operate fuel mem stack o = Some (mem', stack')
    /\ chain mem' (Some snap) ls'
    /\ same_shape ls ls'
    /\ forall matrix, composite matrix ls' = composite matrix ls.
Proof.
  intros Hacc Hholds Hbound Hc Hne Hsave Hsize Hsnap Hcs.
  destruct (operate_sound fuel owners mem stack o l
              Hacc Hholds Hbound Hc Hne Hsave Hsize)
    as (mem' & stack' & Hrun & _ & _ & _ & Hsurv).
  destruct (Hsurv snap ls Hsnap Hcs) as (ls' & Hc' & Hshape).
  exists mem', stack', ls'. split; first done. split; first done.
  split; first done. intros matrix. symmetry. by apply composite_same_shape.
Qed.

Lemma owned_entry_on_chain owners (mem : memory) :
  accounted owners mem -> grounded mem ->
  forall p, is_Some (mem !! p) ->
    exists q lq, 0 < owners q /\ chain mem (Some q) lq /\ p ∈ lq.*1.
Proof.
  intros Hacc Hg p Hp. destruct (Hg p Hp) as [l Hc].
  by apply (owned_ancestor owners mem Hacc (size mem - length l) p l).
Qed.

(** X4.  In a store that is accounted for and whose chains end, every
    live entry lies on the chain of an owned entry.  So when the stack
    and the context are the only owners, [cogl_matrix_stack_dispose]
    frees every entry but the identity entry of the context: nothing
    is leaked. *)
Theorem dispose_of_last_owner_frees_all fuel owners (mem : memory) stack
    root e :
  accounted owners mem -> grounded mem -> holds owners stack ->
  mem !! root = Some e -> parent e = None ->
  0 < release owners (last_entry stack) root ->
  (forall q, 0 < release owners (last_entry stack) q -> q = root) ->
  size mem <= fuel ->
  (forall p, is_Some (mem !! p) ->
     exists q lq, 0 < owners q /\ chain mem (Some q) lq /\ p ∈ lq.*1)
  /\ exists mem',
       cogl_matrix_stack_dispose fuel mem stack = Some mem'
       /\ is_Some (mem' !! root)
       /\ forall p, is_Some (mem' !! p) -> p = root.
Proof.
  intros Hacc Hg Hholds Hroot Hpar Hown Honly Hsize.
  split; first by apply owned_entry_on_chain.
  destruct (unref_sound fuel owners mem (last_entry stack) Hacc Hholds Hsize)
    as (mem' & Hun & Hacc' & Hg' & _).
  exists mem'. split; first done.
  pose proof (accounted_live _ mem' root Hacc' Hown) as [e' Hroot'].
  split; first by eexists.
  assert (Hpar' : parent e' = None).
  { pose proof (unref_frame fuel mem (last_entry stack) mem' root Hun) as Hf.
    rewrite Hroot in Hf. destruct Hf as [Hf|(e'' & He'' & _ & Hp'')];
      first congruence.
    simplify_eq. by rewrite Hp''. }
  intros p Hp.
  destruct (owned_entry_on_chain _ mem' Hacc' (Hg' Hg) p Hp)
    as (q & lq & Hq & Hcq & Hin).
  apply Honly in Hq as ->.
  destruct lq as [|[r er] lq]; first done.
  destruct Hcq as (Heq & Hr & Hcq). simplify_eq.
  rewrite Hpar' in Hcq. destruct lq as [|[? ?] ?]; last by destruct Hcq.
  simpl in Hin. by apply list_elem_of_singleton in Hin.
Qed.

(** X5.  [cogl_matrix_entry_ref] followed by [cogl_matrix_entry_unref]
    on a live entry gives back the store as it was. *)
Theorem ref_then_unref_restores fuel (mem : memory) p e :
  mem !! p = Some e -> (0 < ref_count e < INT_MAX)%Z ->
  exists mem1,
    cogl_matrix_entry_ref mem (Some p) = Some mem1
    /\ mem1 !! p = Some (with_ref_count e (ref_count e + 1))
    /\ cogl_matrix_entry_unref fuel mem1 (Some p) = Some mem.
Proof.
  intros Hp [Hpos Hmax]. cbn [cogl_matrix_entry_ref]. rewrite Hp.
  assert ((ref_count e <? INT_MAX)%Z = true) as -> by by apply Z.ltb_lt.
  eexists. split; first done.
  split; first by rewrite lookup_insert_eq.
  rewrite (unref_stop fuel _ p (with_ref_count e (ref_count e + 1)));
    [|by rewrite lookup_insert_eq|simpl; lia].
  f_equal. simpl. rewrite insert_insert_eq.
  unfold with_ref_count. simpl.
  replace (ref_count e + 1 - 1)%Z with (ref_count e) by lia.
  apply insert_id. rewrite Hp. by destruct e.
Qed.

Lemma stack_new_then_dispose_total fuel owners (mem : memory) identity e :
  accounted owners mem ->
  mem !! identity = Some e ->
  parent e = None -> (ref_count e < INT_MAX)%Z ->
  exists mem1 stack,
    cogl_matrix_stack_new mem identity = Some (mem1, stack)
    /\ cogl_matrix_stack_get_entry stack = Some identity
    /\ mem1 = <[identity := with_ref_count e (ref_count e + 1)]> mem
    /\ accounted (acquire owners (Some identity)) mem1
    /\ cogl_matrix_stack_dispose fuel mem1 stack = Some mem.
Proof.
  intros Hacc Hid Hpar Hmax.
  destruct (ref_accounted owners mem (Some identity) Hacc)
    as (mem1 & Href & Hacc1).
  { intros p [= <-]. by exists e. }
  unfold cogl_matrix_stack_new. rewrite Href.
  pose proof Href as Href'.
  cbn [cogl_matrix_entry_ref] in Href'. rewrite Hid in Href'.
  assert ((ref_count e <? INT_MAX)%Z = true) as Hlt by by apply Z.ltb_lt.
  rewrite Hlt in Href'. injection Href' as <-.
  unfold _cogl_matrix_stack_push_entry. rewrite lookup_insert_eq. simpl.
  rewrite insert_insert_eq.
  assert (Heq : {| parent := None; ref_count := ref_count e + 1; full := full e |}
                = with_ref_count e (ref_count e + 1)).
  { unfold with_ref_count. by rewrite Hpar. }
  rewrite Heq. rewrite Hpar in Hacc1. rewrite Heq in Hacc1.
  eexists _, _. split; first done. split; first done. split; first done.
  split; first done.
  unfold cogl_matrix_stack_dispose. simpl.
  destruct Hacc as [Hlive _]. destruct (Hlive _ _ Hid) as (_ & Hpos & _).
  rewrite (unref_stop fuel _ identity (with_ref_count e (ref_count e + 1)));
    [|by rewrite lookup_insert_eq|simpl; lia].
  f_equal. rewrite insert_insert_eq. unfold with_ref_count. simpl.
  replace (ref_count e + 1 - 1)%Z with (ref_count e) by lia.
  apply insert_id. rewrite Hid. by destruct e.
Qed.

(** X6.  [cogl_matrix_stack_new] returns a stack whose top is the
    identity entry of the context, with one more reference on that
    entry and a store that is still accounted for;
    [cogl_matrix_stack_dispose] on that stack gives back the store as it
    was before the stack was made. *)
Theorem stack_new_then_dispose fuel owners (mem : memory) identity e :
  accounted owners mem ->
  mem !! identity = Some e ->
  parent e = None -> (ref_count e < INT_MAX)%Z ->
  exists mem1 stack,
    cogl_matrix_stack_new mem identity = Some (mem1, stack)
    /\ cogl_matrix_stack_get_entry stack = Some identity
    /\ mem1 = <[identity := with_ref_count e (ref_count e + 1)]> mem
    /\ accounted (acquire owners (Some identity)) mem1
    /\ cogl_matrix_stack_dispose fuel mem1 stack = Some mem.
Proof. apply stack_new_then_dispose_total. Qed.

(** X7.  [_cogl_matrix_entry_identity_init] at an address that is not
    live makes a load-identity entry that the context owns, in a store
    that stays accounted for; [cogl_matrix_entry_is_identity] answers
    [TRUE] on it, and a stack made on it with [cogl_matrix_stack_new]
    can be disposed of, which gives back the store with that entry. *)
Theorem identity_init_then_new fuel owners (mem : memory) p :
  accounted owners mem -> mem !! p = None ->
  let mem0 := _cogl_matrix_entry_identity_init mem p in
  accounted (acquire owners (Some p)) mem0
  /\ cogl_matrix_entry_is_identity mem0 (Some p) = Some true
  /\ exists mem1 stack,
       cogl_matrix_stack_new mem0 p = Some (mem1, stack)
       /\ cogl_matrix_stack_get_entry stack = Some p
       /\ accounted (acquire (acquire owners (Some p)) (Some p)) mem1
       /\ cogl_matrix_stack_dispose fuel mem1 stack = Some mem0.
Proof.
  intros Hacc Hp mem0.
  assert (Hacc0 : accounted (acquire owners (Some p)) mem0).
  { eapply accounted_ext;
      last exact (accounted_insert_fresh owners mem p {| last_entry := None |}
                    EntryLoadIdentity Hacc ltac:(by intros ? [=]) Hp).
    intros q. unfold moved, release. cbn [last_entry].
    by destruct (decide (None = Some q)). }
  split; first done.
  assert (Hp0 : mem0 !! p = Some {| parent := None; ref_count := 1;
                                    full := EntryLoadIdentity |}).
  { apply lookup_insert_eq. }
  split.
  { unfold cogl_matrix_entry_is_identity. by rewrite Hp0. }
  destruct (stack_new_then_dispose_total fuel (acquire owners (Some p)) mem0 p _
              Hacc0 Hp0)
    as (mem1 & stack & Hnew & Htop & _ & Hacc1 & Hdispose);
    [done|unfold INT_MAX; simpl; lia|].
  by exists mem1, stack.
Qed.

Lemma pop_find_save_none l : forall fuel (mem : memory) p,
  chain mem (Some p) l ->
  Forall (fun pe => is_save pe.2 = false) l ->
  pop_find_save fuel mem p = None.
Proof.
  induction l as [|[p0 e] l IH]; intros fuel mem p Hc Hall; first done.
  destruct Hc as (Heq & Hp & Hc). simplify_eq.
  apply Forall_cons in Hall as [Hs Hall]. simpl in Hs.
  destruct fuel; simpl; rewrite Hp, Hs.
  - by destruct (parent e).
  - destruct (parent e) as [up|] eqn:Hup; last done.
    by apply IH.
Qed.

(** X8.  [cogl_matrix_stack_pop] on a stack whose chain holds no save
    entry (no [push ()] is pending) runs off the chain and dereferences
    [NULL]: it has no result, whatever the fuel. *)
Theorem pop_without_save_is_undefined fuel (mem : memory) stack l :
  chain mem (last_entry stack) l -> l <> [] ->
  Forall (fun pe => is_save pe.2 = false) l ->
  cogl_matrix_stack_pop fuel mem stack = None.
Proof.
  intros Hc Hne Hall. unfold cogl_matrix_stack_pop.
  destruct l as [|[p e] l]; first done.
  pose proof Hc as (Heq & _). rewrite Heq. rewrite Heq in Hc.
  by rewrite (pop_find_save_none _ fuel mem p Hc Hall).
Qed.

End ReferenceAccounting.

Section EvaluationAgain.
Context `{G : Graphene}.
#[local] Abbreviation memory := (gmap nat CoglMatrixEntry).
#[local] Abbreviation I := graphene_matrix_init_identity.

Lemma entry_get_loop fuel (mem : memory) entry mem' matrix internal :
  cogl_matrix_entry_get fuel mem entry = Some (mem', matrix, internal) ->
  exists current depth,
    cogl_matrix_entry_get_loop fuel mem entry graphene_matrix_init_identity 0
      = Some (mem', matrix, current, depth).
Proof.
  unfold cogl_matrix_entry_get.
  destruct (cogl_matrix_entry_get_loop _ _ _ _ _)
    as [[[[mem1 m1] cur] d]|]; last done.
  intros Hget. exists cur, d.
  destruct d.
  - destruct entry as [p|]; last done.
    destruct (mem1 !! p) as [e|]; last done.
    destruct (full e) as [| | | | | | |[c|] v]; by simplify_eq.
  - by simplify_eq.
Qed.

Lemma children_same_parents (mem mem' : memory) q :
  parent <$> mem' = parent <$> mem -> children mem' q = children mem q.
Proof.
  intros Heq. unfold children.
  assert (Hsize : forall m : memory,
    size (filter (λ pe : nat * CoglMatrixEntry, parent pe.2 = Some q) m)
    = size (filter (λ pe : nat * option nat, pe.2 = Some q) (parent <$> m))).
  { intros m. rewrite map_filter_fmap, map_size_fmap. done. }
  by rewrite !Hsize, Heq.
Qed.

Lemma get_loop_structure fuel (mem : memory) entry matrix depth
    mem' matrix' current depth' :
  cogl_matrix_entry_get_loop fuel mem entry matrix depth =
    Some (mem', matrix', current, depth') ->
  forall q,
    match mem !! q with
    | None => mem' !! q = None
    | Some e =>
        exists e', mem' !! q = Some e'
          /\ parent e' = parent e /\ ref_count e' = ref_count e
          /\ op e' = op e /\ (is_save e = false -> e' = e)
    end.
Proof.
  intros Hrun q.
  pose proof (get_loop_frame fuel mem entry matrix depth mem' matrix'
                current depth' Hrun q) as Hf.
  destruct (mem !! q) as [e|]; last done.
  destruct Hf as [Hsame|(c0 & c & Hfull & Hq)].
  - exists e. done.
  - eexists. split; first exact Hq. simpl.
    unfold op, is_save. simpl. rewrite Hfull. done.
Qed.

(** X9.  [cogl_matrix_entry_get] frees and allocates nothing and leaves
    the parent, the reference count and the operation of every entry
    as they were; an entry that is not a save entry is left untouched.
    A store that is accounted for stays so. *)
Theorem get_keeps_structure fuel (mem : memory) entry mem' matrix internal :
  cogl_matrix_entry_get fuel mem entry = Some (mem', matrix, internal) ->
  (forall q,
     match mem !! q with
     | None => mem' !! q = None
     | Some e =>
         exists e', mem' !! q = Some e'
           /\ parent e' = parent e /\ ref_count e' = ref_count e
           /\ op e' = op e /\ (is_save e = false -> e' = e)
     end)
  /\ (forall owners, accounted owners mem -> accounted owners mem').
Proof.
  intros Hget. apply entry_get_loop in Hget as (current & depth & Hrun).
  pose proof (get_loop_structure _ _ _ _ _ _ _ _ _ Hrun) as Hst.
  split; first done.
  assert (Hpar : parent <$> mem' = parent <$> mem).
  { apply map_eq. intros q. rewrite !lookup_fmap. specialize (Hst q).
    destruct (mem !! q) as [e|].
    - destruct Hst as (e' & -> & Hp & _). simpl. by rewrite Hp.
    - by rewrite Hst. }
  intros owners [Hlive Hdead]. split.
  - intros p e' Hp'. rewrite (children_same_parents mem mem' p Hpar).
    pose proof (Hst p) as Hs.
    destruct (mem !! p) as [e|] eqn:Hp; last congruence.
    destruct Hs as (e'' & He'' & Hpe & Hrc & _). simplify_eq.
    destruct (Hlive p e Hp) as (H1 & H2 & Hcl).
    rewrite Hrc. split; first done. split; first done.
    intros q Hq. rewrite Hpe in Hq. destruct (Hcl q Hq) as [x Hx].
    pose proof (Hst q) as Hsq. rewrite Hx in Hsq.
    destruct Hsq as (x' & -> & _). by eexists.
  - intros p Hp'. apply Hdead. pose proof (Hst p) as Hs.
    destruct (mem !! p) as [e|]; last done.
    destruct Hs as (e' & He' & _). congruence.
Qed.

Lemma chain_exists_same_parents (mem mem' : memory) l : forall entry,
  (forall q e, mem !! q = Some e ->
     exists e', mem' !! q = Some e' /\ parent e' = parent e) ->
  chain mem entry l ->
  exists l', chain mem' entry l' /\ l'.*1 = l.*1.
Proof.
  induction l as [|[p e] l IH]; intros entry Hst Hc.
  - exists []. done.
  - destruct Hc as (-> & Hp & Hc).
    destruct (Hst p e Hp) as (e' & Hp' & Hpar).
    destruct (IH (parent e) Hst Hc) as (l' & Hc' & Hfst).
    exists ((p, e') :: l'). split.
    + simpl. rewrite Hpar. done.
    + by rewrite !fmap_cons, Hfst.
Qed.

(** X10.  A second [cogl_matrix_entry_get] on the same entry returns the
    same matrix and the same internal pointer as the first, and leaves
    the store as the first call left it. *)
Theorem get_is_idempotent fuel (mem : memory) entry pre t te rest :
  chain mem entry (pre ++ (t, te) :: rest) ->
  Forall (fun pe => is_terminal pe.2 = false) pre ->
  is_terminal te = true ->
  evaluable ((t, te) :: rest) ->
  length (pre ++ (t, te) :: rest) < fuel ->
  exists mem1 matrix internal,
    cogl_matrix_entry_get fuel mem entry = Some (mem1, matrix, internal)
    /\ cogl_matrix_entry_get fuel mem1 entry = Some (mem1, matrix, internal).
Proof.
  intros Hc Hpre Hterm Hev Hlen.
  destruct (entry_get_spec fuel mem entry pre t te rest Hc Hpre Hterm Hev Hlen)
    as (mem1 & Hget & Ht & _).
  exists mem1. eexists _, _. split; first exact Hget.
  set (c := composite graphene_matrix_init_identity rest) in *.
  set (te' := cache_filled te c) in *.
  pose proof (entry_get_loop _ _ _ _ _ _ Hget) as (cur & d & Hrun).
  pose proof (get_loop_structure _ _ _ _ _ _ _ _ _ Hrun) as Hst.
  assert (Hpar' : parent te' = parent te).
  { unfold te', cache_filled. destruct (full te) as [| | | | | | |? []]; done. }
  (* the chain after the first evaluation *)
  assert (Hc1 : exists rest', chain mem1 entry (pre ++ (t, te') :: rest')
                              /\ length rest' = length rest).
  { assert (Hrest : exists rest', chain mem1 (parent te) rest'
                                  /\ rest'.*1 = rest.*1).
    { apply (chain_exists_same_parents mem mem1 rest).
      - intros q e Hq. specialize (Hst q). rewrite Hq in Hst.
        destruct Hst as (e' & He' & Hp & _). by exists e'.
      - apply chain_app_inv in Hc. simpl in Hc. by destruct Hc as (_ & _ & Hc). }
    destruct Hrest as (rest' & Hcr & Hfst). exists rest'.
    split; last first.
    { rewrite <- (length_fmap fst rest'), Hfst, length_fmap. done. }
    clear Hget Hrun Hlen.
    revert entry Hc. induction pre as [|[p e] pre IH]; intros entry Hc.
    - destruct Hc as (-> & _ & _). simpl. rewrite Hpar'. done.
    - destruct Hc as (-> & Hp & Hc).
      apply Forall_cons in Hpre as [Hnt Hpre']. simpl in Hnt.
      pose proof (Hst p) as Hsp. rewrite Hp in Hsp.
      destruct Hsp as (e' & He' & _ & _ & _ & Hsame).
      assert (Hs : is_save e = false).
      { clear -Hnt. unfold is_terminal, is_save in *.
        by destruct (full e). }
      rewrite (Hsame Hs) in He'.
      simpl. split; first done. split; first done. by apply IH. }
  destruct Hc1 as (rest' & Hc1 & Hlen').
  assert (Hterm' : is_terminal te' = true).
  { clear -Hterm. unfold te', cache_filled, is_terminal in *.
    destruct (full te) as [| | | | | | |? []] eqn:Hfull; simpl;
      rewrite ?Hfull; done. }
  assert (Hev' : evaluable ((t, te') :: rest')).
  { clear -Hterm Hev. unfold is_terminal in Hterm.
    cbn [evaluable] in Hev. cbn [evaluable snd].
    unfold te', cache_filled.
    destruct (full te) as [| | | | | | |[c0|] []] eqn:Hfull;
      cbn [full]; rewrite ?Hfull; done. }
  destruct (entry_get_spec fuel mem1 entry pre t te' rest' Hc1 Hpre Hterm' Hev')
    as (mem2 & Hget2 & _ & Hsame).
  { rewrite length_app in *. simpl in *. lia. }
  rewrite Hget2.
  assert (Hfix : cache_filled te'
                   (composite graphene_matrix_init_identity rest') = te').
  { clear -Hterm Hev. unfold is_terminal in Hterm. cbn [evaluable] in Hev.
    unfold te', cache_filled.
    destruct (full te) as [| | | | | | |[c0|] []] eqn:Hfull;
      cbn [full]; rewrite ?Hfull; done. }
  rewrite (Hsame Hfix). do 2 f_equal.
  - f_equal. rewrite !composite_terminal by done.
    clear -Hterm Hev. unfold is_terminal in Hterm. cbn [evaluable] in Hev.
    unfold te', cache_filled. revert Hterm Hev.
    destruct (full te) as [| | | | | | |[c0|] []] eqn:Hfull; simpl;
      rewrite ?Hfull; done.
  - unfold internal_matrix. destruct pre; last done.
    clear -Hterm Hev. unfold is_terminal in Hterm. cbn [evaluable] in Hev.
    unfold te', cache_filled. revert Hterm Hev.
    destruct (full te) as [| | | | | | |[c0|] []] eqn:Hfull; simpl;
      rewrite ?Hfull; done.
Qed.

(** X11.  When [cogl_matrix_entry_is_identity] answers [TRUE],
    [cogl_matrix_entry_get] returns the identity matrix, no internal
    pointer, and leaves the store untouched. *)
Theorem identity_entry_evaluates_to_identity (mem : memory) entry n :
  cogl_matrix_entry_is_identity mem entry = Some true ->
  cogl_matrix_entry_get (S n) mem entry =
    Some (mem, graphene_matrix_init_identity, None).
Proof.
  unfold cogl_matrix_entry_is_identity, cogl_matrix_entry_get.
  destruct entry as [p|]; last done.
  destruct (mem !! p) as [e|] eqn:Hp; last done.
  destruct (full e) eqn:Hfull; try done. intros _.
  cbn [cogl_matrix_entry_get_loop]. rewrite Hp, Hfull. by rewrite Hp, Hfull.
Qed.

Lemma replacement_top fuel (mem : memory) stack operation mem' stack' :
  _cogl_matrix_stack_push_replacement_entry fuel mem stack operation =
    Some (mem', stack') ->
  exists n e, last_entry stack' = Some n /\ mem' !! n = Some e
    /\ full e = operation.
Proof.
  unfold _cogl_matrix_stack_push_replacement_entry.
  destruct (last_entry stack) as [old_top|]; last done.
  destruct (replacement_new_top fuel mem old_top) as [new_top|]; last done.
  destruct (cogl_matrix_entry_ref mem (Some new_top)) as [mem1|]; last done.
  destruct (cogl_matrix_entry_unref fuel mem1 (Some old_top)) as [mem2|];
    last done.
  rewrite push_operation_eq. intros [= <- <-].
  eexists _, _. split; first done. split; first apply lookup_insert_eq. done.
Qed.

(** X12.  After [cogl_matrix_stack_set (m)], [cogl_matrix_stack_get]
    returns [identity * m] together with a pointer to the stored [m],
    and [cogl_matrix_stack_get_inverse] inverts the stored [m]; after
    [cogl_matrix_stack_load_identity] it returns the identity and
    [cogl_matrix_entry_is_identity] answers [TRUE] on the top entry.
    Neither evaluation changes the store. *)
Theorem replacing_operation_then_get fuel (mem : memory) stack m mem' stack' n :
  appending m = false ->
  mutate fuel mem stack m = Some (mem', stack') ->
  cogl_matrix_stack_get (S n) mem' stack' =
    Some (mem',
          match m with
          | Set_ matrix => graphene_matrix_multiply I matrix
          | _ => I
          end,
          match m with Set_ matrix => Some matrix | _ => None end)
  /\ cogl_matrix_stack_get_inverse (S n) mem' stack' =
       Some (mem',
             graphene_matrix_inverse
               match m with Set_ matrix => matrix | _ => I end)
  /\ cogl_matrix_entry_is_identity mem' (cogl_matrix_stack_get_entry stack') =
       Some match m with LoadIdentity => true | _ => false end.
Proof.
  intros Happ Hrun.
  assert (Htop : exists p e, last_entry stack' = Some p /\ mem' !! p = Some e
                             /\ full e = mutation_entry m).
  { destruct m; try done; by eapply replacement_top. }
  destruct Htop as (p & e & Hp & He & Hfull).
  assert (Hget : cogl_matrix_stack_get (S n) mem' stack' =
    Some (mem',
          match m with
          | Set_ matrix => graphene_matrix_multiply I matrix
          | _ => I
          end,
          match m with Set_ matrix => Some matrix | _ => None end)).
  { unfold cogl_matrix_stack_get, cogl_matrix_entry_get. rewrite Hp.
    cbn [cogl_matrix_entry_get_loop]. rewrite He, Hfull.
    destruct m; try done; simpl; by rewrite He, Hfull. }
  split; first done. split.
  - unfold cogl_matrix_stack_get_inverse. rewrite Hget. by destruct m.
  - unfold cogl_matrix_entry_is_identity, cogl_matrix_stack_get_entry.
    rewrite Hp, He, Hfull. by destruct m.
Qed.

Variable graphene_matrix_init_frustum :
  float -> float -> float -> float -> float -> float -> graphene_matrix_t.
Variable graphene_matrix_init_perspective :
  float -> float -> float -> float -> graphene_matrix_t.
Variable graphene_matrix_init_ortho :
  float -> float -> float -> float -> float -> float -> graphene_matrix_t.

(** X13.  After [cogl_matrix_stack_frustum],
    [cogl_matrix_stack_perspective] or [cogl_matrix_stack_orthographic]
    the stack evaluates to the matrix that graphene built from the
    arguments, whatever was on the stack before; the orthographic
    setter passes [x_1, x_2, y_2, y_1, near, far] to
    [graphene_matrix_init_ortho]. *)
Theorem projection_then_get fuel (mem : memory) stack p mem' stack' n :
  project graphene_matrix_init_frustum graphene_matrix_init_perspective
    graphene_matrix_init_ortho fuel mem stack p = Some (mem', stack') ->
  let matrix :=
    match p with
    | Frustum x_left x_right bottom top z_near z_far =>
        graphene_matrix_init_frustum x_left x_right bottom top z_near z_far
    | Perspective fov_y aspect z_near z_far =>
        graphene_matrix_init_perspective fov_y aspect z_near z_far
    | Orthographic x_1 y_1 x_2 y_2 near far =>
        graphene_matrix_init_ortho x_1 x_2 y_2 y_1 near far
    end in
  cogl_matrix_stack_get (S n) mem' stack' =
    Some (mem', graphene_matrix_multiply I matrix, Some matrix)
  /\ cogl_matrix_stack_get_inverse (S n) mem' stack' =
       Some (mem', graphene_matrix_inverse matrix).
Proof.
  intros Hrun matrix.
  assert (Htop : exists q e, last_entry stack' = Some q /\ mem' !! q = Some e
                             /\ full e = EntryLoad matrix).
  { destruct p; by eapply replacement_top. }
  destruct Htop as (q & e & Hq & He & Hfull).
  assert (Hget : cogl_matrix_stack_get (S n) mem' stack' =
    Some (mem', graphene_matrix_multiply I matrix, Some matrix)).
  { unfold cogl_matrix_stack_get, cogl_matrix_entry_get. rewrite Hq.
    cbn [cogl_matrix_entry_get_loop]. rewrite He, Hfull.
    by rewrite He, Hfull. }
  split; first done.
  unfold cogl_matrix_stack_get_inverse. by rewrite Hget.
Qed.

Lemma settled_fst l : (settled l).*1 = l.*1.
Proof.
  induction l as [|[p e] l IH]; first done. cbn [settled].
  destruct (full e) as [| | | | | | |c []]; rewrite !fmap_cons, ?IH; done.
Qed.

Lemma composite_settled l : forall m, composite m (settled l) = composite m l.
Proof.
  induction l as [|[p e] l IH]; intros m; first done.
  cbn [settled]. destruct (full e) as [| | | | | | |c v] eqn:Hfull.
  1, 7: done.
  1-5: cbn [composite]; rewrite Hfull; unfold apply_operation;
       rewrite Hfull; by rewrite IH.
  destruct v; first done.
  cbn [composite]. unfold cache_filled. rewrite !Hfull. simpl.
  by destruct c.
Qed.

Lemma caches_right_settled l : caches_right l -> caches_right (settled l).
Proof.
  induction l as [|[p e] l IH]; first done.
  intros [Hc Hrest]. cbn [settled].
  destruct (full e) as [| | | | | | |c v] eqn:Hfull.
  1, 7: (cbn [caches_right]; split; [by rewrite Hfull|done]).
  1-5: (cbn [caches_right]; split; [by rewrite Hfull|by auto]).
  destruct v.
  - cbn [caches_right]. split; last done. by rewrite Hfull.
  - cbn [caches_right]. split; last by auto.
    unfold cache_filled. rewrite Hfull. simpl.
    intros c' [= <-]. by rewrite composite_settled.
Qed.

Lemma get_loop_settles l : forall fuel (mem : memory) entry matrix depth,
  chain mem entry l -> evaluable l -> length l < fuel ->
  exists mem' current depth',
    cogl_matrix_entry_get_loop fuel mem entry matrix depth =
      Some (mem', composite matrix l, current, depth')
    /\ chain mem' entry (settled l)
    /\ (forall q, q ∉ l.*1 -> mem' !! q = mem !! q).
Proof.
  induction l as [|[p e] l IH]; intros fuel mem entry matrix depth Hc Hev Hlen.
  { simpl in Hc. subst. destruct fuel; first (simpl in Hlen; lia).
    eexists _, _, _. simpl. done. }
  destruct fuel as [|fuel]; first (simpl in Hlen; lia).
  simpl in Hlen.
  pose proof Hc as (-> & Hp & Hc').
  pose proof (chain_NoDup _ _ _ Hc) as Hnd. simpl in Hnd.
  apply NoDup_cons in Hnd as [Hpl _].
  assert (Hnonterm : evaluable l -> forall matrix',
    exists mem' current depth',
      cogl_matrix_entry_get_loop fuel mem (parent e) matrix' (S depth) =
        Some (mem', composite matrix' l, current, depth')
      /\ chain mem' (Some p) ((p, e) :: settled l)
      /\ (forall q, q ∉ ((p, e) :: l).*1 -> mem' !! q = mem !! q)).
  { intros Hevl matrix'.
    destruct (IH fuel mem (parent e) matrix' (S depth) Hc' Hevl)
      as (mem' & cur & d' & Hrun & Hch & Hfr); first lia.
    exists mem', cur, d'. split; first done. split.
    - simpl. rewrite (Hfr p Hpl). done.
    - intros q Hq. apply Hfr. intros Hin. apply Hq.
      rewrite fmap_cons. by right. }
  cbn [cogl_matrix_entry_get_loop]. rewrite Hp.
  cbn [evaluable] in Hev. cbn [composite settled].
  unfold apply_operation.
  destruct (full e) as [| | | | | | |c v] eqn:Hfull.
  - eexists _, _, _. split; first done. split; first done. done.
  - apply Hnonterm. done.
  - apply Hnonterm. done.
  - apply Hnonterm. done.
  - apply Hnonterm. done.
  - apply Hnonterm. done.
  - eexists _, _, _. split; first done. split; first done. done.
  - destruct v.
    + destruct c as [c|]; last done.
      eexists _, _, _. split; first done. split; first done. done.
    + assert (Hevl : l <> [] /\ evaluable l) by by destruct c.
      destruct Hevl as [Hne Hevl].
      destruct l as [|[up eu] l']; first done.
      pose proof Hc' as (Hup & _). rewrite Hup. rewrite Hup in Hc'.
      destruct (IH fuel mem (Some up) I 0)
        as (mem1 & cur & d' & Hrun & Hch & Hfr);
        [exact Hc'|done|lia|].
      rewrite Hrun.
      eexists _, _, _. split.
      { destruct c; reflexivity. }
      split.
      * cbn [chain]. split; first done. rewrite lookup_insert_eq.
        unfold cache_filled. rewrite Hfull. cbn [parent]. rewrite ?Hup.
        split; first done.
        apply chain_insert_other; last done.
        by rewrite settled_fst.
      * intros q Hq. rewrite fmap_cons in Hq.
        apply not_elem_of_cons in Hq as [Hqp Hq].
        rewrite lookup_insert_ne by done. by apply Hfr.
Qed.

Lemma evaluable_settled l : evaluable l -> evaluable (settled l).
Proof.
  induction l as [|[p e] l IH]; first done.
  cbn [settled evaluable].
  destruct (full e) as [| | | | | | |c v] eqn:Hfull.
  1, 7: by (cbn [evaluable]; rewrite Hfull).
  1-5: (intros Hev; cbn [evaluable]; rewrite Hfull; by apply IH).
  destruct v.
  - cbn [evaluable]. by rewrite Hfull.
  - intros _. cbn [evaluable]. unfold cache_filled. by rewrite Hfull.
Qed.

Lemma split_first_terminal (l : list (ptr * CoglMatrixEntry)) :
  Exists (fun pe => is_terminal pe.2 = true) l ->
  exists pre t te rest,
    l = pre ++ (t, te) :: rest
    /\ Forall (fun pe => is_terminal pe.2 = false) pre
    /\ is_terminal te = true.
Proof.
  induction l as [|[p e] l IH]; intros Hex; first by inversion Hex.
  destruct (is_terminal e) eqn:Hs.
  { exists [], p, e, l. split; first done. split; first constructor. done. }
  inversion Hex as [? ? Hhd|? ? Htl]; subst; first (simpl in Hhd; congruence).
  destruct (IH Htl) as (pre & t & te & rest & -> & Hab & Hte).
  exists ((p, e) :: pre), t, te, rest.
  split; first done. split; last done. by constructor.
Qed.

Lemma evaluable_app pre l :
  Forall (fun pe => is_terminal pe.2 = false) pre ->
  evaluable (pre ++ l) -> evaluable l.
Proof.
  induction pre as [|[p e] pre IH]; first done.
  intros Hpre Hev. apply Forall_cons in Hpre as [Hnt Hpre]. simpl in Hnt.
  apply IH; first done. cbn [app evaluable] in Hev.
  revert Hnt Hev. unfold is_terminal. by destruct (full e).
Qed.

Lemma get_composite fuel (mem : memory) entry l :
  chain mem entry l -> evaluable l ->
  Exists (fun pe => is_terminal pe.2 = true) l ->
  length l < fuel ->
  exists mem' internal,
    cogl_matrix_entry_get fuel mem entry = Some (mem', composite I l, internal).
Proof.
  intros Hc Hev Hex Hlen.
  destruct (split_first_terminal l Hex) as (pre & t & te & rest & -> & Hpre & Hte).
  destruct (entry_get_spec fuel mem entry pre t te rest Hc Hpre Hte)
    as (mem' & Hget & _); [by eapply evaluable_app|done|].
  rewrite Hget. eexists _, _. by rewrite composite_app.
Qed.

(** X14.  When the caches that are marked valid on the chain hold the
    composite of the entries behind them, they still do after
    [cogl_matrix_entry_get]: the evaluation only fills the caches it
    reaches with the composite of their parents' chains, and the new
    chain evaluates to the matrix that was returned. *)
Theorem get_fills_caches_right fuel (mem : memory) entry l :
  chain mem entry l -> evaluable l -> caches_right l ->
  Exists (fun pe => is_terminal pe.2 = true) l ->
  length l < fuel ->
  exists mem' matrix internal,
    cogl_matrix_entry_get fuel mem entry = Some (mem', matrix, internal)
    /\ chain mem' entry (settled l)
    /\ caches_right (settled l)
    /\ evaluable (settled l)
    /\ matrix = composite I (settled l).
Proof.
  intros Hc Hev Hk Hex Hlen.
  destruct (get_composite fuel mem entry l Hc Hev Hex Hlen)
    as (mem' & internal & Hget).
  exists mem', (composite I l), internal. split; first done.
  destruct (entry_get_loop _ _ _ _ _ _ Hget) as (cur & d & Hrun).
  destruct (get_loop_settles l fuel mem entry I 0 Hc Hev Hlen)
    as (mem'' & cur' & d' & Hrun' & Hch & _).
  rewrite Hrun in Hrun'. injection Hrun' as <- _ _.
  split; first done. split; first by apply caches_right_settled.
  split; first by apply evaluable_settled.
  by rewrite composite_settled.
Qed.

End EvaluationAgain.

Section SymmetricEquality.
Context `{G : Graphene}.
#[local] Abbreviation memory := (gmap nat CoglMatrixEntry).

Hypothesis float_eq_sym : forall a b, float_eq a b = float_eq b a.
Hypothesis point3d_equal_sym :
  forall a b, graphene_point3d_equal a b = graphene_point3d_equal b a.
Hypothesis vec3_equal_sym :
  forall a b, graphene_vec3_equal a b = graphene_vec3_equal b a.
Hypothesis euler_equal_sym :
  forall a b, graphene_euler_equal a b = graphene_euler_equal b a.
Hypothesis matrix_equal_sym :
  forall a b, graphene_matrix_equal a b = graphene_matrix_equal b a.

(** X15.  When the comparisons of graphene and [==] on floats are
    symmetric, [cogl_matrix_entry_equal (a, b)] and
    [cogl_matrix_entry_equal (b, a)] give the same answer. *)
Theorem equal_is_symmetric fuel : forall (mem : memory) entry0 entry1,
  cogl_matrix_entry_equal fuel mem entry0 entry1 =
  cogl_matrix_entry_equal fuel mem entry1 entry0.
Proof.
  induction fuel as [|fuel IH]; intros mem entry0 entry1.
  all: destruct entry0 as [a|], entry1 as [b|]; try done.
  all: cbn [cogl_matrix_entry_equal].
  all: destruct (_cogl_matrix_entry_skip_saves _ mem (Some a)) as [p0|];
    destruct (_cogl_matrix_entry_skip_saves _ mem (Some b)) as [p1|];
    try done.
  all: destruct (decide (p0 = p1)) as [->|Hne];
    [by rewrite decide_True|rewrite (decide_False (P := p1 = p0)) by done].
  all: destruct (mem !! p0) as [e0|], (mem !! p1) as [e1|]; try done.
  all: destruct (decide (op e0 = op e1)) as [Hop|Hop];
    [rewrite (decide_True (P := op e1 = op e0)) by done
    |by rewrite (decide_False (P := op e1 = op e0))].
  all: rewrite ?(IH mem (parent e0) (parent e1)).
  all: destruct (full e0), (full e1); try done.
  all: rewrite ?(float_eq_sym angle), ?(float_eq_sym x), ?(float_eq_sym y),
         ?(float_eq_sym z), ?(point3d_equal_sym translate),
         ?(vec3_equal_sym axis), ?(euler_equal_sym euler),
         ?(matrix_equal_sym matrix); done.
Qed.

End SymmetricEquality.

Section Algebra.
Context `{G : Graphene}.
#[local] Abbreviation memory := (gmap nat CoglMatrixEntry).

#[local] Notation "a × b" := (graphene_matrix_multiply a b)
  (at level 40, left associativity).
#[local] Abbreviation I := graphene_matrix_init_identity.

Hypothesis multiply_assoc : forall a b c, (a × b) × c = a × (b × c).
Hypothesis identity_left : forall m, I × m = m.
Hypothesis identity_right : forall m, m × I = m.
Hypothesis translate_post : forall m pos,
  graphene_matrix_translate m pos = m × graphene_matrix_translate I pos.
Hypothesis rotate_post : forall m angle axis,
  graphene_matrix_rotate m angle axis = m × graphene_matrix_rotate I angle axis.
Hypothesis rotate_euler_post : forall m euler,
  graphene_matrix_rotate_euler m euler =
    m × graphene_matrix_rotate_euler I euler.
Hypothesis scale_post : forall m x y z,
  graphene_matrix_scale m x y z = m × graphene_matrix_scale I x y z.

Lemma apply_operation_post m e :
  apply_operation m e = m × apply_operation I e.
Proof.
  unfold apply_operation. destruct (full e); auto.
  by rewrite identity_left.
Qed.

Lemma composite_factor l : forall m, composite m l = m × composite I l.
Proof.
  induction l as [|[p e] l IH]; intros m; simpl.
  { by rewrite identity_right. }
  destruct (full e) as [| | | | | | |c v] eqn:Hfull.
  - by rewrite identity_right.
  - rewrite (IH (apply_operation m e)), (IH (apply_operation I e)).
    by rewrite (apply_operation_post m e), multiply_assoc.
  - rewrite (IH (apply_operation m e)), (IH (apply_operation I e)).
    by rewrite (apply_operation_post m e), multiply_assoc.
  - rewrite (IH (apply_operation m e)), (IH (apply_operation I e)).
    by rewrite (apply_operation_post m e), multiply_assoc.
  - rewrite (IH (apply_operation m e)), (IH (apply_operation I e)).
    by rewrite (apply_operation_post m e), multiply_assoc.
  - rewrite (IH (apply_operation m e)), (IH (apply_operation I e)).
    by rewrite (apply_operation_post m e), multiply_assoc.
  - by rewrite identity_left.
  - destruct c as [c|], v; by rewrite !identity_left.
Qed.

Lemma composite_without_saves l :
  caches_right l -> composite I l = composite I (without_saves l).
Proof.
  induction l as [|[p e] l IH]; first done.
  intros [Hcache Hrest]. specialize (IH Hrest).
  destruct (is_save e) eqn:Hs.
  - rewrite without_saves_cons_save by done. rewrite <- IH.
    unfold is_save in Hs. simpl.
    destruct (full e) as [| | | | | | |c v] eqn:Hfull; try done.
    destruct c as [c|], v; rewrite identity_left; try done.
    by apply Hcache.
  - rewrite without_saves_cons_other by done.
    unfold is_save in Hs. simpl.
    destruct (full e) as [| | | | | | |c v] eqn:Hfull; try done.
    all: rewrite (composite_factor l), (composite_factor (without_saves l)).
    all: by rewrite IH.
Qed.

(** X16.  When the matrices of graphene multiply associatively, the
    identity is neutral and translate, rotate and scale multiply the
    running matrix from the right, the matrix of the stack after an
    appending operation is the matrix of that operation times the
    matrix before, and [cogl_matrix_stack_push] leaves the matrix of
    the stack as it was. *)
Theorem appended_operation_premultiplies fuel (mem : memory) stack
    pre t te rest o :
  chain mem (last_entry stack) (pre ++ (t, te) :: rest) ->
  Forall (fun pe => is_terminal pe.2 = false) pre ->
  is_terminal te = true ->
  evaluable ((t, te) :: rest) ->
  S (length (pre ++ (t, te) :: rest)) < fuel ->
  match o with Mutate m => appending m = true | Push => True | Pop => False end ->
  exists mem0 before internal mem1 stack1 mem2 internal',
    cogl_matrix_stack_get fuel mem stack = Some (mem0, before, internal)
    /\ operate fuel mem stack o = Some (mem1, stack1)
    /\ cogl_matrix_stack_get fuel mem1 stack1 =
         Some (mem2,
               match o with
               | Mutate m => operation_matrix (mutation_entry m) × before
               | _ => before
               end, internal').
Proof.
  intros Hc Hpre Hterm Hev Hlen Ho.
  set (l := pre ++ (t, te) :: rest) in *.
  destruct (entry_get_spec fuel mem (last_entry stack) pre t te rest
              Hc Hpre Hterm Hev) as (mem0 & Hget & _); first (fold l; lia).
  assert (Hbefore :
    composite (foldl apply_operation I pre.*2) ((t, te) :: rest)
    = composite I l).
  { unfold l. by rewrite composite_app. }
  rewrite Hbefore in Hget.
  exists mem0, (composite I l), (internal_matrix pre te rest).
  unfold cogl_matrix_stack_get. rewrite Hget.
  assert (Hpush : forall operation,
    exists mem1 n, mem !! n = None
      /\ _cogl_matrix_stack_push_operation mem stack operation =
           Some (mem1, {| last_entry := Some n |})
      /\ chain mem1 (Some n)
           ((n, {| parent := last_entry stack; ref_count := 1;
                   full := operation |}) :: l)).
  { intros operation. rewrite push_operation_eq.
    pose proof (chunk_alloc_fresh mem) as Hn.
    eexists _, _. split; first exact Hn. split; first done.
    simpl. rewrite lookup_insert_eq. split; first done. split; first done.
    by apply chain_insert_fresh. }
  destruct o as [m| |]; last done.
  - destruct (Hpush (mutation_entry m)) as (mem1 & n & Hn & Hrun & Hc1).
    set (new := {| parent := last_entry stack; ref_count := 1;
                   full := mutation_entry m |}) in *.
    assert (Hnt : is_terminal new = false).
    { unfold is_terminal. simpl. by destruct m. }
    destruct (entry_get_spec fuel mem1 (Some n) ((n, new) :: pre) t te rest)
      as (mem2 & Hget2 & _);
      [first [done | by constructor | exact Hlen]..|].
    exists mem1, {| last_entry := Some n |}, mem2. eexists.
    split; first done.
    split. { simpl. rewrite mutate_appending by done. by rewrite push_operation_eq in Hrun. }
    simpl. rewrite Hget2. do 3 f_equal.
    rewrite <- (composite_app _ ((n, new) :: pre)) by by constructor.
    assert (Hstep : composite I ((n, new) :: l)
                    = composite (apply_operation I new) l).
    { cbn [composite]. revert Hnt. unfold is_terminal.
      by destruct (full new). }
    change (((n, new) :: pre) ++ (t, te) :: rest) with ((n, new) :: l).
    rewrite Hstep. rewrite composite_factor. done.
  - destruct (Hpush (EntrySave None false)) as (mem1 & n & Hn & Hrun & Hc1).
    set (new := {| parent := last_entry stack; ref_count := 1;
                   full := EntrySave None false |}) in *.
    assert (Hevl : evaluable l).
    { unfold l. clear -Hpre Hev.
      induction pre as [|[p e] pre IH]; first done.
      apply Forall_cons in Hpre as [Hnt Hpre]. simpl in Hnt.
      cbn [app evaluable]. revert Hnt. unfold is_terminal.
      destruct (full e); try done; intros _; by apply IH. }
    destruct (entry_get_spec fuel mem1 (Some n) [] n new l)
      as (mem2 & Hget2 & _).
    { exact Hc1. }
    { constructor. }
    { done. }
    { cbn [evaluable]. simpl. split; last done. unfold l. by destruct pre. }
    { simpl. lia. }
    exists mem1, {| last_entry := Some n |}, mem2. eexists.
    split; first done. split; first done.
    simpl. rewrite Hget2. do 3 f_equal. simpl. by rewrite identity_left.
Qed.

Hypothesis float_eq_exact : forall a b, float_eq a b = true -> a = b.
Hypothesis point3d_equal_exact :
  forall a b, graphene_point3d_equal a b = true -> a = b.
Hypothesis vec3_equal_exact :
  forall a b, graphene_vec3_equal a b = true -> a = b.
Hypothesis euler_equal_exact :
  forall a b, graphene_euler_equal a b = true -> a = b.
Hypothesis matrix_equal_exact :
  forall a b, graphene_matrix_equal a b = true -> a = b.

Lemma same_step_exact e0 e1 :
  same_step e0 e1 = true ->
  full e0 = full e1 /\ is_terminal e0 = false.
Proof.
  unfold same_step, is_terminal.
  destruct (full e0), (full e1); try done; intros Hs.
  - by rewrite (point3d_equal_exact _ _ Hs).
  - apply andb_true_iff in Hs as [Ha Hb].
    by rewrite (float_eq_exact _ _ Ha), (vec3_equal_exact _ _ Hb).
  - by rewrite (euler_equal_exact _ _ Hs).
  - apply andb_true_iff in Hs as [Hs Hc].
    apply andb_true_iff in Hs as [Ha Hb].
    by rewrite (float_eq_exact _ _ Ha), (float_eq_exact _ _ Hb),
      (float_eq_exact _ _ Hc).
  - by rewrite (matrix_equal_exact _ _ Hs).
Qed.

Lemma without_saves_chain_cons (mem : memory) c : forall x p e r,
  chain mem x c -> without_saves c = (p, e) :: r ->
  mem !! p = Some e
  /\ exists c', chain mem (parent e) c' /\ r = without_saves c'.
Proof.
  induction c as [|[q eq] c IH]; intros x p e r Hc Hw; first done.
  destruct Hc as (-> & Hq & Hc).
  destruct (is_save eq) eqn:Hs.
  - rewrite without_saves_cons_save in Hw by done. by eapply IH.
  - rewrite without_saves_cons_other in Hw by done. simplify_eq.
    split; first done. by exists c.
Qed.

Lemma lockstep_sound (mem : memory) l0 : forall l1 c0 c1 x0 x1,
  chain mem x0 c0 -> chain mem x1 c1 ->
  l0 = without_saves c0 -> l1 = without_saves c1 ->
  lockstep_equal l0 l1 = true ->
  composite I l0 = composite I l1.
Proof.
  induction l0 as [|[p0 e0] r0 IH]; intros l1 c0 c1 x0 x1 Hc0 Hc1 H0 H1 Heq;
    first done.
  destruct l1 as [|[p1 e1] r1]; first done.
  symmetry in H0, H1.
  destruct (without_saves_chain_cons mem c0 x0 p0 e0 r0 Hc0 H0)
    as (Hp0 & c0' & Hc0' & Hr0).
  destruct (without_saves_chain_cons mem c1 x1 p1 e1 r1 Hc1 H1)
    as (Hp1 & c1' & Hc1' & Hr1).
  cbn [lockstep_equal] in Heq.
  destruct (decide (p0 = p1)) as [->|Hne].
  { assert (e0 = e1) as -> by congruence.
    by rewrite Hr0, Hr1, (chain_unique mem (parent e1) c0' c1'). }
  assert (Hstep : same_step e0 e1 && lockstep_equal r0 r1 = true ->
                  composite I ((p0, e0) :: r0) = composite I ((p1, e1) :: r1)).
  { intros Hs. apply andb_true_iff in Hs as [Hs Hrest].
    apply same_step_exact in Hs as [Hfull Hnt].
    pose proof (IH r1 c0' c1' _ _ Hc0' Hc1' Hr0 Hr1 Hrest) as Htail.
    cbn [composite]. unfold apply_operation. rewrite <- Hfull.
    revert Hnt. unfold is_terminal.
    destruct (full e0); try done; intros _.
    all: rewrite (composite_factor r0), (composite_factor r1).
    all: by rewrite Htail. }
  destruct (full e0) eqn:Hf0, (full e1) eqn:Hf1;
    try done; try (by apply Hstep).
  - cbn [composite]. by rewrite Hf0, Hf1.
  - cbn [composite]. rewrite Hf0, Hf1.
    by rewrite (matrix_equal_exact _ _ Heq).
Qed.

(** X17.  [cogl_matrix_entry_equal] has no false positive: under the
    laws of X16, with comparisons that only accept identical values and
    caches that hold the composites behind them, two entries for which
    it answers [TRUE] evaluate to the same matrix. *)
Theorem equal_entries_have_equal_matrices fuel (mem : memory)
    entry0 entry1 l0 l1 :
  chain mem entry0 l0 -> chain mem entry1 l1 ->
  rooted l0 -> rooted l1 ->
  caches_right l0 -> caches_right l1 ->
  evaluable l0 -> evaluable l1 ->
  Exists (fun pe => is_terminal pe.2 = true) l0 ->
  Exists (fun pe => is_terminal pe.2 = true) l1 ->
  length l0 < fuel -> length l1 < fuel ->
  cogl_matrix_entry_equal fuel mem entry0 entry1 = Some true ->
  exists matrix mem0 internal0 mem1 internal1,
    cogl_matrix_entry_get fuel mem entry0 = Some (mem0, matrix, internal0)
    /\ cogl_matrix_entry_get fuel mem entry1 = Some (mem1, matrix, internal1).
Proof.
  intros Hc0 Hc1 Hr0 Hr1 Hk0 Hk1 Hev0 Hev1 Hex0 Hex1 Hlen0 Hlen1 Heq.
  rewrite (equal_refines fuel mem entry0 entry1 l0 l1) in Heq;
    [|done|done|done|done|lia|lia].
  injection Heq as Heq.
  pose proof (lockstep_sound mem _ _ l0 l1 _ _ Hc0 Hc1 eq_refl eq_refl Heq)
    as Hsame.
  rewrite <- !composite_without_saves in Hsame by done.
  destruct (get_composite fuel mem entry0 l0) as (mem0 & i0 & Hg0); try done.
  destruct (get_composite fuel mem entry1 l1) as (mem1 & i1 & Hg1); try done.
  exists (composite I l0), mem0, i0, mem1, i1.
  split; first done. by rewrite Hsame.
Qed.

Hypothesis translate_zero :
  translation_matrix (float_zero, float_zero, float_zero) = I.
Hypothesis translate_translate : forall pos xyz,
  graphene_matrix_translate I pos × translation_matrix xyz =
  translation_matrix (float_add xyz.1.1 (point_x pos),
                      float_add xyz.1.2 (point_y pos),
                      float_add xyz.2 (point_z pos)).
Hypothesis sub_zero : forall x, float_sub x float_zero = x.
Hypothesis sub_sub : forall x y z,
  float_sub (float_sub x y) z = float_sub x (float_add y z).
Hypothesis add_sub : forall x y z,
  float_add (float_sub x y) z = float_sub (float_add x z) y.
Hypothesis add_sub_cancel : forall x y, float_add y (float_sub x y) = x.

Lemma foldl_apply_factor l : forall m,
  foldl apply_operation m l = m × foldl apply_operation I l.
Proof.
  induction l as [|e l IH]; intros m; simpl.
  { by rewrite identity_right. }
  rewrite (IH (apply_operation m e)), (IH (apply_operation I e)).
  rewrite (apply_operation_post m e).
  by rewrite multiply_assoc.
Qed.

Lemma translates_matrix sa :
  Forall (fun pe => is_translate pe.2 = true) sa ->
  foldl apply_operation I (reverse sa).*2 =
  translation_matrix (sum_translations sa).
Proof.
  induction sa as [|[p e] sa IH] using rev_ind; intros Hall.
  { change (I = translation_matrix (float_zero, float_zero, float_zero)).
    by rewrite translate_zero. }
  apply Forall_app in Hall as [Hall He].
  apply Forall_cons in He as [He _]. simpl in He.
  rewrite reverse_snoc, fmap_cons. simpl.
  rewrite foldl_apply_factor, (IH Hall).
  unfold sum_translations. rewrite accumulate_snoc.
  unfold is_translate in He. unfold apply_operation.
  destruct (full e) as [|translate| | | | | |]; by try apply translate_translate.
Qed.

(** X18.  The translation that
    [cogl_matrix_entry_calculate_translation (entry0, entry1)] returns
    maps the matrix of [entry0] to the matrix of [entry1]: under the
    laws of X16, with translations that compose by adding their
    vectors and exact float arithmetic, the matrix of [entry1] is the
    matrix of that translation times the matrix of [entry0]. *)
Theorem relative_translation_maps_matrices fuel (mem : memory)
    entry0 entry1 l0 l1 sa sb c ce anc :
  chain mem entry0 l0 -> chain mem entry1 l1 ->
  length l0 < fuel -> length l1 < fuel ->
  without_saves l0 = reverse sa ++ (c, ce) :: anc ->
  without_saves l1 = reverse sb ++ (c, ce) :: anc ->
  Forall (fun pe => is_translate pe.2 = true) sa ->
  Forall (fun pe => is_translate pe.2 = true) sb ->
  match sa, sb with (a, _) :: _, (b, _) :: _ => a <> b | _, _ => True end ->
  caches_right l0 -> caches_right l1 ->
  evaluable l0 -> evaluable l1 ->
  Exists (fun pe => is_terminal pe.2 = true) l0 ->
  Exists (fun pe => is_terminal pe.2 = true) l1 ->
  exists xyz mem0 matrix0 internal0 mem1 matrix1 internal1,
    cogl_matrix_entry_calculate_translation fuel mem entry0 entry1 =
      Some (Some xyz)
    /\ cogl_matrix_entry_get fuel mem entry0 = Some (mem0, matrix0, internal0)
    /\ cogl_matrix_entry_get fuel mem entry1 = Some (mem1, matrix1, internal1)
    /\ matrix1 = translation_matrix xyz × matrix0.
Proof.
  intros Hc0 Hc1 Hlen0 Hlen1 Hw0 Hw1 Hsa Hsb Hex Hk0 Hk1 Hev0 Hev1 Ht0 Ht1.
  pose proof (translation_success fuel mem entry0 entry1 l0 l1 sa sb c ce anc
                Hc0 Hc1) as Hrun.
  rewrite Hrun; [|lia|lia|done..]. clear Hrun.
  rewrite (accumulate_exact sa sb sub_zero sub_sub add_sub).
  destruct (get_composite fuel mem entry0 l0)
    as (mem0 & i0 & Hg0); try done.
  destruct (get_composite fuel mem entry1 l1)
    as (mem1 & i1 & Hg1); try done.
  eexists _, mem0, _, i0, mem1, _, i1.
  split; first done. split; first exact Hg0. split; first exact Hg1.
  assert (Hval : forall l s,
    caches_right l ->
    without_saves l = reverse s ++ (c, ce) :: anc ->
    Forall (fun pe => is_translate pe.2 = true) s ->
    composite I l =
    translation_matrix (sum_translations s) × composite I ((c, ce) :: anc)).
  { intros l s Hk Hw Hs.
    rewrite (composite_without_saves l Hk).
    rewrite Hw, composite_app.
    - rewrite composite_factor. by rewrite translates_matrix.
    - apply Forall_reverse. eapply Forall_impl; first exact Hs.
      intros [p e]. simpl. unfold is_translate, is_terminal.
      by destruct (full e). }
  rewrite (Hval l0 sa), (Hval l1 sb) by done.
  rewrite <- multiply_assoc. f_equal.
  destruct (sum_translations sa) as [[ax ay] az].
  destruct (sum_translations sb) as [[bx by_] bz].
  unfold sub3. simpl.
  unfold translation_matrix at 2. rewrite translate_translate. simpl.
  by rewrite !add_sub_cancel.
Qed.

End Algebra.

Section PushedTranslate.
Context `{G : Graphene}.
#[local] Abbreviation memory := (gmap nat CoglMatrixEntry).

(** X19.  After [cogl_matrix_stack_translate (x, y, z)] the relative
    translation from the old top entry to the new one is
    [(0 + x, 0 + y, 0 + z)], from the new one to the old one it is
    [(0 - x, 0 - y, 0 - z)], and from the old top entry to itself it is
    [(0, 0, 0)]. *)
Theorem translation_to_pushed_translate fuel (mem : memory) stack l x y z :
  chain mem (last_entry stack) l ->
  without_saves l <> [] ->
  length l < fuel ->
  exists mem' stack',
    cogl_matrix_stack_translate mem stack x y z = Some (mem', stack')
    /\ cogl_matrix_entry_calculate_translation fuel mem'
         (last_entry stack) (last_entry stack) =
         Some (Some (float_zero, float_zero, float_zero))
    /\ cogl_matrix_entry_calculate_translation fuel mem'
         (last_entry stack) (last_entry stack') =
         Some (Some (float_add float_zero x, float_add float_zero y,
                     float_add float_zero z))
    /\ cogl_matrix_entry_calculate_translation fuel mem'
         (last_entry stack') (last_entry stack) =
         Some (Some (float_sub float_zero x, float_sub float_zero y,
                     float_sub float_zero z)).
Proof.
  intros Hc Hne Hlen.
  unfold cogl_matrix_stack_translate. rewrite push_operation_eq.
  set (n := _cogl_magazine_chunk_alloc mem).
  set (new := {| parent := last_entry stack; ref_count := 1;
                 full := EntryTranslate (graphene_point3d_init x y z) |}).
  set (mem' := <[n := new]> mem).
  assert (Hn : mem !! n = None) by apply chunk_alloc_fresh.
  assert (Hc0 : chain mem' (last_entry stack) l) by by apply chain_insert_fresh.
  assert (Hc1 : chain mem' (Some n) ((n, new) :: l)).
  { simpl. unfold mem'. by rewrite lookup_insert_eq. }
  destruct (without_saves l) as [|[c ce] anc] eqn:Hw; first done.
  assert (Hw1 : without_saves ((n, new) :: l) = (n, new) :: (c, ce) :: anc).
  { rewrite without_saves_cons_other by done. by rewrite Hw. }
  eexists _, _. split; first done. simpl. split; [|split].
  - rewrite (translation_success fuel mem' _ _ l l [] [] c ce anc);
      try done; lia.
  - rewrite (translation_success fuel mem' _ _ l ((n, new) :: l)
               [] [(n, new)] c ce anc); try done; try (simpl; lia).
    repeat constructor.
  - rewrite (translation_success fuel mem' _ _ ((n, new) :: l) l
               [(n, new)] [] c ce anc); try done; try (simpl; lia).
    repeat constructor.
Qed.

End PushedTranslate.

Section EntryCacheProperties.
Context `{G : Graphene}.
#[local] Abbreviation memory := (gmap nat CoglMatrixEntry).

Lemma unref_keeps_shared fuel : forall (mem : memory) x mem' p e,
  cogl_matrix_entry_unref fuel mem x = Some mem' ->
  mem !! p = Some e -> (2 <= ref_count e)%Z ->
  exists e', mem' !! p = Some e' /\ full e' = full e /\ parent e' = parent e
    /\ (ref_count e - 1 <= ref_count e' <= ref_count e)%Z.
Proof.
  induction fuel as [|fuel IH]; intros mem x mem' p e Hrun Hp Hrc.
  all: destruct x as [q|]; cbn [cogl_matrix_entry_unref] in Hrun;
    [|simplify_eq; exists e; repeat split; [done|lia|lia]].
  all: destruct (mem !! q) as [eq|] eqn:Hq; [|done].
  all: destruct (INT_MIN <? ref_count eq)%Z; [|done].
  all: destruct (ref_count eq - 1 <=? 0)%Z eqn:Hle.
  all: try (apply Z.leb_le in Hle; assert (q <> p) as Hne
              by (intros ->; simplify_eq; lia)).
  all: try (apply Z.leb_gt in Hle).
  - done.
  - simplify_eq. destruct (decide (q = p)) as [->|Hne].
    + simplify_eq. rewrite lookup_insert_eq. eexists. split; first done.
      simpl. repeat split; lia.
    + rewrite lookup_insert_ne by done. exists e. repeat split; [done|lia|lia].
  - apply (IH _ _ _ p e Hrun); last done.
    unfold _cogl_magazine_chunk_free. by rewrite lookup_delete_ne.
  - simplify_eq. destruct (decide (q = p)) as [->|Hne].
    + simplify_eq. rewrite lookup_insert_eq. eexists. split; first done.
      simpl. repeat split; lia.
    + rewrite lookup_insert_ne by done. exists e. repeat split; [done|lia|lia].
Qed.

Lemma op_identity (e : CoglMatrixEntry) :
  op e = COGL_MATRIX_OP_LOAD_IDENTITY <-> full e = EntryLoadIdentity.
Proof. unfold op. destruct (full e); split; done. Qed.

Lemma op_same_full (e e' : CoglMatrixEntry) : full e' = full e -> op e' = op e.
Proof. unfold op. by intros ->. Qed.

(** X20.  Once [_cogl_matrix_entry_cache_maybe_update] has run, the
    same call again reports no update and changes neither the store
    nor the cache. *)
Theorem cache_update_is_idempotent fuel fuel' (mem : memory) cache p e flip
    mem1 cache1 updated :
  mem !! p = Some e -> (0 < ref_count e)%Z ->
  _cogl_matrix_entry_cache_maybe_update fuel mem cache (Some p) flip =
    Some (mem1, cache1, updated) ->
  _cogl_matrix_entry_cache_maybe_update fuel' mem1 cache1 (Some p) flip =
    Some (mem1, cache1, false).
Proof.
  intros Hp Hpos. unfold _cogl_matrix_entry_cache_maybe_update at 1.
  rewrite Hp.
  set (is_identity := bool_decide (op e = COGL_MATRIX_OP_LOAD_IDENTITY)).
  assert (Hagain : forall (mem' : memory) e' old,
    mem' !! p = Some e' -> op e' = op e ->
    _cogl_matrix_entry_cache_maybe_update fuel' mem'
      {| entry := old; flushed_identity := is_identity; flipped := flip |}
      (Some p) flip =
    match decide (old = Some p) with
    | left _ =>
        Some (mem', {| entry := old; flushed_identity := is_identity;
                       flipped := flip |}, false)
    | right _ => _cogl_matrix_entry_cache_maybe_update fuel' mem'
      {| entry := old; flushed_identity := is_identity; flipped := flip |}
      (Some p) flip
    end).
  { intros mem' e' old Hp' Hop. destruct (decide (old = Some p)) as [->|]; last done.
    unfold _cogl_matrix_entry_cache_maybe_update. rewrite Hp'. simpl.
    rewrite Hop. fold is_identity. rewrite decide_True by done.
    by rewrite !eqb_reflx. }
  destruct (decide (entry cache = Some p)) as [Hsame|Hdiff].
  - intros [= <- <- <-]. rewrite (Hagain mem e (entry cache) Hp eq_refl).
    by rewrite decide_True.
  - cbn [cogl_matrix_entry_ref]. rewrite Hp.
    destruct (ref_count e <? INT_MAX)%Z; last done.
    set (mem' := <[p := _]> mem).
    assert (Hp' : mem' !! p = Some {| parent := parent e;
                                      ref_count := ref_count e + 1;
                                      full := full e |})
      by apply lookup_insert_eq.
    destruct (entry cache) as [old|] eqn:Hold.
    + destruct (cogl_matrix_entry_unref fuel mem' (Some old)) as [mem2|] eqn:Hun;
        last done.
      intros [= <- <- <-].
      destruct (unref_keeps_shared fuel mem' (Some old) mem2 p _ Hun Hp')
        as (e2 & Hp2 & Hfull & _); first (simpl; lia).
      rewrite (Hagain mem2 e2 (Some p) Hp2); first by rewrite decide_True.
      by apply op_same_full.
    + intros [= <- <- <-].
      rewrite (Hagain mem' _ (Some p) Hp'); first by rewrite decide_True.
      by apply op_same_full.
Qed.

(** X21.  [_cogl_matrix_entry_cache_maybe_update] on a live entry
    returns, moves the reference of the cache from its old entry to the
    new one in a store that stays accounted for, and leaves a cache
    whose entry is the new one and whose flags are right. *)
Theorem cache_update_keeps_accounting fuel owners (mem : memory) cache p e
    flip :
  accounted owners mem ->
  (forall old, entry cache = Some old -> 0 < owners old) ->
  mem !! p = Some e -> (ref_count e < INT_MAX)%Z ->
  size mem <= fuel ->
  exists mem' cache' updated,
    _cogl_matrix_entry_cache_maybe_update fuel mem cache (Some p) flip =
      Some (mem', cache', updated)
    /\ entry cache' = Some p /\ flipped cache' = flip
    /\ cache_consistent mem' cache'
    /\ accounted (moved owners (entry cache) (Some p)) mem'.
Proof.
  intros Hacc Hold Hp Hmax Hsize.
  unfold _cogl_matrix_entry_cache_maybe_update. rewrite Hp.
  set (is_identity := bool_decide (op e = COGL_MATRIX_OP_LOAD_IDENTITY)).
  destruct (decide (entry cache = Some p)) as [Hsame|Hdiff].
  - eexists _, _, _. split; first done. simpl.
    split; first done. split; first done. split.
    + unfold cache_consistent. simpl. rewrite Hsame. by exists e.
    + eapply accounted_ext; last exact Hacc.
      intros q. rewrite Hsame. unfold moved, release, acquire.
      destruct (decide (Some p = Some q)); lia.
  - destruct (ref_sound owners mem (Some p) Hacc)
      as (mem1 & Href & Hacc1 & Hsize1 & _ & _).
    { intros ? [= <-]. by exists e. }
    rewrite Href.
    assert (Hp1 : exists e1, mem1 !! p = Some e1 /\ full e1 = full e).
    { pose proof (ref_frame mem (Some p) mem1 p Href) as Hf. rewrite Hp in Hf.
      destruct Hf as (e1 & ? & ? & _). by exists e1. }
    destruct Hp1 as (e1 & Hp1 & Hfull1).
    destruct (entry cache) as [old|] eqn:Hentry.
    + destruct (unref_sound fuel (acquire owners (Some p)) mem1 (Some old)
                  Hacc1) as (mem2 & Hun & Hacc2 & _ & _).
      { intros ? [= <-]. unfold acquire. pose proof (Hold old eq_refl).
        destruct (decide _); lia. }
      { lia. }
      rewrite Hun. eexists _, _, _. split; first done. simpl.
      split; first done. split; first done. split; last done.
      unfold cache_consistent. simpl.
      assert (Hlive : is_Some (mem2 !! p)).
      { apply (accounted_live _ mem2 p Hacc2). unfold release, acquire.
        rewrite (decide_False (P := Some old = Some p)) by congruence.
        rewrite decide_True by done. lia. }
      pose proof (unref_frame fuel mem1 (Some old) mem2 p Hun) as Hf.
      rewrite Hp1 in Hf. destruct Hf as [Hf|(e2 & Hp2 & Hfull2 & _)].
      { rewrite Hf in Hlive. by destruct Hlive. }
      exists e2. split; first done.
      unfold is_identity.
      by rewrite (op_same_full e e2) by congruence.
    + eexists _, _, _. split; first done. simpl.
      split; first done. split; first done. split.
      * unfold cache_consistent. simpl. exists e1. split; first done.
        unfold is_identity. by rewrite (op_same_full e e1).
      * eapply accounted_ext; last exact Hacc1.
        intros q. unfold moved, release, acquire.
        destruct (decide (Some p = Some q)); by rewrite decide_False.
Qed.

(** X22.  When [_cogl_matrix_entry_cache_maybe_update] reports no
    update on a cache whose flags are right, the flip is the one of the
    cache and the entry is either the one of the cache or, like the one
    of the cache, a load-identity entry. *)
Theorem cache_reports_real_changes fuel (mem : memory) cache p flip
    mem' cache' :
  cache_consistent mem cache ->
  _cogl_matrix_entry_cache_maybe_update fuel mem cache (Some p) flip =
    Some (mem', cache', false) ->
  flipped cache = flip
  /\ exists old, entry cache = Some old
       /\ (old = p
           \/ (cogl_matrix_entry_is_identity mem (Some old) = Some true
               /\ cogl_matrix_entry_is_identity mem (Some p) = Some true)).
Proof.
  intros Hcons. unfold _cogl_matrix_entry_cache_maybe_update.
  destruct (mem !! p) as [e|] eqn:Hp; last done.
  set (is_identity := bool_decide (op e = COGL_MATRIX_OP_LOAD_IDENTITY)).
  destruct (decide (entry cache = Some p)) as [Hsame|Hdiff].
  - intros [= _ _ Hup]. apply orb_false_iff in Hup as [Hflip _].
    apply negb_false_iff, eqb_prop in Hflip.
    split; first done. exists p. split; first done. by left.
  - destruct (cogl_matrix_entry_ref mem (Some p)) as [mem1|]; last done.
    destruct (match entry cache with
              | Some _ => cogl_matrix_entry_unref fuel mem1 (entry cache)
              | None => Some mem1
              end) as [mem2|]; last done.
    intros [= _ _ Hup]. apply orb_false_iff in Hup as [Hup Hid].
    apply orb_false_iff in Hup as [Hflip Hflushed].
    apply negb_false_iff in Hid, Hflip, Hflushed.
    apply eqb_prop in Hflip, Hflushed.
    split; first done.
    unfold cache_consistent in Hcons.
    destruct (entry cache) as [old|]; last congruence.
    destruct Hcons as (eo & Hold & Hflag).
    exists old. split; first done. right.
    unfold cogl_matrix_entry_is_identity. rewrite Hold, Hp.
    rewrite Hflushed, Hid in Hflag. symmetry in Hflag.
    apply bool_decide_eq_true, op_identity in Hflag.
    unfold is_identity in Hid. apply bool_decide_eq_true, op_identity in Hid.
    by rewrite Hflag, Hid.
Qed.

(** X23.  The first update of a cache that
    [_cogl_matrix_entry_cache_init] made always reports an update, and
    [_cogl_matrix_entry_cache_destroy] after it gives back the store as
    it was. *)
Theorem cache_first_update_then_destroy fuel (mem : memory) p e flip :
  mem !! p = Some e -> (0 < ref_count e < INT_MAX)%Z ->
  exists mem1 cache1,
    _cogl_matrix_entry_cache_maybe_update fuel mem
      _cogl_matrix_entry_cache_init (Some p) flip = Some (mem1, cache1, true)
    /\ entry cache1 = Some p
    /\ _cogl_matrix_entry_cache_destroy fuel mem1 cache1 = Some mem.
Proof.
  intros Hp [Hpos Hmax].
  unfold _cogl_matrix_entry_cache_maybe_update, _cogl_matrix_entry_cache_init.
  rewrite Hp. simpl. rewrite Hp.
  assert ((ref_count e <? INT_MAX)%Z = true) as -> by by apply Z.ltb_lt.
  eexists _, _. split.
  { do 2 f_equal. destruct flip, (bool_decide _); done. }
  split; first done.
  unfold _cogl_matrix_entry_cache_destroy. simpl.
  rewrite (unref_stop fuel _ p (with_ref_count e (ref_count e + 1)));
    [|by rewrite lookup_insert_eq|simpl; lia].
  f_equal. rewrite insert_insert_eq. unfold with_ref_count. simpl.
  replace (ref_count e + 1 - 1)%Z with (ref_count e) by lia.
  apply insert_id. rewrite Hp. by destruct e.
Qed.

End EntryCacheProperties.

Section DebugPrintProperties.
Context `{G : Graphene}.
#[local] Abbreviation memory := (gmap nat CoglMatrixEntry).

Lemma debug_print_depth_spec l : forall fuel (mem : memory) e depth,
  chain mem e l -> length l <= fuel ->
  debug_print_depth fuel mem e depth = Some (depth + length l).
Proof.
  induction l as [|[p x] l IH]; intros fuel mem e depth Hc Hlen.
  - simpl in Hc. subst. destruct fuel; simpl; f_equal; lia.
  - destruct Hc as (-> & Hp & Hc). destruct fuel; simpl in *; first lia.
    rewrite Hp. rewrite (IH fuel mem (parent x) (S depth)); [|done|lia].
    f_equal. lia.
Qed.

Lemma debug_print_children_spec l : forall (mem : memory) e done_,
  chain mem e l ->
  debug_print_children mem (length l) e
    (replicate (length l) None ++ done_) =
  Some (((fun pe => Some pe.1) <$> reverse l) ++ done_).
Proof.
  induction l as [|[p x] l IH]; intros mem e done_ Hc.
  - simpl in Hc. subst. done.
  - destruct Hc as (-> & Hp & Hc). simpl. rewrite Hp.
    replace (<[length l := Some p]>
               (None :: replicate (length l) None ++ done_))
      with (replicate (length l) None ++ Some p :: done_).
    + rewrite (IH mem (parent x) (Some p :: done_) Hc).
      f_equal. rewrite reverse_cons, fmap_app, <- app_assoc. done.
    + change (None :: replicate (length l) None ++ done_)
        with (replicate (S (length l)) (@None nat) ++ done_).
      rewrite replicate_S_end, <- app_assoc. simpl.
      rewrite insert_app_r_alt by (rewrite length_replicate; lia).
      rewrite length_replicate, Nat.sub_diag. done.
Qed.

Lemma debug_print_lines_spec (mem : memory) l :
  (forall p e, (p, e) ∈ l -> mem !! p = Some e) ->
  debug_print_lines mem ((fun pe => Some pe.1) <$> l) =
    Some (l ≫= fun pe => debug_print_line pe.2).
Proof.
  induction l as [|[p e] l IH]; intros Hl; first done.
  rewrite fmap_cons. cbn [debug_print_lines fst]. rewrite (Hl p e) by left.
  rewrite IH; first done. intros q x Hin. apply Hl. by right.
Qed.

(** X24.  [cogl_debug_matrix_entry_print] prints the address of the
    entry and then one line for every entry of its chain, from the
    root of the chain down to the entry itself. *)
Theorem debug_print_goes_root_first fuel (mem : memory) entry l :
  chain mem entry l -> length l <= fuel ->
  cogl_debug_matrix_entry_print fuel mem entry =
    Some (PrintMatrixEntry entry
          :: (reverse l ≫= fun pe => debug_print_line pe.2)).
Proof.
  intros Hc Hlen. unfold cogl_debug_matrix_entry_print.
  rewrite (debug_print_depth_spec l fuel mem entry 0 Hc Hlen). simpl.
  pose proof (debug_print_children_spec l mem entry [] Hc) as Hch.
  rewrite !app_nil_r in Hch. rewrite Hch.
  rewrite debug_print_lines_spec; first reflexivity.
  intros p e Hin. rewrite elem_of_reverse in Hin.
  exact (chain_lookup mem entry l p e Hc Hin).
Qed.

End DebugPrintProperties.

(** * The exact instance at work *)

Import Exact Examples.

Lemma Qc_eq_bool_refl (x : Qc) : Qc_eq_bool x x = true.
Proof.
  unfold Qc_eq_bool. destruct (Qcanon.Qc_eq_dec x x) as [|Hne]; [reflexivity|].
  by destruct Hne.
Qed.

Lemma exact_identity_left (m : mat4) : mat4_mul mat4_identity m = m.
Proof.
  destruct m. unfold mat4_mul, mat4_identity. simpl. f_equal; ring.
Qed.

Lemma exact_inverse_singular (m : mat4) :
  mat4_inverse m = None <-> mat4_determinant m = 0%Qc.
Proof.
  unfold mat4_inverse.
  destruct (Qc_eq_bool (mat4_determinant m) 0%Qc) eqn:E.
  - apply Qc_eq_bool_correct in E. by split.
  - split; [done|]. intros Hd. rewrite Hd, Qc_eq_bool_refl in E. done.
Qed.

Lemma composite_evaluation_witness :
  exists mem' internal,
    cogl_matrix_entry_get 4 translate_scale (Some 2) =
      Some (mem', translate_scale_matrix, internal)
    /\ mat4_entries translate_scale_matrix =
         [ [2; 0; 0; 0]; [0; 2; 0; 0]; [0; 0; 2; 0]; [1; 2; 3; 1] ]%Q
    /\ mat4_entries (mat4_transpose translate_scale_matrix) =
       mat4_entries
         (mat4_mul (mat4_transpose (mat4_translation (q 1) (q 2) (q 3)))
                   (mat4_transpose (mat4_scaling (q 2) (q 2) (q 2)))).
Proof.
  destruct (composite_evaluation 4 translate_scale (Some 2)
              [(2, scale_entry 1 2 2 2); (1, translate_entry 0 1 1 2 3)]
              0 (identity_entry 2) [])
    as ((mem' & internal & Hget) & _).
  - cbn [chain app]. repeat split; reflexivity.
  - repeat constructor.
  - reflexivity.
  - exact I.
  - simpl. lia.
  - exists mem', internal. split; [exact Hget|]. split; vm_compute; reflexivity.
Defined.

Ltac chain_holds := cbn [chain app]; repeat split; reflexivity.

Lemma push_pop_identity_witness :
  push_mutate_pop 5 fresh_stack {| last_entry := Some 0 |}
    some_mutations =
  Some (fresh_stack, {| last_entry := Some 0 |}).
Proof.
  destruct (push_pop_identity 5 fresh_stack {| last_entry := Some 0 |}
              0 (identity_entry 2) [] some_mutations)
    as (mem' & stack' & Hrun & _ & _ & -> & ->).
  - chain_holds.
  - split; [discriminate|exact I].
  - unfold INT_MAX. simpl. lia.
  - simpl. lia.
  - simpl. lia.
  - exact Hrun.
Defined.

Lemma save_cache_write_once_witness :
  exists s mem1 mem2,
    cogl_matrix_stack_push translate_scale {| last_entry := Some 2 |} =
      Some (mem1, {| last_entry := Some s |})
    /\ mem1 !! s = Some (save_entry 2)
    /\ cogl_matrix_entry_get 5 mem1 (Some s) =
         Some (mem2, mat4_mul mat4_identity translate_scale_matrix,
               Some translate_scale_matrix)
    /\ mem2 !! s = Some {| parent := Some 2; ref_count := 1;
                           full := EntrySave (Some translate_scale_matrix)
                                     true |}.
Proof.
  destruct (save_cache_write_once 5 translate_scale {| last_entry := Some 2 |}
              [(2, scale_entry 1 2 2 2); (1, translate_entry 0 1 1 2 3);
               (0, identity_entry 2)])
    as (s & mem1 & mem2 & _ & Hpush & Hs1 & Hget & Hs2 & _).
  - chain_holds.
  - discriminate.
  - exact I.
  - simpl. lia.
  - exists s, mem1, mem2. repeat split; assumption.
Defined.

Lemma Qc_triple_eq (a b c a' b' c' : Qc) :
  a = a' -> b = b' -> c = c' -> (a, b, c) = (a', b', c').
Proof. by intros -> -> ->. Defined.

Lemma relative_translation_witness :
  cogl_matrix_entry_calculate_translation 5 two_stacks (Some 1) (Some 3) =
    Some (Some (q 2, q 0, q 0)).
Proof.
  destruct (relative_translation 5 two_stacks (Some 1) (Some 3)
              [(1, translate_entry 0 1 5 0 0); (0, identity_entry 3)]
              [(3, translate_entry 2 1 2 0 0); (2, translate_entry 0 1 5 0 0);
               (0, identity_entry 3)])
    as (Hsuccess & _ & _).
  - chain_holds.
  - chain_holds.
  - simpl. lia.
  - simpl. lia.
  - discriminate.
  - discriminate.
  - destruct (Hsuccess [(1, translate_entry 0 1 5 0 0)]
                [(2, translate_entry 0 1 5 0 0); (3, translate_entry 2 1 2 0 0)]
                0 (identity_entry 3) []) as [Hrun _].
    + reflexivity.
    + reflexivity.
    + repeat constructor.
    + repeat constructor.
    + discriminate.
    + rewrite Hrun. apply (f_equal Some), (f_equal Some).
      apply Qc_triple_eq; apply Qc_is_canon; reflexivity.
Defined.

Lemma pop_releases_through_save_witness :
  exists mem',
    cogl_matrix_stack_pop 5 saved_translate {| last_entry := Some 2 |} =
      Some (mem', {| last_entry := Some 0 |})
    /\ mem' !! 2 = None /\ mem' !! 1 = None
    /\ mem' !! 0 = Some (identity_entry 2).
Proof.
  destruct (pop_releases_through_save 5 saved_translate
              {| last_entry := Some 2 |}
              [(2, translate_entry 1 1 1 2 3)] 1 (save_entry 0)
              [(0, identity_entry 2)]
              [(2, translate_entry 1 1 1 2 3); (1, save_entry 0)] [])
    as (mem' & Hpop & Hgone & Hkeep & _).
  - chain_holds.
  - repeat constructor.
  - reflexivity.
  - reflexivity.
  - repeat constructor.
  - exact I.
  - unfold INT_MAX. simpl. lia.
  - simpl. lia.
  - exists mem'. split; [exact Hpop|]. split; [|split].
    + apply Hgone. simpl. apply list_elem_of_here.
    + apply Hgone. simpl. apply list_elem_of_further, list_elem_of_here.
    + rewrite (Hkeep eq_refl 0); [reflexivity|].
      simpl. intros Hin. apply elem_of_cons in Hin as [Hin|Hin]; [discriminate|].
      apply elem_of_cons in Hin as [Hin|Hin]; [discriminate|].
      by apply elem_of_nil in Hin.
Defined.

Lemma replacement_prunes_to_save_witness :
  exists mem1 entry,
    mem1 !! 2 = None /\ mem1 !! 1 = None
    /\ mem1 !! 0 = Some (identity_entry 2)
    /\ cogl_matrix_stack_load_identity 5 two_translates
         {| last_entry := Some 2 |} =
       Some (<[entry := {| parent := Some 0; ref_count := 1;
                           full := EntryLoadIdentity |}]> mem1,
             {| last_entry := Some entry |}).
Proof.
  destruct (replacement_prunes_to_save 5 two_translates
              {| last_entry := Some 2 |}
              [(2, translate_entry 1 1 0 1 0); (1, translate_entry 0 1 1 0 0)]
              [] 0 (identity_entry 2) [] LoadIdentity)
    as (mem1 & entry & Hgone & Hkeep & _ & _ & Hrun).
  - reflexivity.
  - chain_holds.
  - repeat constructor.
  - by right.
  - repeat constructor.
  - exact I.
  - unfold INT_MAX. simpl. lia.
  - simpl. lia.
  - exists mem1, entry. split; [|split; [|split]].
    + apply Hgone. simpl. apply list_elem_of_here.
    + apply Hgone. simpl. apply list_elem_of_further, list_elem_of_here.
    + rewrite (Hkeep eq_refl 0); [reflexivity|].
      simpl. intros Hin. apply elem_of_cons in Hin as [Hin|Hin]; [discriminate|].
      apply elem_of_cons in Hin as [Hin|Hin]; [discriminate|].
      by apply elem_of_nil in Hin.
    + exact Hrun.
Defined.

Lemma equal_walks_in_lockstep_witness :
  cogl_matrix_entry_equal 2 two_identities (Some 0) (Some 5) = Some true.
Proof.
  destruct (equal_walks_in_lockstep 2 two_identities (Some 0) (Some 5)
              [(0, identity_entry 1)] [(5, identity_entry 1)])
    as (Hrun & _).
  - chain_holds.
  - chain_holds.
  - split; [discriminate|exact I].
  - split; [discriminate|exact I].
  - simpl. lia.
  - simpl. lia.
  - exact Hrun.
Defined.

Lemma inverse_of_composite_witness :
  exists mem',
    cogl_matrix_stack_get_inverse 3 zero_scale {| last_entry := Some 1 |} =
      Some (mem', None).
Proof.
  destruct (@inverse_of_composite exact_float exact_graphene
              exact_identity_left exact_inverse_singular
              3 zero_scale {| last_entry := Some 1 |}
              [(1, scale_entry 0 0 0 0)] 0 (identity_entry 2) [])
    as (mem' & internal & _ & _ & Hsingular & _).
  - chain_holds.
  - repeat constructor.
  - reflexivity.
  - exact I.
  - simpl. lia.
  - exists mem'. apply Hsingular. apply Qc_is_canon. reflexivity.
Defined.

Lemma appending_operations_frame_witness :
  exists mem' stack',
    mutate_all 0 translate_scale {| last_entry := Some 2 |} some_appending =
      Some (mem', stack')
    /\ mem' !! 2 = Some (scale_entry 1 2 2 2)
    /\ mem' !! 1 = Some (translate_entry 0 1 1 2 3)
    /\ size mem' = 5.
Proof.
  destruct (appending_operations_frame 0 translate_scale
              {| last_entry := Some 2 |} some_appending)
    as (mem' & stack' & Hrun & Hkeep & _ & Hsize & _).
  - repeat constructor.
  - exists mem', stack'. split; [exact Hrun|]. split; [|split].
    + by apply Hkeep.
    + by apply Hkeep.
    + exact Hsize.
Defined.

Lemma equal_at_shared_entry_witness :
  cogl_matrix_entry_equal 3 translate_scale (Some 2) (Some 2) = Some true.
Proof.
  destruct (equal_at_shared_entry 3 translate_scale (Some 2) (Some 2)
              [(2, scale_entry 1 2 2 2); (1, translate_entry 0 1 1 2 3);
               (0, identity_entry 2)]
              [(2, scale_entry 1 2 2 2); (1, translate_entry 0 1 1 2 3);
               (0, identity_entry 2)])
    as (_ & Hsame).
  - chain_holds.
  - chain_holds.
  - repeat split; discriminate.
  - repeat split; discriminate.
  - simpl. lia.
  - simpl. lia.
  - apply Hsame. discriminate.
Defined.


(** The concrete stores are the ones that the stack operations build. *)

Example fresh_stack_built :
  cogl_matrix_stack_new (_cogl_matrix_entry_identity_init ∅ 0) 0 =
    Some (fresh_stack, {| last_entry := Some 0 |}).
Proof. reflexivity. Qed.

Example translate_scale_built :
  mutate_all 0 fresh_stack {| last_entry := Some 0 |}
    [Translate (q 1) (q 2) (q 3); Scale (q 2) (q 2) (q 2)] =
    Some (translate_scale, {| last_entry := Some 2 |}).
Proof. reflexivity. Qed.

Example two_translates_built :
  mutate_all 0 fresh_stack {| last_entry := Some 0 |}
    [Translate (q 1) (q 0) (q 0); Translate (q 0) (q 1) (q 0)] =
    Some (two_translates, {| last_entry := Some 2 |}).
Proof. reflexivity. Qed.

Example saved_translate_built :
  match cogl_matrix_stack_push fresh_stack {| last_entry := Some 0 |} with
  | Some (mem, stack) =>
      cogl_matrix_stack_translate mem stack (q 1) (q 2) (q 3)
  | None => None
  end = Some (saved_translate, {| last_entry := Some 2 |}).
Proof. reflexivity. Qed.

Example zero_scale_built :
  cogl_matrix_stack_scale fresh_stack {| last_entry := Some 0 |}
    (q 0) (q 0) (q 0) =
    Some (zero_scale, {| last_entry := Some 1 |}).
Proof. reflexivity. Qed.

(** Stack A is created and translated, then stack B is created on the
    same context and translated twice. *)
Example two_stacks_built :
  match cogl_matrix_stack_translate fresh_stack {| last_entry := Some 0 |}
          (q 5) (q 0) (q 0) with
  | Some (mem1, stack_a) =>
      match cogl_matrix_stack_new mem1 0 with
      | Some (mem2, stack_b) =>
          match mutate_all 0 mem2 stack_b
                  [Translate (q 5) (q 0) (q 0); Translate (q 2) (q 0) (q 0)]
          with
          | Some (mem3, stack_b') =>
              Some (mem3, cogl_matrix_stack_get_entry stack_a,
                    cogl_matrix_stack_get_entry stack_b')
          | None => None
          end
      | None => None
      end
  | None => None
  end = Some (two_stacks, Some 1, Some 3).
Proof. reflexivity. Qed.

(** With a rotation between the root and the translations of stack A
    the relative translation fails. *)
Example rotated_translation_fails :
  match mutate_all 0 fresh_stack {| last_entry := Some 0 |}
          [Rotate (q 90) (q 0) (q 0) (q 1); Translate (q 5) (q 0) (q 0)] with
  | Some (mem1, stack_a) =>
      match cogl_matrix_stack_new mem1 0 with
      | Some (mem2, stack_b) =>
          match mutate_all 0 mem2 stack_b
                  [Translate (q 5) (q 0) (q 0); Translate (q 2) (q 0) (q 0)]
          with
          | Some (mem3, stack_b') =>
              cogl_matrix_entry_calculate_translation 5 mem3
                (cogl_matrix_stack_get_entry stack_a)
                (cogl_matrix_stack_get_entry stack_b')
          | None => None
          end
      | None => None
      end
  | None => None
  end = Some None.
Proof. reflexivity. Qed.

(** The inversion of the exact instance on a matrix that is not
    singular, and a quarter turn about the z axis. *)
Example mat4_inverse_example :
  let g := Mat4 (q 1) (q 2) (q 0) (q 3)
                (q 0) (q 1) (q 4) (q 1)
                (q 2) (q 0) (q 1) (q 5)
                (q 1) (q 1) (q 1) (q 7) in
  option_map (fun i => mat4_entries (mat4_mul g i)) (mat4_inverse g) =
    Some (mat4_entries mat4_identity)
  /\ mat4_entries (mat4_rotation (q 90) (q 0, q 0, q 1)) =
       [ [0; 1; 0; 0]; [-1; 0; 0; 0]; [0; 0; 1; 0]; [0; 0; 0; 1] ]%Q.
Proof. split; vm_compute; reflexivity. Qed.

(** ** The laws of the exact instance *)

Lemma exact_multiply_assoc (a b c : mat4) :
  mat4_mul (mat4_mul a b) c = mat4_mul a (mat4_mul b c).
Proof.
  destruct a, b, c. unfold mat4_mul. simpl. f_equal; ring.
Qed.

Lemma exact_identity_right (m : mat4) : mat4_mul m mat4_identity = m.
Proof.
  destruct m. unfold mat4_mul, mat4_identity. simpl. f_equal; ring.
Qed.

Lemma exact_post (m x : mat4) :
  mat4_mul m x = mat4_mul m (mat4_mul mat4_identity x).
Proof. by rewrite exact_identity_left. Qed.

Lemma exact_translate_zero :
  @translation_matrix exact_float exact_graphene (0, 0, 0)%Qc =
    mat4_identity.
Proof. unfold translation_matrix. simpl. apply exact_identity_left. Qed.

Lemma exact_translate_translate (pos : @graphene_point3d_t exact_float)
    (xyz : Qc * Qc * Qc) :
  mat4_mul
    (mat4_mul mat4_identity
       (mat4_translation (point_x pos) (point_y pos) (point_z pos)))
    (@translation_matrix exact_float exact_graphene xyz) =
  @translation_matrix exact_float exact_graphene
    (xyz.1.1 + point_x pos, xyz.1.2 + point_y pos, xyz.2 + point_z pos)%Qc.
Proof.
  unfold translation_matrix. simpl. rewrite !exact_identity_left.
  unfold mat4_mul, mat4_translation. simpl. f_equal; ring.
Qed.

Lemma Qc_sub_zero (x : Qc) : (x - 0 = x)%Qc.
Proof. ring. Qed.

Lemma Qc_sub_sub (x y z : Qc) : (x - y - z = x - (y + z))%Qc.
Proof. ring. Qed.

Lemma Qc_add_sub (x y z : Qc) : (x - y + z = x + z - y)%Qc.
Proof. ring. Qed.

Lemma Qc_add_sub_cancel (x y : Qc) : (y + (x - y) = x)%Qc.
Proof. ring. Qed.

Lemma Qc_eq_bool_exact (a b : Qc) : Qc_eq_bool a b = true -> a = b.
Proof. apply Qc_eq_bool_correct. Qed.

Lemma Qc_eq_bool_sym (a b : Qc) : Qc_eq_bool a b = Qc_eq_bool b a.
Proof.
  destruct (Qc_eq_bool a b) eqn:E.
  - apply Qc_eq_bool_correct in E as ->. by rewrite Qc_eq_bool_refl.
  - destruct (Qc_eq_bool b a) eqn:E'; last done.
    apply Qc_eq_bool_correct in E' as ->. by rewrite Qc_eq_bool_refl in E.
Qed.

Lemma exact_triple_exact (a b : Qc * Qc * Qc) :
  Qc_eq_bool a.1.1 b.1.1 && Qc_eq_bool a.1.2 b.1.2 && Qc_eq_bool a.2 b.2
    = true -> a = b.
Proof.
  destruct a as [[a1 a2] a3], b as [[b1 b2] b3]. simpl. intros Heq.
  apply andb_true_iff in Heq as [Heq H3].
  apply andb_true_iff in Heq as [H1 H2].
  by rewrite (Qc_eq_bool_exact _ _ H1), (Qc_eq_bool_exact _ _ H2),
    (Qc_eq_bool_exact _ _ H3).
Qed.

Lemma exact_point3d_exact (a b : @graphene_point3d_t exact_float) :
  @graphene_point3d_equal exact_float exact_graphene a b = true -> a = b.
Proof.
  destruct a as [a1 a2 a3], b as [b1 b2 b3]. simpl. intros Heq.
  apply andb_true_iff in Heq as [Heq H3].
  apply andb_true_iff in Heq as [H1 H2].
  by rewrite (Qc_eq_bool_exact _ _ H1), (Qc_eq_bool_exact _ _ H2),
    (Qc_eq_bool_exact _ _ H3).
Qed.

Lemma exact_matrix_exact (a b : mat4) : mat4_equal a b = true -> a = b.
Proof.
  destruct a, b. unfold mat4_equal. simpl. rewrite !andb_true_r.
  rewrite !andb_true_iff. intros Heq.
  repeat match goal with H : _ /\ _ |- _ => destruct H end.
  f_equal; by apply Qc_eq_bool_exact.
Qed.

Lemma exact_point3d_sym (a b : @graphene_point3d_t exact_float) :
  @graphene_point3d_equal exact_float exact_graphene a b =
  @graphene_point3d_equal exact_float exact_graphene b a.
Proof.
  simpl. by rewrite (Qc_eq_bool_sym (point_x a)), (Qc_eq_bool_sym (point_y a)),
    (Qc_eq_bool_sym (point_z a)).
Qed.

Lemma exact_triple_sym (a b : Qc * Qc * Qc) :
  Qc_eq_bool a.1.1 b.1.1 && Qc_eq_bool a.1.2 b.1.2 && Qc_eq_bool a.2 b.2 =
  Qc_eq_bool b.1.1 a.1.1 && Qc_eq_bool b.1.2 a.1.2 && Qc_eq_bool b.2 a.2.
Proof.
  by rewrite (Qc_eq_bool_sym a.1.1), (Qc_eq_bool_sym a.1.2),
    (Qc_eq_bool_sym a.2).
Qed.

Lemma exact_matrix_refl (a : mat4) : mat4_equal a a = true.
Proof. unfold mat4_equal. simpl. by rewrite !Qc_eq_bool_refl. Qed.

Lemma exact_matrix_sym (a b : mat4) : mat4_equal a b = mat4_equal b a.
Proof.
  destruct (mat4_equal a b) eqn:E.
  - apply exact_matrix_exact in E as ->. by rewrite exact_matrix_refl.
  - destruct (mat4_equal b a) eqn:E'; last done.
    apply exact_matrix_exact in E' as ->. by rewrite exact_matrix_refl in E.
Qed.

(** ** The properties of the remaining code on concrete stores *)

(** In [two_stacks] the context owns the identity entry at address 0,
    stack A owns its top entry at address 1 and stack B owns its top
    entry at address 3. *)

Lemma unref_keeps_accounting_witness :
  exists mem',
    cogl_matrix_entry_unref 4 two_stacks (Some 3) = Some mem'
    /\ accounted (release (owned_by [0; 1; 3]) (Some 3)) mem'.
Proof.
  destruct (unref_keeps_accounting 4 (owned_by [0; 1; 3]) two_stacks (Some 3))
    as (mem' & Hrun & Hacc & _).
  - apply accounted_check_spec. vm_compute. reflexivity.
  - intros p [= <-]. vm_compute. lia.
  - vm_compute. lia.
  - exists mem'. split; assumption.
Defined.

Lemma operations_keep_accounting_witness :
  exists mem' stack',
    operate 4 two_stacks {| last_entry := Some 3 |}
      (@Mutate exact_float exact_graphene LoadIdentity) = Some (mem', stack')
    /\ accounted
         (moved (owned_by [0; 1; 3]) (Some 3) (last_entry stack')) mem'
    /\ grounded mem'.
Proof.
  destruct (operations_keep_accounting 4 (owned_by [0; 1; 3]) two_stacks
              {| last_entry := Some 3 |}
              (@Mutate exact_float exact_graphene LoadIdentity)
              [(3, translate_entry 2 1 2 0 0); (2, translate_entry 0 1 5 0 0);
               (0, identity_entry 3)])
    as (mem' & stack' & Hrun & Hacc & Hg & _).
  - apply accounted_check_spec. vm_compute. reflexivity.
  - apply grounded_check_spec. vm_compute. reflexivity.
  - intros t [= <-]. vm_compute. lia.
  - apply bounded_check_spec. vm_compute. reflexivity.
  - chain_holds.
  - discriminate.
  - discriminate.
  - vm_compute. lia.
  - exists mem', stack'. split; [exact Hrun|]. split; [exact Hacc|exact Hg].
Defined.

Lemma snapshots_survive_operations_witness :
  exists mem' stack' ls',
    operate 4 two_stacks {| last_entry := Some 3 |}
      (@Mutate exact_float exact_graphene LoadIdentity) = Some (mem', stack')
    /\ chain mem' (Some 1) ls'
    /\ same_shape [(1, translate_entry 0 1 5 0 0); (0, identity_entry 3)] ls'.
Proof.
  destruct (snapshots_survive_operations 4 (owned_by [0; 1; 3]) two_stacks
              {| last_entry := Some 3 |}
              (@Mutate exact_float exact_graphene LoadIdentity)
              [(3, translate_entry 2 1 2 0 0); (2, translate_entry 0 1 5 0 0);
               (0, identity_entry 3)]
              1 [(1, translate_entry 0 1 5 0 0); (0, identity_entry 3)])
    as (mem' & stack' & ls' & Hrun & Hc & Hshape & _).
  - apply accounted_check_spec. vm_compute. reflexivity.
  - intros t [= <-]. vm_compute. lia.
  - apply bounded_check_spec. vm_compute. reflexivity.
  - chain_holds.
  - discriminate.
  - discriminate.
  - vm_compute. lia.
  - vm_compute. lia.
  - chain_holds.
  - exists mem', stack', ls'. split; [exact Hrun|].
    split; [exact Hc|exact Hshape].
Defined.

(** In [translate_scale] the context owns the identity entry and the
    stack owns its top entry at address 2. *)
Lemma dispose_of_last_owner_frees_all_witness :
  exists mem',
    cogl_matrix_stack_dispose 3 translate_scale {| last_entry := Some 2 |} =
      Some mem'
    /\ is_Some (mem' !! 0)
    /\ forall p, is_Some (mem' !! p) -> p = 0.
Proof.
  destruct (dispose_of_last_owner_frees_all 3 (owned_by [0; 2])
              translate_scale {| last_entry := Some 2 |} 0 (identity_entry 2))
    as (_ & mem' & Hrun & Hroot & Honly).
  - apply accounted_check_spec. vm_compute. reflexivity.
  - apply grounded_check_spec. vm_compute. reflexivity.
  - intros t [= <-]. vm_compute. lia.
  - reflexivity.
  - reflexivity.
  - vm_compute. lia.
  - intros [|[|[|q]]]; vm_compute; intros Hq; try reflexivity; lia.
  - vm_compute. lia.
  - exists mem'. split; [exact Hrun|]. split; [exact Hroot|exact Honly].
Defined.

Lemma ref_then_unref_restores_witness :
  exists mem1,
    cogl_matrix_entry_ref fresh_stack (Some 0) = Some mem1
    /\ cogl_matrix_entry_unref 0 mem1 (Some 0) = Some fresh_stack.
Proof.
  destruct (ref_then_unref_restores 0 fresh_stack 0 (identity_entry 2))
    as (mem1 & Href & _ & Hun).
  - reflexivity.
  - unfold INT_MAX. simpl. lia.
  - exists mem1. split; assumption.
Defined.

Lemma stack_new_then_dispose_witness :
  exists mem1 stack,
    cogl_matrix_stack_new (_cogl_matrix_entry_identity_init ∅ 0) 0 =
      Some (mem1, stack)
    /\ cogl_matrix_stack_dispose 0 mem1 stack =
         Some (_cogl_matrix_entry_identity_init ∅ 0).
Proof.
  destruct (stack_new_then_dispose 0 (owned_by [0])
              (@_cogl_matrix_entry_identity_init exact_float exact_graphene ∅ 0)
              0 (identity_entry 1))
    as (mem1 & stack & Hnew & _ & _ & _ & Hdispose).
  - apply accounted_check_spec. vm_compute. reflexivity.
  - reflexivity.
  - reflexivity.
  - unfold INT_MAX. simpl. lia.
  - exists mem1, stack. split; assumption.
Defined.

Lemma identity_init_then_new_witness :
  cogl_matrix_entry_is_identity
    (@_cogl_matrix_entry_identity_init exact_float exact_graphene ∅ 0)
    (Some 0) = Some true
  /\ exists mem1 stack,
       cogl_matrix_stack_new
         (@_cogl_matrix_entry_identity_init exact_float exact_graphene ∅ 0) 0 =
         Some (mem1, stack)
       /\ cogl_matrix_stack_dispose 0 mem1 stack =
            Some (_cogl_matrix_entry_identity_init ∅ 0).
Proof.
  destruct (@identity_init_then_new exact_float exact_graphene 0
              (owned_by []) ∅ 0)
    as (_ & Hid & mem1 & stack & Hnew & _ & _ & Hdispose).
  - apply accounted_check_spec. vm_compute. reflexivity.
  - reflexivity.
  - split; [exact Hid|]. exists mem1, stack.
    split; [exact Hnew|exact Hdispose].
Defined.

Lemma pop_without_save_is_undefined_witness :
  cogl_matrix_stack_pop 5 translate_scale {| last_entry := Some 2 |} = None.
Proof.
  apply (pop_without_save_is_undefined 5 translate_scale
           {| last_entry := Some 2 |}
           [(2, scale_entry 1 2 2 2); (1, translate_entry 0 1 1 2 3);
            (0, identity_entry 2)]).
  - chain_holds.
  - discriminate.
  - repeat constructor.
Defined.

Lemma get_keeps_structure_witness :
  exists mem' matrix internal,
    cogl_matrix_entry_get 4 saved_translate (Some 2) =
      Some (mem', matrix, internal)
    /\ (forall owners,
          accounted owners saved_translate -> accounted owners mem').
Proof.
  eexists _, _, _. split; [reflexivity|].
  apply (proj2 (get_keeps_structure 4 saved_translate (Some 2) _ _ _ eq_refl)).
Defined.

Lemma get_is_idempotent_witness :
  exists mem1 matrix internal,
    cogl_matrix_entry_get 4 saved_translate (Some 2) =
      Some (mem1, matrix, internal)
    /\ cogl_matrix_entry_get 4 mem1 (Some 2) = Some (mem1, matrix, internal).
Proof.
  apply (get_is_idempotent 4 saved_translate (Some 2)
           [(2, translate_entry 1 1 1 2 3)] 1 (save_entry 0)
           [(0, identity_entry 2)]).
  - chain_holds.
  - repeat constructor.
  - reflexivity.
  - split; [discriminate|exact I].
  - simpl. lia.
Defined.

Lemma get_fills_caches_right_witness :
  exists mem' matrix internal,
    cogl_matrix_entry_get 4 saved_translate (Some 2) =
      Some (mem', matrix, internal)
    /\ chain mem' (Some 2)
         [(2, translate_entry 1 1 1 2 3);
          (1, {| parent := Some 0; ref_count := 1;
                 full := EntrySave (Some mat4_identity) true |});
          (0, identity_entry 2)].
Proof.
  destruct (get_fills_caches_right 4 saved_translate (Some 2)
              [(2, translate_entry 1 1 1 2 3); (1, save_entry 0);
               (0, identity_entry 2)])
    as (mem' & matrix & internal & Hget & Hc & _).
  - chain_holds.
  - split; [discriminate|exact I].
  - repeat split; discriminate.
  - apply Exists_cons_tl, Exists_cons_hd. reflexivity.
  - simpl. lia.
  - exists mem', matrix, internal. split; [exact Hget|exact Hc].
Defined.

Lemma identity_entry_evaluates_to_identity_witness :
  cogl_matrix_entry_get 1 fresh_stack (Some 0) =
    Some (fresh_stack, mat4_identity, None).
Proof.
  apply (identity_entry_evaluates_to_identity fresh_stack (Some 0) 0).
  reflexivity.
Defined.

Lemma replacing_operation_then_get_witness :
  exists mem' stack',
    cogl_matrix_stack_set 5 two_translates {| last_entry := Some 2 |}
      translate_scale_matrix = Some (mem', stack')
    /\ cogl_matrix_stack_get 1 mem' stack' =
         Some (mem', mat4_mul mat4_identity translate_scale_matrix,
               Some translate_scale_matrix).
Proof.
  eexists _, _. split; [reflexivity|].
  apply (replacing_operation_then_get 5 two_translates
           {| last_entry := Some 2 |}
           (@Set_ exact_float exact_graphene translate_scale_matrix) _ _ 0);
    reflexivity.
Defined.

Lemma projection_then_get_witness :
  exists mem' stack',
    cogl_matrix_stack_orthographic mat4_ortho 5 two_translates
      {| last_entry := Some 2 |} (q 0) (q 0) (q 4) (q 2) (q (-1)) (q 1) =
      Some (mem', stack')
    /\ cogl_matrix_stack_get 1 mem' stack' =
         Some (mem',
               mat4_mul mat4_identity
                 (mat4_ortho (q 0) (q 4) (q 2) (q 0) (q (-1)) (q 1)),
               Some (mat4_ortho (q 0) (q 4) (q 2) (q 0) (q (-1)) (q 1)))
    /\ mat4_entries (mat4_ortho (q 0) (q 4) (q 2) (q 0) (q (-1)) (q 1)) =
       [ [1 # 2; 0; 0; 0]; [0; 1; 0; 0]; [0; 0; -1; 0]; [-1; -1; 0; 1] ]%Q.
Proof.
  eexists _, _. split; [reflexivity|]. split; [|vm_compute; reflexivity].
  apply (@projection_then_get exact_float exact_graphene
           mat4_frustum mat4_perspective mat4_ortho
           5 two_translates {| last_entry := Some 2 |}
           (@Orthographic exact_float (q 0) (q 0) (q 4) (q 2) (q (-1)) (q 1))
           _ _ 0).
  reflexivity.
Defined.

Lemma equal_is_symmetric_witness :
  cogl_matrix_entry_equal 3 two_stacks (Some 1) (Some 3) =
  cogl_matrix_entry_equal 3 two_stacks (Some 3) (Some 1).
Proof.
  apply (@equal_is_symmetric exact_float exact_graphene
           Qc_eq_bool_sym exact_point3d_sym exact_triple_sym exact_triple_sym
           exact_matrix_sym).
Defined.

Lemma appended_operation_premultiplies_witness :
  exists mem0 before internal mem1 stack1 mem2 internal',
    cogl_matrix_stack_get 5 translate_scale {| last_entry := Some 2 |} =
      Some (mem0, before, internal)
    /\ cogl_matrix_stack_translate translate_scale {| last_entry := Some 2 |}
         (q 1) (q 0) (q 0) = Some (mem1, stack1)
    /\ cogl_matrix_stack_get 5 mem1 stack1 =
         Some (mem2,
               mat4_mul
                 (mat4_mul mat4_identity (mat4_translation (q 1) (q 0) (q 0)))
                 before,
               internal').
Proof.
  apply (@appended_operation_premultiplies exact_float exact_graphene
           exact_multiply_assoc exact_identity_left exact_identity_right
           (fun m pos => exact_post m _) (fun m angle axis => exact_post m _)
           (fun m euler => exact_post m _) (fun m x y z => exact_post m _)
           5 translate_scale {| last_entry := Some 2 |}
           [(2, scale_entry 1 2 2 2); (1, translate_entry 0 1 1 2 3)]
           0 (identity_entry 2) []
           (@Mutate exact_float exact_graphene
              (@Translate exact_float exact_graphene (q 1) (q 0) (q 0)))).
  - chain_holds.
  - repeat constructor.
  - reflexivity.
  - exact I.
  - simpl. lia.
  - reflexivity.
Defined.

Lemma equal_entries_have_equal_matrices_witness :
  exists matrix mem0 internal0 mem1 internal1,
    cogl_matrix_entry_get 3 two_stacks (Some 1) =
      Some (mem0, matrix, internal0)
    /\ cogl_matrix_entry_get 3 two_stacks (Some 2) =
         Some (mem1, matrix, internal1).
Proof.
  apply (@equal_entries_have_equal_matrices exact_float exact_graphene
           exact_multiply_assoc exact_identity_left exact_identity_right
           (fun m pos => exact_post m _) (fun m angle axis => exact_post m _)
           (fun m euler => exact_post m _) (fun m x y z => exact_post m _)
           Qc_eq_bool_exact exact_point3d_exact exact_triple_exact
           exact_triple_exact exact_matrix_exact
           3 two_stacks (Some 1) (Some 2)
           [(1, translate_entry 0 1 5 0 0); (0, identity_entry 3)]
           [(2, translate_entry 0 1 5 0 0); (0, identity_entry 3)]).
  - chain_holds.
  - chain_holds.
  - repeat split; discriminate.
  - repeat split; discriminate.
  - repeat split; discriminate.
  - repeat split; discriminate.
  - exact I.
  - exact I.
  - apply Exists_cons_tl, Exists_cons_hd. reflexivity.
  - apply Exists_cons_tl, Exists_cons_hd. reflexivity.
  - simpl. lia.
  - simpl. lia.
  - vm_compute. reflexivity.
Defined.

Lemma translation_to_pushed_translate_witness :
  exists mem' stack',
    cogl_matrix_stack_translate fresh_stack {| last_entry := Some 0 |}
      (q 1) (q 2) (q 3) = Some (mem', stack')
    /\ cogl_matrix_entry_calculate_translation 2 mem' (Some 0)
         (last_entry stack') =
         Some (Some (0 + q 1, 0 + q 2, 0 + q 3)%Qc).
Proof.
  destruct (translation_to_pushed_translate 2 fresh_stack
              {| last_entry := Some 0 |} [(0, identity_entry 2)]
              (q 1) (q 2) (q 3))
    as (mem' & stack' & Hrun & _ & Hto & _).
  - chain_holds.
  - discriminate.
  - simpl. lia.
  - exists mem', stack'. split; [exact Hrun|exact Hto].
Defined.

Lemma relative_translation_maps_matrices_witness :
  exists xyz mem0 matrix0 internal0 mem1 matrix1 internal1,
    cogl_matrix_entry_calculate_translation 5 two_stacks (Some 1) (Some 3) =
      Some (Some xyz)
    /\ cogl_matrix_entry_get 5 two_stacks (Some 1) =
         Some (mem0, matrix0, internal0)
    /\ cogl_matrix_entry_get 5 two_stacks (Some 3) =
         Some (mem1, matrix1, internal1)
    /\ matrix1 =
         mat4_mul (@translation_matrix exact_float exact_graphene xyz) matrix0.
Proof.
  apply (@relative_translation_maps_matrices exact_float exact_graphene
           exact_multiply_assoc exact_identity_left exact_identity_right
           (fun m pos => exact_post m _) (fun m angle axis => exact_post m _)
           (fun m euler => exact_post m _) (fun m x y z => exact_post m _)
           exact_translate_zero exact_translate_translate
           Qc_sub_zero Qc_sub_sub Qc_add_sub Qc_add_sub_cancel
           5 two_stacks (Some 1) (Some 3)
           [(1, translate_entry 0 1 5 0 0); (0, identity_entry 3)]
           [(3, translate_entry 2 1 2 0 0); (2, translate_entry 0 1 5 0 0);
            (0, identity_entry 3)]
           [(1, translate_entry 0 1 5 0 0)]
           [(2, translate_entry 0 1 5 0 0); (3, translate_entry 2 1 2 0 0)]
           0 (identity_entry 3) []).
  - chain_holds.
  - chain_holds.
  - simpl. lia.
  - simpl. lia.
  - reflexivity.
  - reflexivity.
  - repeat constructor.
  - repeat constructor.
  - discriminate.
  - repeat split; discriminate.
  - repeat split; discriminate.
  - exact I.
  - exact I.
  - apply Exists_cons_tl, Exists_cons_hd. reflexivity.
  - apply Exists_cons_tl, Exists_cons_tl, Exists_cons_hd. reflexivity.
Defined.

Lemma cache_update_is_idempotent_witness :
  exists mem1 cache1 updated,
    _cogl_matrix_entry_cache_maybe_update 4 two_stacks
      _cogl_matrix_entry_cache_init (Some 1) false =
      Some (mem1, cache1, updated)
    /\ _cogl_matrix_entry_cache_maybe_update 4 mem1 cache1 (Some 1) false =
         Some (mem1, cache1, false).
Proof.
  eexists _, _, _. split; [reflexivity|].
  eapply (cache_update_is_idempotent 4 4 two_stacks
            _cogl_matrix_entry_cache_init 1 (translate_entry 0 1 5 0 0) false).
  - reflexivity.
  - simpl. lia.
  - reflexivity.
Defined.

Lemma cache_update_keeps_accounting_witness :
  exists mem' cache' updated,
    _cogl_matrix_entry_cache_maybe_update 4 two_stacks
      _cogl_matrix_entry_cache_init (Some 1) false =
      Some (mem', cache', updated)
    /\ entry cache' = Some 1
    /\ accounted (moved (owned_by [0; 1; 3]) None (Some 1)) mem'.
Proof.
  destruct (cache_update_keeps_accounting 4 (owned_by [0; 1; 3]) two_stacks
              _cogl_matrix_entry_cache_init 1 (translate_entry 0 1 5 0 0)
              false)
    as (mem' & cache' & updated & Hrun & Hentry & _ & _ & Hacc).
  - apply accounted_check_spec. vm_compute. reflexivity.
  - intros old Hold. discriminate Hold.
  - reflexivity.
  - unfold INT_MAX. simpl. lia.
  - vm_compute. lia.
  - exists mem', cache', updated.
    split; [exact Hrun|]. split; [exact Hentry|exact Hacc].
Defined.

(** A cache that holds the identity entry at address 0 of
    [two_identities] is given the other identity entry. *)
Lemma cache_reports_real_changes_witness :
  exists mem' cache',
    _cogl_matrix_entry_cache_maybe_update 2 two_identities
      {| entry := Some 0; flushed_identity := true; flipped := false |}
      (Some 5) false = Some (mem', cache', false)
    /\ cogl_matrix_entry_is_identity two_identities (Some 0) = Some true
    /\ cogl_matrix_entry_is_identity two_identities (Some 5) = Some true.
Proof.
  eexists _, _. split; [reflexivity|].
  edestruct (cache_reports_real_changes 2 two_identities
               {| entry := Some 0; flushed_identity := true; flipped := false |}
               5 false)
    as (_ & old & Hold & [Hsame|Hboth]).
  - exists (identity_entry 1). split; reflexivity.
  - reflexivity.
  - simpl in Hold. injection Hold as <-. discriminate Hsame.
  - simpl in Hold. injection Hold as <-. exact Hboth.
Defined.

Lemma cache_first_update_then_destroy_witness :
  exists mem1 cache1,
    _cogl_matrix_entry_cache_maybe_update 0 fresh_stack
      _cogl_matrix_entry_cache_init (Some 0) true = Some (mem1, cache1, true)
    /\ _cogl_matrix_entry_cache_destroy 0 mem1 cache1 = Some fresh_stack.
Proof.
  destruct (cache_first_update_then_destroy 0 fresh_stack 0 (identity_entry 2)
              true)
    as (mem1 & cache1 & Hrun & _ & Hdestroy).
  - reflexivity.
  - unfold INT_MAX. simpl. lia.
  - exists mem1, cache1. split; [exact Hrun|exact Hdestroy].
Defined.

Lemma debug_print_goes_root_first_witness :
  cogl_debug_matrix_entry_print 3 translate_scale (Some 2) =
    Some [PrintMatrixEntry (Some 2); PrintLoadIdentity;
          PrintTranslate (q 1) (q 2) (q 3); PrintScale (q 2) (q 2) (q 2)].
Proof.
  rewrite (debug_print_goes_root_first 3 translate_scale (Some 2)
             [(2, scale_entry 1 2 2 2); (1, translate_entry 0 1 1 2 3);
              (0, identity_entry 2)]).
  - reflexivity.
  - chain_holds.
  - simpl. lia.
Defined.
